(** * Sequence alignment: dynamic-programming engines and their backtraces

    A shallow embedding of [alignment/sequencealigner.py]: the scoring
    interfaces, the alignment accumulator (push / pop / reversed and the
    percentage metrics), the three-state matrix store, the three aligners
    (affine global, linear global, affine local) with their matrix fill,
    best score and recursive backtrace.

    Python integers are [Z].  A Python exception is a value [Raise e] of
    the [result] monad.  List indices follow Python: a negative index
    counts from the end, an index out of range raises [IndexError]. *)

From Stdlib Require Import ZArith Lia Bool PrimFloat SpecFloat FloatOps.
From stdpp Require Import base tactics option list list_numbers.

Local Open Scope Z_scope.

(** ** Exceptions and the result monad *)

Inductive exn : Type :=
  | IndexError
  | AssertionError
  | ValueError
  | ZeroDivisionError
  | OutOfFuel.

Inductive result (A : Type) : Type :=
  | Ok (a : A)
  | Raise (e : exn).
Arguments Ok {A} a.
Arguments Raise {A} e.

#[global] Instance result_ret : MRet result := fun A a => Ok a.
#[global] Instance result_bind : MBind result := fun A B f m =>
  match m with
  | Ok a => f a
  | Raise e => Raise e
  end.

(** [for x in l: s = body(s, x)], stopping at the first exception. *)
Fixpoint foldM {S X : Type} (body : S -> X -> result S) (l : list X) (s : S)
  : result S :=
  match l with
  | [] => Ok s
  | x :: l' => s' ← body s x; foldM body l' s'
  end.

(** [range(a, b)] *)
Definition range (a b : Z) : list Z := seqZ a (b - a).

(** ** Python list indexing *)

(** The position a Python index [k] denotes in a list of length [len]. *)
Definition py_norm (len k : Z) : option nat :=
  if (0 <=? k) && (k <? len) then Some (Z.to_nat k)
  else if (k <? 0) && (- len <=? k) then Some (Z.to_nat (len + k))
  else None.

(** [l[k]] *)
Definition py_get {A : Type} (l : list A) (k : Z) : result A :=
  match py_norm (Z.of_nat (length l)) k with
  | Some n => match l !! n with
              | Some x => Ok x
              | None => Raise IndexError
              end
  | None => Raise IndexError
  end.

(** [l[k] = x] *)
Definition py_set {A : Type} (l : list A) (k : Z) (x : A) : result (list A) :=
  match py_norm (Z.of_nat (length l)) k with
  | Some n => Ok (<[n := x]> l)
  | None => Raise IndexError
  end.

(** [l.pop()] *)
Definition list_pop {A : Type} (l : list A) : result (A * list A) :=
  match reverse l with
  | [] => Raise IndexError
  | x :: r => Ok (x, reverse r)
  end.

(** [max(a, b, c)] *)
Definition max3 (a b c : Z) : Z := Z.max (Z.max a b) c.

(** [max(l)] of a list: [ValueError] on the empty list. *)
Definition py_max (l : list Z) : result Z :=
  match l with
  | [] => Raise ValueError
  | x :: l' => Ok (foldl Z.max x l')
  end.

(** ** Encoded sequences *)

(** Modelled from the spec: the module [alignment/sequence.py] (the class
    [EncodedSequence] and the constant [GAP_CODE]) is not part of the
    sources at hand.  The spec describes an encoded sequence as an
    ordered, 0-indexed list of symbol codes with an opaque identifier,
    supporting length, indexed read, append-at-end, remove-last and a
    reversed copy; and the gap sentinel as a fixed negative constant,
    e.g. -1. *)
Definition GAP_CODE : Z := -1.

Record EncodedSequence : Type := mkSeq {
  elements : list Z;
  seq_id : Z
}.

Module Seq.

(** [EncodedSequence(capacity, id=...)]: an empty sequence. *)
Definition empty (ident : Z) : EncodedSequence :=
  {| elements := []; seq_id := ident |}.

Definition len (s : EncodedSequence) : Z := Z.of_nat (length (elements s)).

Definition get (s : EncodedSequence) (k : Z) : result Z :=
  py_get (elements s) k.

Definition push (s : EncodedSequence) (e : Z) : EncodedSequence :=
  {| elements := elements s ++ [e]; seq_id := seq_id s |}.

Definition pop (s : EncodedSequence) : result (Z * EncodedSequence) :=
  '(e, r) ← list_pop (elements s);
  Ok (e, {| elements := r; seq_id := seq_id s |}).

Definition reversed (s : EncodedSequence) : EncodedSequence :=
  {| elements := reverse (elements s); seq_id := seq_id s |}.

End Seq.

(** ** Scoring *)

(** [class Scoring]: the substitution score of two elements. *)
Class Scoring (S : Type) : Type := {
  call : S -> Z -> Z -> Z
}.

(** [class GapScoring]: the cost of opening and of extending a gap next
    to an element. *)
Class GapScoring (S : Type) : Type := {
  gapStart : S -> Z -> Z;
  gapExtension : S -> Z -> Z
}.

Record SimpleScoring : Type := mkSimpleScoring {
  matchScore : Z;
  mismatchScore : Z;
  gapStartScore : Z;
  gapExtensionScore : Z
}.

#[global] Instance SimpleScoring_Scoring : Scoring SimpleScoring := {
  call s firstElement secondElement :=
    if firstElement =? secondElement then matchScore s else mismatchScore s
}.

#[global] Instance SimpleScoring_GapScoring : GapScoring SimpleScoring := {
  gapStart s _ := gapStartScore s;
  gapExtension s _ := gapExtensionScore s
}.

(** ** The alignment accumulator *)

Record SequenceAlignment : Type := mkAlignment {
  first : EncodedSequence;
  second : EncodedSequence;
  gap : Z;
  scores : list Z;
  score : Z;
  identicalCount : Z;
  similarCount : Z;
  gapCount : Z;
  preservedCount : Z
}.

Module SequenceAlignment.

(** [SequenceAlignment(first, second)] with [other=None]:
    [scores = [0] * len(first)]. *)
Definition init (fst snd : EncodedSequence) : SequenceAlignment :=
  {| first := fst; second := snd; gap := GAP_CODE;
     scores := replicate (length (elements fst)) 0;
     score := 0; identicalCount := 0; similarCount := 0;
     gapCount := 0; preservedCount := 0 |}.

Definition push (self : SequenceAlignment) (firstElement secondElement : Z)
    (s : Z) : SequenceAlignment :=
  let isgap := (firstElement =? gap self) || (secondElement =? gap self) in
  {| first := Seq.push (first self) firstElement;
     second := Seq.push (second self) secondElement;
     gap := gap self;
     scores := scores self ++ [s];
     score := score self + s;
     identicalCount :=
       if firstElement =? secondElement then identicalCount self + 1
       else identicalCount self;
     similarCount :=
       if 0 <? s then similarCount self + 1 else similarCount self;
     gapCount := if isgap then gapCount self + 1 else gapCount self;
     preservedCount :=
       if isgap then preservedCount self else preservedCount self + 1 |}.

Definition pop (self : SequenceAlignment)
    : result ((Z * Z) * SequenceAlignment) :=
  '(firstElement, first') ← Seq.pop (first self);
  '(secondElement, second') ← Seq.pop (second self);
  '(s, scores') ← list_pop (scores self);
  let isgap := (firstElement =? gap self) || (secondElement =? gap self) in
  Ok ((firstElement, secondElement),
      {| first := first';
         second := second';
         gap := gap self;
         scores := scores';
         score := score self - s;
         identicalCount :=
           if firstElement =? secondElement then identicalCount self - 1
           else identicalCount self;
         similarCount :=
           if 0 <? s then similarCount self - 1 else similarCount self;
         gapCount := if isgap then gapCount self - 1 else gapCount self;
         preservedCount :=
           if isgap then preservedCount self
           else preservedCount self - 1 |}).

(** [reversed]: the two sequences are reversed; the score list and the
    counters are copied as they are. *)
Definition reversed (self : SequenceAlignment) : SequenceAlignment :=
  {| first := Seq.reversed (first self);
     second := Seq.reversed (second self);
     gap := gap self;
     scores := scores self;
     score := score self;
     identicalCount := identicalCount self;
     similarCount := similarCount self;
     gapCount := gapCount self;
     preservedCount := preservedCount self |}.

(** [__len__], with its assertion. *)
Definition len (self : SequenceAlignment) : result Z :=
  if Seq.len (first self) =? Seq.len (second self)
  then Ok (Seq.len (first self))
  else Raise AssertionError.

(** [float(x)] of an integer: rounding to the nearest binary64 value.
    (Python raises [OverflowError] beyond the binary64 range, which the
    counters of an alignment, bounded by its length, never reach.) *)
Definition float_of_int (x : Z) : float :=
  SF2Prim (binary_normalize prec emax x 0 false).

(** [float(num) / den * 100.0] where [den] is an integer: dividing by
    the integer zero raises [ZeroDivisionError]. *)
Definition ratio (num den : Z) : result float :=
  if den =? 0 then Raise ZeroDivisionError
  else Ok (float_of_int num / float_of_int den * 100)%float.

(** [try: ... except ZeroDivisionError: return 0.0] *)
Definition except_ZeroDivisionError (body : result float) : result float :=
  match body with
  | Raise ZeroDivisionError => Ok 0%float
  | r => r
  end.

Definition percentIdentity (self : SequenceAlignment) : result float :=
  except_ZeroDivisionError
    (n ← len self; ratio (identicalCount self) n).

Definition percentPreservedIdentity (self : SequenceAlignment)
    : result float :=
  except_ZeroDivisionError
    (ratio (identicalCount self) (preservedCount self)).

Definition percentSimilarity (self : SequenceAlignment) : result float :=
  except_ZeroDivisionError
    (n ← len self; ratio (similarCount self) n).

Definition percentPreservedSimilarity (self : SequenceAlignment)
    : result float :=
  except_ZeroDivisionError
    (ratio (similarCount self) (preservedCount self)).

Definition percentGap (self : SequenceAlignment) : result float :=
  except_ZeroDivisionError
    (n ← len self; ratio (gapCount self) n).

End SequenceAlignment.

(** ** The matrix store *)

Inductive MatrixType : Type := F | IX | IY.

#[global] Instance MatrixType_eq_dec : EqDecision MatrixType.
Proof. solve_decision. Defined.

(** A dictionary with exactly the three keys [F], [IX], [IY]. *)
Record PerType (A : Type) : Type := mkPerType {
  atF : A;
  atIX : A;
  atIY : A
}.
Arguments mkPerType {A} _ _ _.
Arguments atF {A} _.
Arguments atIX {A} _.
Arguments atIY {A} _.

Definition pt_get {A : Type} (d : PerType A) (t : MatrixType) : A :=
  match t with
  | F => atF d
  | IX => atIX d
  | IY => atIY d
  end.

Definition pt_set {A : Type} (d : PerType A) (t : MatrixType) (x : A)
    : PerType A :=
  match t with
  | F => mkPerType x (atIX d) (atIY d)
  | IX => mkPerType (atF d) x (atIY d)
  | IY => mkPerType (atF d) (atIX d) x
  end.

(** [make_matrix(shape, factory)]: [i] fresh rows of [j] fresh default
    values. *)
Definition make_matrix {A : Type} (shape : Z * Z) (factory : A)
    : list (list A) :=
  let '(i, j) := shape in
  replicate (Z.to_nat i) (replicate (Z.to_nat j) factory).

Record AlignmentMatrix : Type := mkMatrix {
  shape : Z * Z;
  matrix : PerType (list (list Z));
  direction : PerType (list (list (list MatrixType)))
}.

Module AlignmentMatrix.

Definition init (shape : Z * Z) : AlignmentMatrix :=
  {| shape := shape;
     matrix := mkPerType (make_matrix shape 0) (make_matrix shape 0)
                         (make_matrix shape 0);
     direction := mkPerType (make_matrix shape []) (make_matrix shape [])
                            (make_matrix shape []) |}.

(** [m[i][j]] *)
Definition get2 {A : Type} (m : list (list A)) (i j : Z) : result A :=
  row ← py_get m i; py_get row j.

(** [m[i][j] = x]: the row [m[i]] is updated in place. *)
Definition set2 {A : Type} (m : list (list A)) (i j : Z) (x : A)
    : result (list (list A)) :=
  row ← py_get m i;
  row' ← py_set row j x;
  py_set m i row'.

Definition getScore (self : AlignmentMatrix) (type : MatrixType) (i j : Z)
    : result Z :=
  get2 (pt_get (matrix self) type) i j.

Definition setScore (self : AlignmentMatrix) (type : MatrixType) (i j : Z)
    (score : Z) : result AlignmentMatrix :=
  m' ← set2 (pt_get (matrix self) type) i j score;
  Ok {| shape := shape self;
        matrix := pt_set (matrix self) type m';
        direction := direction self |}.

Definition getDirection (self : AlignmentMatrix) (type : MatrixType)
    (i j : Z) : result (list MatrixType) :=
  get2 (pt_get (direction self) type) i j.

Definition setDirection (self : AlignmentMatrix) (type : MatrixType)
    (i j : Z) (dir : list MatrixType) : result AlignmentMatrix :=
  d' ← set2 (pt_get (direction self) type) i j dir;
  Ok {| shape := shape self;
        matrix := matrix self;
        direction := pt_set (direction self) type d' |}.

(** [max(map(max, rows))] *)
Definition max_of_rows (rows : list (list Z)) : result Z :=
  ms ← foldM (fun acc row => x ← py_max row; Ok (acc ++ [x])) rows [];
  py_max ms.

(** [max(max(map(max, self.matrix[type])) for type in MatrixType)] *)
Definition max (self : AlignmentMatrix) : result Z :=
  a ← max_of_rows (pt_get (matrix self) F);
  b ← max_of_rows (pt_get (matrix self) IX);
  c ← max_of_rows (pt_get (matrix self) IY);
  Ok (max3 a b c).

End AlignmentMatrix.

(** ** What the aligners share *)

Definition all_types : list MatrixType := [F; IX; IY].

(** [[dir for score, dir in [(prevF, F), (prevIx, IX), (prevIy, IY)]
      if score == maxScore]] *)
Definition tying (prevF prevIx prevIy maxScore : Z) : list MatrixType :=
  map snd (List.filter (fun p : Z * MatrixType => fst p =? maxScore)
                       [(prevF, F); (prevIx, IX); (prevIy, IY)]).

(** [SequenceAligner.emptyAlignment] *)
Definition emptyAlignment (first second : EncodedSequence)
    : SequenceAlignment :=
  SequenceAlignment.init (Seq.empty (seq_id first))
                         (Seq.empty (seq_id second)).

(** The state a backtrace threads through its recursion: the result list
    [alignments] and the one accumulator [alignment] that every call
    mutates by push and pop. *)
Definition bt_state : Type := list SequenceAlignment * SequenceAlignment.

(** [alignments.append(alignment.reversed())] *)
Definition finalize (st : bt_state) : bt_state :=
  (fst st ++ [SequenceAlignment.reversed (snd st)], snd st).

(** [alignment.push(a, b, s); <descend>; alignment.pop()] *)
Definition with_push (a b s : Z) (descend : bt_state -> result bt_state)
    (st : bt_state) : result bt_state :=
  st' ← descend (fst st, SequenceAlignment.push (snd st) a b s);
  '(_, alignment') ← SequenceAlignment.pop (snd st');
  Ok (fst st', alignment').

(** The recursion budget that [backtrace] gives a descent from [(i, j)]:
    every recursive call lowers [i] or [j]. *)
Definition depth (i j : Z) : nat := S (Z.to_nat i + Z.to_nat j).

(** ** The affine-gap global aligner *)

Module GlobalSequenceAligner.
Section Aligner.

Context {S : Type} `{Scoring S} `{GapScoring S}.
Variable scoring : S.
Variable fastBacktrace : bool.

Import AlignmentMatrix.

(** The body of the double loop of [computeAlignmentMatrix]. *)
Definition fill_cell (first second : EncodedSequence) (m n : Z)
    (f : AlignmentMatrix) (i j : Z) : result AlignmentMatrix :=
  (* Match elements. *)
  prevF ← getScore f F (i - 1) (j - 1);
  prevIx ← getScore f IX (i - 1) (j - 1);
  prevIy ← getScore f IY (i - 1) (j - 1);
  let maxScore := max3 prevF prevIx prevIy in
  let dirAb := tying prevF prevIx prevIy maxScore in
  a ← Seq.get first (i - 1);
  b ← Seq.get second (j - 1);
  f ← setScore f F i j (maxScore + call scoring a b);
  f ← setDirection f F i j dirAb;
  (* Gap on first sequence. *)
  f ← (if i =? m - 1 then
         prevF ← getScore f F i (j - 1);
         prevIx ← getScore f IX i (j - 1);
         prevIy ← getScore f IY i (j - 1);
         let maxScore := max3 prevF prevIx prevIy in
         let dirGa := tying prevF prevIx prevIy maxScore in
         f ← setScore f IX i j maxScore;
         setDirection f IX i j dirGa
       else
         x ← getScore f F i (j - 1);
         b ← Seq.get second (j - 1);
         let prevF := x + gapStart scoring b in
         prevIx ← getScore f IX i (j - 1);
         y ← getScore f IY i (j - 1);
         let prevIy := y + gapStart scoring b in
         let maxScore := max3 prevF prevIx prevIy in
         let dirGa := tying prevF prevIx prevIy maxScore in
         f ← setScore f IX i j (maxScore + gapExtension scoring b);
         setDirection f IX i j dirGa);
  (* Gap on second sequence. *)
  if j =? n - 1 then
    prevF ← getScore f F (i - 1) j;
    prevIx ← getScore f IX (i - 1) j;
    prevIy ← getScore f IY (i - 1) j;
    let maxScore := max3 prevF prevIx prevIy in
    let dirGb := tying prevF prevIx prevIy maxScore in
    f ← setScore f IY i j maxScore;
    setDirection f IY i j dirGb
  else
    x ← getScore f F (i - 1) j;
    a ← Seq.get first (i - 1);
    let prevF := x + gapStart scoring a in
    y ← getScore f IX (i - 1) j;
    let prevIx := y + gapStart scoring a in
    prevIy ← getScore f IY (i - 1) j;
    let maxScore := max3 prevF prevIx prevIy in
    let dirGb := tying prevF prevIx prevIy maxScore in
    f ← setScore f IY i j (maxScore + gapExtension scoring a);
    setDirection f IY i j dirGb.

Definition computeAlignmentMatrix (first second : EncodedSequence)
    : result AlignmentMatrix :=
  let m := Seq.len first + 1 in
  let n := Seq.len second + 1 in
  let f := AlignmentMatrix.init (m, n) in
  foldM (fun f i =>
           foldM (fun f j => fill_cell first second m n f i j)
                 (range 1 n) f)
        (range 1 m) f.

(** [max(f.getScore(type_, -1, -1) for type_ in MatrixType)] *)
Definition bestScore (f : AlignmentMatrix) : result Z :=
  a ← getScore f F (-1) (-1);
  b ← getScore f IX (-1) (-1);
  c ← getScore f IY (-1) (-1);
  Ok (max3 a b c).

Fixpoint backtraceFrom (fuel : nat) (first second : EncodedSequence)
    (f : AlignmentMatrix) (i j : Z) (st : bt_state) (current : MatrixType)
    : result bt_state :=
  match fuel with
  | O => Raise OutOfFuel
  | Datatypes.S fuel =>
    if (i =? 0) || (j =? 0) then
      match current with
      | F => Ok (finalize st)
      | _ => Ok st
      end
    else
      let '(m, n) := shape f in
      allDirections ← getDirection f current i j;
      let directions :=
        if fastBacktrace then take 1 allDirections else allDirections in
      c ← getScore f current i j;
      a ← Seq.get first (i - 1);
      b ← Seq.get second (j - 1);
      match current with
      | F =>
          foldM (fun st dir =>
                   p ← getScore f dir (i - 1) (j - 1);
                   with_push a b (c - p)
                     (fun st =>
                        backtraceFrom fuel first second f (i - 1) (j - 1)
                                      st dir) st)
                directions st
      | IX =>
          if i =? m - 1 then
            foldM (fun st dir =>
                     y ← getScore f dir i (j - 1);
                     if c =? y then
                       backtraceFrom fuel first second f i (j - 1) st dir
                     else Ok st)
                  directions st
          else
            foldM (fun st dir =>
                     y ← getScore f dir i (j - 1);
                     with_push (gap (snd st)) b (c - y)
                       (fun st =>
                          backtraceFrom fuel first second f i (j - 1)
                                        st dir) st)
                  directions st
      | IY =>
          if j =? n - 1 then
            foldM (fun st dir =>
                     x ← getScore f dir (i - 1) j;
                     if c =? x then
                       backtraceFrom fuel first second f (i - 1) j st dir
                     else Ok st)
                  directions st
          else
            foldM (fun st dir =>
                     x ← getScore f dir (i - 1) j;
                     with_push a (gap (snd st)) (c - x)
                       (fun st =>
                          backtraceFrom fuel first second f (i - 1) j
                                        st dir) st)
                  directions st
      end
  end.

(** [[type_ for type_ in MatrixType
      if f.getScore(type_, -1, -1) >= self.bestScore(f)]] *)
Definition bestTypes (f : AlignmentMatrix) : result (list MatrixType) :=
  foldM (fun acc type_ =>
           v ← getScore f type_ (-1) (-1);
           best ← bestScore f;
           Ok (if best <=? v then acc ++ [type_] else acc))
        all_types [].

Definition backtrace (first second : EncodedSequence) (f : AlignmentMatrix)
    : result (list SequenceAlignment) :=
  let '(m, n) := shape f in
  let alignments := [] in
  let alignment := emptyAlignment first second in
  types ← bestTypes f;
  st ← foldM (fun st type_ =>
                backtraceFrom (depth (m - 1) (n - 1)) first second f
                              (m - 1) (n - 1) st type_)
             (if fastBacktrace then take 1 types else types)
             (alignments, alignment);
  Ok (fst st).

(** [align(first, second, backtrace=True)] *)
Definition align (first second : EncodedSequence)
    : result (Z * list SequenceAlignment) :=
  f ← computeAlignmentMatrix first second;
  score ← bestScore f;
  alignments ← backtrace first second f;
  Ok (score, alignments).

End Aligner.
End GlobalSequenceAligner.

(** ** The linear-gap global aligner *)

Module StrictGlobalSequenceAligner.
Section Aligner.

Context {S : Type} `{Scoring S}.
Variable scoring : S.
Variable gapScore : Z.
Variable gapExtensionScore : Z.

Import AlignmentMatrix.

(** The body of the double loop of [computeAlignmentMatrix]. *)
Definition fill_cell (first second : EncodedSequence)
    (f : AlignmentMatrix) (i j : Z) : result AlignmentMatrix :=
  (* Match elements. *)
  p ← getScore f F (i - 1) (j - 1);
  a ← Seq.get first (i - 1);
  b ← Seq.get second (j - 1);
  let ab := p + call scoring a b in
  (* Gap on first sequence. *)
  y ← getScore f F i (j - 1);
  let ga := y + gapScore in
  (* Gap on second sequence. *)
  x ← getScore f F (i - 1) j;
  let gb := x + gapScore in
  setScore f F i j (max3 ab ga gb).

Definition computeAlignmentMatrix (first second : EncodedSequence)
    : result AlignmentMatrix :=
  let m := Seq.len first + 1 in
  let n := Seq.len second + 1 in
  let f := AlignmentMatrix.init (m, n) in
  f ← foldM (fun f i =>
               x ← getScore f F (i - 1) 0;
               setScore f F i 0 (x + gapScore))
            (range 1 m) f;
  f ← foldM (fun f j =>
               y ← getScore f F 0 (j - 1);
               setScore f F 0 j (y + gapScore))
            (range 1 n) f;
  foldM (fun f i =>
           foldM (fun f j => fill_cell first second f i j) (range 1 n) f)
        (range 1 m) f.

Definition bestScore (f : AlignmentMatrix) : result Z :=
  getScore f F (-1) (-1).

(** The second and the third [if] block of [backtraceFrom]: neither
    ends in [return].  [a] is bound by the first block when [i != 0],
    [b] by the second when [j != 0]; [descend i j] is the recursive
    call. *)
Definition second_and_third_block
    (descend : Z -> Z -> bt_state -> result bt_state)
    (second : EncodedSequence) (f : AlignmentMatrix) (i j c : Z)
    (a : option Z) (st : bt_state) : result bt_state :=
  '(st, b) ← (if negb (j =? 0) then
                y ← getScore f F i (j - 1);
                b ← Seq.get second (j - 1);
                if c =? y + gapScore then
                  st' ← with_push (gap (snd st)) b (c - y)
                                  (descend i (j - 1)) st;
                  Ok (st', Some b)
                else Ok (st, Some b)
              else Ok (st, None));
  match a, b with
  | Some a, Some b =>
      p ← getScore f F (i - 1) (j - 1);
      if c =? p + call scoring a b then
        with_push a b (c - p) (descend (i - 1) (j - 1)) st
      else Ok st
  | _, _ => Ok st
  end.

(** The first [if] block ends in [return]. *)
Fixpoint backtraceFrom (fuel : nat) (first second : EncodedSequence)
    (f : AlignmentMatrix) (i j : Z) (st : bt_state) : result bt_state :=
  match fuel with
  | O => Raise OutOfFuel
  | Datatypes.S fuel =>
    if (i =? 0) && (j =? 0) then Ok (finalize st)
    else
      c ← getScore f F i j;
      xa ← (if negb (i =? 0) then
              x ← getScore f F (i - 1) j;
              a ← Seq.get first (i - 1);
              Ok (Some (x, a))
            else Ok None);
      let descend := backtraceFrom fuel first second f in
      match xa with
      | Some (x, a) =>
          if c =? x + gapScore then
            with_push a (gap (snd st)) (c - x) (descend (i - 1) j) st
          else second_and_third_block descend second f i j c (Some a) st
      | None => second_and_third_block descend second f i j c None st
      end
  end.

Definition backtrace (first second : EncodedSequence) (f : AlignmentMatrix)
    : result (list SequenceAlignment) :=
  let '(m, n) := shape f in
  let alignments := [] in
  let alignment := emptyAlignment first second in
  st ← backtraceFrom (depth (m - 1) (n - 1)) first second f
                     (m - 1) (n - 1) (alignments, alignment);
  Ok (fst st).

(** [align(first, second, backtrace=True)] *)
Definition align (first second : EncodedSequence)
    : result (Z * list SequenceAlignment) :=
  f ← computeAlignmentMatrix first second;
  score ← bestScore f;
  alignments ← backtrace first second f;
  Ok (score, alignments).

End Aligner.
End StrictGlobalSequenceAligner.

(** ** The affine-gap local aligner *)

(** [sys.maxsize] of a 64-bit CPython. *)
Definition sys_maxsize : Z := 2 ^ 63 - 1.

Module LocalSequenceAligner.
Section Aligner.

Context {S : Type} `{Scoring S} `{GapScoring S}.
Variable scoring : S.
(** [None] when the caller gives no minimum score. *)
Variable minScore : option Z.

Import AlignmentMatrix.

(** [super().__init__(scoring, 0, 0)] *)
Definition gapScore : Z := 0.
Definition gapExtensionScore : Z := 0.

(** The body of the double loop of [computeAlignmentMatrix]. *)
Definition fill_cell (first second : EncodedSequence)
    (f : AlignmentMatrix) (i j : Z) : result AlignmentMatrix :=
  (* Match elements. *)
  prevF ← getScore f F (i - 1) (j - 1);
  prevIx ← getScore f IX (i - 1) (j - 1);
  prevIy ← getScore f IY (i - 1) (j - 1);
  let maxScore := max3 prevF prevIx prevIy in
  let dirAb := tying prevF prevIx prevIy maxScore in
  a ← Seq.get first (i - 1);
  b ← Seq.get second (j - 1);
  f ← setScore f F i j (Z.max 0 (maxScore + call scoring a b));
  f ← setDirection f F i j (if 0 <? maxScore then dirAb else take 1 dirAb);
  (* Gap on sequenceA. *)
  x ← getScore f F i (j - 1);
  b ← Seq.get second (j - 1);
  let prevF := x + gapStart scoring b in
  prevIx ← getScore f IX i (j - 1);
  y ← getScore f IY i (j - 1);
  let prevIy := y + gapStart scoring b in
  let maxScore := max3 prevF prevIx prevIy in
  let dirGa := tying prevF prevIx prevIy maxScore in
  f ← setScore f IX i j (Z.max 0 (maxScore + gapExtension scoring b));
  f ← setDirection f IX i j dirGa;
  (* Gap on sequenceB. *)
  x ← getScore f F (i - 1) j;
  a ← Seq.get first (i - 1);
  let prevF := x + gapStart scoring a in
  y ← getScore f IX (i - 1) j;
  let prevIx := y + gapStart scoring a in
  prevIy ← getScore f IY (i - 1) j;
  let maxScore := max3 prevF prevIx prevIy in
  let dirGb := tying prevF prevIx prevIy maxScore in
  f ← setScore f IY i j (Z.max 0 (maxScore + gapExtension scoring a));
  setDirection f IY i j dirGb.

Definition computeAlignmentMatrix (first second : EncodedSequence)
    : result AlignmentMatrix :=
  let m := Seq.len first + 1 in
  let n := Seq.len second + 1 in
  let f := AlignmentMatrix.init (m, n) in
  let min := - sys_maxsize in
  f ← foldM (fun f i =>
               f ← setScore f F i 0 min;
               f ← setScore f IX i 0 min;
               f ← setScore f IY i 0
                     (Z.max 0 (gapScore + i * gapExtensionScore));
               setDirection f IY i 0 [IY])
            (range 1 m) f;
  f ← foldM (fun f i =>
               f ← setScore f F 0 i min;
               f ← setScore f IX 0 i
                     (Z.max 0 (gapScore + i * gapExtensionScore));
               f ← setScore f IY 0 i min;
               setDirection f IX 0 i [IX])
            (range 1 n) f;
  f ← setScore f IX 0 0 min;
  f ← setScore f IY 0 0 min;
  foldM (fun f i =>
           foldM (fun f j => fill_cell first second f i j) (range 1 n) f)
        (range 1 m) f.

Definition bestScore (f : AlignmentMatrix) : result Z :=
  AlignmentMatrix.max f.

Fixpoint backtraceFrom (fuel : nat) (first second : EncodedSequence)
    (f : AlignmentMatrix) (i j : Z) (st : bt_state) (current : MatrixType)
    : result bt_state :=
  match fuel with
  | O => Raise OutOfFuel
  | Datatypes.S fuel =>
    c0 ← getScore f current i j;
    if c0 =? 0 then Ok (finalize st)
    else
      directions ← getDirection f current i j;
      c ← getScore f current i j;
      a ← Seq.get first (i - 1);
      b ← Seq.get second (j - 1);
      match current with
      | F =>
          foldM (fun st dir =>
                   p ← getScore f dir (i - 1) (j - 1);
                   with_push a b (c - p)
                     (fun st =>
                        backtraceFrom fuel first second f (i - 1) (j - 1)
                                      st dir) st)
                directions st
      | IX =>
          foldM (fun st dir =>
                   y ← getScore f dir i (j - 1);
                   with_push (gap (snd st)) b (c - y)
                     (fun st =>
                        backtraceFrom fuel first second f i (j - 1)
                                      st dir) st)
                directions st
      | IY =>
          foldM (fun st dir =>
                   x ← getScore f dir (i - 1) j;
                   with_push a (gap (snd st)) (c - x)
                     (fun st =>
                        backtraceFrom fuel first second f (i - 1) j
                                      st dir) st)
                directions st
      end
  end.

(** [self.bestScore(f) if self.minScore is None else self.minScore] *)
Definition threshold (f : AlignmentMatrix) : result Z :=
  match minScore with
  | None => bestScore f
  | Some s => Ok s
  end.

Definition backtrace (first second : EncodedSequence) (f : AlignmentMatrix)
    : result (list SequenceAlignment) :=
  let '(m, n) := shape f in
  let alignments := [] in
  let alignment := emptyAlignment first second in
  minScore ← threshold f;
  st ← foldM (fun st i =>
                foldM (fun st j =>
                         v ← getScore f F i j;
                         if minScore <=? v then
                           backtraceFrom (depth i j) first second f i j
                                         st F
                         else Ok st)
                      (range 0 n) st)
             (range 0 m) (alignments, alignment);
  Ok (fst st).

(** [align(first, second, backtrace=True)] *)
Definition align (first second : EncodedSequence)
    : result (Z * list SequenceAlignment) :=
  f ← computeAlignmentMatrix first second;
  score ← bestScore f;
  alignments ← backtrace first second f;
  Ok (score, alignments).

End Aligner.
End LocalSequenceAligner.

(** ** Total views, used to state properties *)

(** The entry at row [i], column [j] of a grid, for [i] and [j] that are
    not negative; [d] outside the grid. *)
Definition cell {A : Type} (d : A) (M : list (list A)) (i j : Z) : A :=
  default d (M !! Z.to_nat i ≫= fun row => row !! Z.to_nat j).

(** The grid after a successful [M[i][j] = x]. *)
Definition upd2 {A : Type} (M : list (list A)) (i j : Z) (x : A)
    : list (list A) :=
  alter (fun row => <[Z.to_nat j := x]> row) (Z.to_nat i) M.

Definition scoreAt (f : AlignmentMatrix) (t : MatrixType) (i j : Z) : Z :=
  cell 0 (pt_get (matrix f) t) i j.

Definition dirAt (f : AlignmentMatrix) (t : MatrixType) (i j : Z)
    : list MatrixType :=
  cell [] (pt_get (direction f) t) i j.

(** The matrix after a successful [setScore], [setDirection]. *)
Definition updS (f : AlignmentMatrix) (t : MatrixType) (i j v : Z)
    : AlignmentMatrix :=
  {| shape := shape f;
     matrix := pt_set (matrix f) t (upd2 (pt_get (matrix f) t) i j v);
     direction := direction f |}.

Definition updD (f : AlignmentMatrix) (t : MatrixType) (i j : Z)
    (d : list MatrixType) : AlignmentMatrix :=
  {| shape := shape f;
     matrix := matrix f;
     direction :=
       pt_set (direction f) t (upd2 (pt_get (direction f) t) i j d) |}.

(** [s[k]] for [0 <= k < len(s)]. *)
Definition elt (s : EncodedSequence) (k : Z) : Z :=
  default 0 (elements s !! Z.to_nat k).

(** A grid of [m] rows of [n] entries. *)
Definition rect {A : Type} (m n : Z) (M : list (list A)) : Prop :=
  length M = Z.to_nat m /\ Forall (fun row => length row = Z.to_nat n) M.

(** A matrix store whose six grids have the shape it records. *)
Definition well_shaped (f : AlignmentMatrix) (m n : Z) : Prop :=
  shape f = (m, n) /\
  forall t, rect m n (pt_get (matrix f) t)
            /\ rect m n (pt_get (direction f) t).

(** The elements of the first and of the second sequence of an
    alignment. *)
Definition first_elements (al : SequenceAlignment) : list Z :=
  elements (first al).

Definition second_elements (al : SequenceAlignment) : list Z :=
  elements (second al).

(** The sum of the per-position scores. *)
Definition sum_scores (l : list Z) : Z := foldr Z.add 0 l.

(** A sequence without its gap sentinels. *)
Definition remove_gaps (g : Z) (l : list Z) : list Z :=
  List.filter (fun e => negb (e =? g)) l.

(** ** Predicates used to state properties *)

(** [f'] has the entries of [f] at [(i, j)], in the three states. *)
Definition same_at (f f' : AlignmentMatrix) (i j : Z) : Prop :=
  forall t, scoreAt f' t i j = scoreAt f t i j
            /\ dirAt f' t i j = dirAt f t i j.

(** The inner cells of an [m] x [n] matrix that the double loop fills
    before it reaches [(i, j)], row by row. *)
Definition before (m n i j i' j' : Z) : Prop :=
  1 <= i' < m /\ 1 <= j' < n /\ (i' < i \/ (i' = i /\ j' < j)).

(** The invariant of the double loop: the cells filled so far satisfy the
    relation [Rec] with their neighbours, the others are as in [f0]. *)
Definition fill_inv (m n : Z) (Rec : AlignmentMatrix -> Z -> Z -> Prop)
    (f0 : AlignmentMatrix) (i j : Z) (f : AlignmentMatrix) : Prop :=
  well_shaped f m n
  /\ (forall i' j', 0 <= i' -> 0 <= j' -> ~ before m n i j i' j' ->
        same_at f0 f i' j')
  /\ (forall i' j', before m n i j i' j' -> Rec f i' j').

(** The recurrence of the affine global fill at an inner cell. *)
Definition global_rec {S : Type} `{Scoring S} `{GapScoring S} (scoring : S)
    (first second : EncodedSequence) (f : AlignmentMatrix) (i j : Z) : Prop :=
  let m := Seq.len first + 1 in
  let n := Seq.len second + 1 in
  let a := elt first (i - 1) in
  let b := elt second (j - 1) in
  let pF := scoreAt f F (i - 1) (j - 1) in
  let pIx := scoreAt f IX (i - 1) (j - 1) in
  let pIy := scoreAt f IY (i - 1) (j - 1) in
  let xF := if i =? m - 1 then scoreAt f F i (j - 1)
            else scoreAt f F i (j - 1) + gapStart scoring b in
  let xIx := scoreAt f IX i (j - 1) in
  let xIy := if i =? m - 1 then scoreAt f IY i (j - 1)
             else scoreAt f IY i (j - 1) + gapStart scoring b in
  let yF := if j =? n - 1 then scoreAt f F (i - 1) j
            else scoreAt f F (i - 1) j + gapStart scoring a in
  let yIx := if j =? n - 1 then scoreAt f IX (i - 1) j
             else scoreAt f IX (i - 1) j + gapStart scoring a in
  let yIy := scoreAt f IY (i - 1) j in
  scoreAt f F i j = max3 pF pIx pIy + call scoring a b
  /\ dirAt f F i j = tying pF pIx pIy (max3 pF pIx pIy)
  /\ scoreAt f IX i j
     = max3 xF xIx xIy + (if i =? m - 1 then 0 else gapExtension scoring b)
  /\ dirAt f IX i j = tying xF xIx xIy (max3 xF xIx xIy)
  /\ scoreAt f IY i j
     = max3 yF yIx yIy + (if j =? n - 1 then 0 else gapExtension scoring a)
  /\ dirAt f IY i j = tying yF yIx yIy (max3 yF yIx yIy).

(** The scores and directions that the local [computeAlignmentMatrix]
    gives to the first row and the first column. *)
Definition local_border_score (t : MatrixType) (i j : Z) : Z :=
  if (i =? 0) && (j =? 0) then
    match t with F => 0 | _ => - sys_maxsize end
  else if j =? 0 then
    match t with IY => 0 | _ => - sys_maxsize end
  else
    match t with IX => 0 | _ => - sys_maxsize end.

Definition local_border_dir (t : MatrixType) (i j : Z) : list MatrixType :=
  if (i =? 0) && (j =? 0) then []
  else if j =? 0 then
    match t with IY => [IY] | _ => [] end
  else
    match t with IX => [IX] | _ => [] end.

(** The recurrence of the affine local fill at an inner cell. *)
Definition local_rec {S : Type} `{Scoring S} `{GapScoring S} (scoring : S)
    (first second : EncodedSequence) (f : AlignmentMatrix) (i j : Z) : Prop :=
  let a := elt first (i - 1) in
  let b := elt second (j - 1) in
  let pF := scoreAt f F (i - 1) (j - 1) in
  let pIx := scoreAt f IX (i - 1) (j - 1) in
  let pIy := scoreAt f IY (i - 1) (j - 1) in
  let xF := scoreAt f F i (j - 1) + gapStart scoring b in
  let xIx := scoreAt f IX i (j - 1) in
  let xIy := scoreAt f IY i (j - 1) + gapStart scoring b in
  let yF := scoreAt f F (i - 1) j + gapStart scoring a in
  let yIx := scoreAt f IX (i - 1) j + gapStart scoring a in
  let yIy := scoreAt f IY (i - 1) j in
  scoreAt f F i j = Z.max 0 (max3 pF pIx pIy + call scoring a b)
  /\ dirAt f F i j
     = (if 0 <? max3 pF pIx pIy
        then tying pF pIx pIy (max3 pF pIx pIy)
        else take 1 (tying pF pIx pIy (max3 pF pIx pIy)))
  /\ scoreAt f IX i j = Z.max 0 (max3 xF xIx xIy + gapExtension scoring b)
  /\ dirAt f IX i j = tying xF xIx xIy (max3 xF xIx xIy)
  /\ scoreAt f IY i j = Z.max 0 (max3 yF yIx yIy + gapExtension scoring a)
  /\ dirAt f IY i j = tying yF yIx yIy (max3 yF yIx yIy).

(** The first column of the local matrix after the first loop has run up
    to row [k], and the first row after the second loop has run up to
    column [k]. *)
Definition local_column_inv (m n k : Z) (f : AlignmentMatrix) : Prop :=
  well_shaped f m n
  /\ forall t i j, 0 <= i -> 0 <= j ->
       if decide (1 <= i < k /\ j = 0)
       then scoreAt f t i j = local_border_score t i j
            /\ dirAt f t i j = local_border_dir t i j
       else scoreAt f t i j = scoreAt (AlignmentMatrix.init (m, n)) t i j
            /\ dirAt f t i j = dirAt (AlignmentMatrix.init (m, n)) t i j.

Definition local_row_inv (m n k : Z) (f : AlignmentMatrix) : Prop :=
  well_shaped f m n
  /\ forall t i j, 0 <= i -> 0 <= j ->
       if decide ((1 <= i < m /\ j = 0) \/ (i = 0 /\ 1 <= j < k))
       then scoreAt f t i j = local_border_score t i j
            /\ dirAt f t i j = local_border_dir t i j
       else scoreAt f t i j = scoreAt (AlignmentMatrix.init (m, n)) t i j
            /\ dirAt f t i j = dirAt (AlignmentMatrix.init (m, n)) t i j.

(** The recurrence of the linear-gap fill at an inner cell. *)
Definition strict_rec {S : Type} `{Scoring S} (scoring : S) (gapScore : Z)
    (first second : EncodedSequence) (f : AlignmentMatrix) (i j : Z) : Prop :=
  scoreAt f F i j
  = max3 (scoreAt f F (i - 1) (j - 1)
          + call scoring (elt first (i - 1)) (elt second (j - 1)))
         (scoreAt f F i (j - 1) + gapScore)
         (scoreAt f F (i - 1) j + gapScore).

(** The first column of the linear-gap matrix after the first loop has
    run up to row [k], and the first row after the second loop has run up
    to column [k]. *)
Definition strict_column_inv (gapScore m n k : Z) (f : AlignmentMatrix)
    : Prop :=
  well_shaped f m n
  /\ forall t i j, 0 <= i -> 0 <= j ->
       dirAt f t i j = dirAt (AlignmentMatrix.init (m, n)) t i j
       /\ if decide (t = F /\ 1 <= i < k /\ j = 0)
          then scoreAt f t i j = i * gapScore
          else scoreAt f t i j
               = scoreAt (AlignmentMatrix.init (m, n)) t i j.

Definition strict_row_inv (gapScore m n k : Z) (f : AlignmentMatrix)
    : Prop :=
  well_shaped f m n
  /\ forall t i j, 0 <= i -> 0 <= j ->
       dirAt f t i j = dirAt (AlignmentMatrix.init (m, n)) t i j
       /\ if decide (t = F /\ ((1 <= i < m /\ j = 0)
                               \/ (i = 0 /\ 1 <= j < k)))
          then scoreAt f t i j = (i + j) * gapScore
          else scoreAt f t i j
               = scoreAt (AlignmentMatrix.init (m, n)) t i j.

(** ** Descents of a backtrace *)

(** One column of an alignment: the two elements and the score pushed with
    them. *)
Definition column : Type := Z * Z * Z.

Definition col_first (c : column) : Z := fst (fst c).
Definition col_second (c : column) : Z := snd (fst c).
Definition col_score (c : column) : Z := snd c.

(** The accumulator after the columns [cols] have been pushed, in order. *)
Definition push_all (al : SequenceAlignment) (cols : list column)
    : SequenceAlignment :=
  foldl (fun al c =>
           SequenceAlignment.push al (col_first c) (col_second c)
                                  (col_score c))
        al cols.

(** A descent only appends to the result list: what it appends does not
    depend on the alignments found before. *)
Definition appends (d : bt_state -> result bt_state) : Prop :=
  forall als al,
    d (als, al) = (r ← d ([], al); Ok (als ++ fst r, snd r)).

(** A descent gives the accumulator back as it got it, and every
    alignment [x] it appends is the reversed accumulator after some
    columns [cols], with [P al cols]. *)
Definition traced (P : SequenceAlignment -> list column -> Prop)
    (d : bt_state -> result bt_state) : Prop :=
  forall al new al',
    d ([], al) = Ok (new, al') ->
    al' = al
    /\ Forall (fun x => exists cols,
                 x = SequenceAlignment.reversed (push_all al cols)
                 /\ P al cols) new.

Definition descent (P : SequenceAlignment -> list column -> Prop)
    (d : bt_state -> result bt_state) : Prop :=
  appends d /\ traced P d.

(** A descent that raises no exception. *)
Definition total (d : bt_state -> result bt_state) : Prop :=
  forall st, exists r, d st = Ok r.

(** A descent that raises nothing and appends at least one alignment. *)
Definition fruitful (d : bt_state -> result bt_state) : Prop :=
  forall st, exists new, d st = Ok (fst st ++ new, snd st) /\ new <> [].

Definition any_columns (al : SequenceAlignment) (cols : list column) : Prop :=
  True.

Definition some_columns (al : SequenceAlignment) (cols : list column) : Prop :=
  cols <> [].

(** The columns of a descent from [(i, j)] hold, gaps apart, the first [i]
    elements of [first] and the first [j] elements of [second], last
    element first. *)
Definition covers (first second : EncodedSequence) (i j : Z)
    (al : SequenceAlignment) (cols : list column) : Prop :=
  gap al ∉ elements first -> gap al ∉ elements second ->
  remove_gaps (gap al) (map col_first cols)
    = reverse (take (Z.to_nat i) (elements first))
  /\ remove_gaps (gap al) (map col_second cols)
    = reverse (take (Z.to_nat j) (elements second)).

(** The body of the double loop of the local [backtrace] at the cell
    [c], for the threshold [thr]. *)
Definition local_start (first second : EncodedSequence)
    (f : AlignmentMatrix) (thr : Z) (st : bt_state) (c : Z * Z)
    : result bt_state :=
  v ← AlignmentMatrix.getScore f F (fst c) (snd c);
  if thr <=? v
  then LocalSequenceAligner.backtraceFrom (depth (fst c) (snd c))
         first second f (fst c) (snd c) st F
  else Ok st.

(** The cells of an [m] x [n] matrix, row by row. *)
Definition cells (m n : Z) : list (Z * Z) :=
  i ← range 0 m; (fun j => (i, j)) <$> range 0 n.

(** The scores of the columns [cols] sum to [c]; to at least [c]. *)
Definition sums_to (c : Z) (al : SequenceAlignment) (cols : list column)
    : Prop :=
  sum_scores (map col_score cols) = c.

Definition sums_to_at_least (c : Z) (al : SequenceAlignment)
    (cols : list column) : Prop :=
  c <= sum_scores (map col_score cols).

(** A descent that appends at most one alignment and gives the
    accumulator back. *)
Definition single (d : bt_state -> result bt_state) : Prop :=
  forall st r, d st = Ok r ->
    exists new, r = (fst st ++ new, snd st) /\ (length new <= 1)%nat.

(** An accumulator whose two sequences and score list have [k] entries
    each and whose counters are consistent with [k] columns. *)
Definition balanced (k : nat) (al : SequenceAlignment) : Prop :=
  length (elements (first al)) = k
  /\ length (elements (second al)) = k
  /\ length (scores al) = k
  /\ gapCount al + preservedCount al = Z.of_nat k
  /\ 0 <= gapCount al /\ 0 <= preservedCount al
  /\ 0 <= identicalCount al <= Z.of_nat k
  /\ 0 <= similarCount al <= Z.of_nat k.

(** The five percentage metrics of an alignment all return a value. *)
Definition metrics_defined (al : SequenceAlignment) : Prop :=
  exists p1 p2 p3 p4 p5,
    SequenceAlignment.percentIdentity al = Ok p1
    /\ SequenceAlignment.percentPreservedIdentity al = Ok p2
    /\ SequenceAlignment.percentSimilarity al = Ok p3
    /\ SequenceAlignment.percentPreservedSimilarity al = Ok p4
    /\ SequenceAlignment.percentGap al = Ok p5.

(** [x] is the reversed accumulator after the columns [cols] were pushed
    on the empty alignment of [s1] and [s2]. *)
Definition trace_of (s1 s2 : EncodedSequence) (cols : list column)
    (x : SequenceAlignment) : Prop :=
  x = SequenceAlignment.reversed (push_all (emptyAlignment s1 s2) cols).

(** [k] calls of [pop] in a row, with the pairs they return, in the order
    of the calls. *)
Fixpoint pop_times (k : nat) (al : SequenceAlignment)
    : result (list (Z * Z) * SequenceAlignment) :=
  match k with
  | O => Ok ([], al)
  | Datatypes.S k =>
      '(p, al) ← SequenceAlignment.pop al;
      '(ps, al) ← pop_times k al;
      Ok (p :: ps, al)
  end.

(** A matrix store whose gap states and directions are those of a new
    store: every direction list is empty and every IX and IY score is 0. *)
Definition gap_states_unused (m n : Z) (f : AlignmentMatrix) : Prop :=
  well_shaped f m n
  /\ forall t i j, 0 <= i < m -> 0 <= j < n ->
       dirAt f t i j = [] /\ (t <> F -> scoreAt f t i j = 0).

(** The columns of a descent never pair the gap code with itself, when
    the two inputs do not hold it. *)
Definition no_double_gap (first second : EncodedSequence)
    (al : SequenceAlignment) (cols : list column) : Prop :=
  gap al ∉ elements first -> gap al ∉ elements second ->
  Forall (fun c => col_first c <> gap al \/ col_second c <> gap al) cols.

(** No position of the alignment holds the gap code in both sequences. *)
Definition never_two_gaps (al : SequenceAlignment) : Prop :=
  forall k a b,
    first_elements al !! k = Some a -> second_elements al !! k = Some b ->
    a <> gap al \/ b <> gap al.

(** ** Traces of a backtrace *)

(** Following the spec: a trace is the path of one descent through the
    matrix.  It records the cells, with their states, that the descent
    passes, the cell and state where it ends, and the columns that are
    pushed on the way, in the order of the pushes. *)
Definition cell_state : Type := Z * Z * MatrixType.

Record trace : Type := mkTrace {
  t_passed : list cell_state;
  t_end : cell_state;
  t_cols : list column
}.

(** The trace that ends where it starts. *)
Definition stop_at (c : cell_state) : trace := mkTrace [] c [].

(** The trace [t] entered from the cell [c] by a move that pushes the
    column [col]; by a move that pushes nothing. *)
Definition move_with (c : cell_state) (col : column) (t : trace) : trace :=
  mkTrace (c :: t_passed t) (t_end t) (col :: t_cols t).

Definition move_free (c : cell_state) (t : trace) : trace :=
  mkTrace (c :: t_passed t) (t_end t) (t_cols t).

(** The state in which a trace ends is [s]. *)
Definition ends_in (s : MatrixType) (t : trace) : bool :=
  bool_decide (snd (t_end t) = s).

Definition on_border (c : cell_state) : Prop :=
  fst (fst c) = 0 \/ snd (fst c) = 0.

(** The alignment that a trace stands for, when the accumulator was [al]
    at its start. *)
Definition reported (al : SequenceAlignment) (t : trace)
    : SequenceAlignment :=
  SequenceAlignment.reversed (push_all al (t_cols t)).

(** The traces of [body x] for the [x] of [l], in order. *)
Definition collect {X : Type} (body : X -> result (list trace))
    (l : list X) : result (list trace) :=
  foldM (fun acc x => ts ← body x; Ok (acc ++ ts)) l [].

(** Following the spec: the traces of the affine global backtrace from
    the cell [(i, j)] in the state [current], whatever their last state.
    A trace ends at the first cell of the first row or the first column;
    elsewhere it follows each stored direction ([g] is the gap code). *)
Fixpoint global_traces (fastBacktrace : bool) (g : Z) (fuel : nat)
    (first second : EncodedSequence) (f : AlignmentMatrix) (i j : Z)
    (current : MatrixType) : result (list trace) :=
  match fuel with
  | O => Raise OutOfFuel
  | Datatypes.S fuel =>
    if (i =? 0) || (j =? 0) then Ok [stop_at (i, j, current)]
    else
      let '(m, n) := shape f in
      allDirections ← AlignmentMatrix.getDirection f current i j;
      let directions :=
        if fastBacktrace then take 1 allDirections else allDirections in
      c ← AlignmentMatrix.getScore f current i j;
      a ← Seq.get first (i - 1);
      b ← Seq.get second (j - 1);
      let here := (i, j, current) in
      let rec := global_traces fastBacktrace g fuel first second f in
      match current with
      | F =>
          collect (fun dir =>
                     p ← AlignmentMatrix.getScore f dir (i - 1) (j - 1);
                     ts ← rec (i - 1) (j - 1) dir;
                     Ok (map (move_with here (a, b, c - p)) ts))
                  directions
      | IX =>
          if i =? m - 1 then
            collect (fun dir =>
                       y ← AlignmentMatrix.getScore f dir i (j - 1);
                       if c =? y then
                         ts ← rec i (j - 1) dir;
                         Ok (map (move_free here) ts)
                       else Ok [])
                    directions
          else
            collect (fun dir =>
                       y ← AlignmentMatrix.getScore f dir i (j - 1);
                       ts ← rec i (j - 1) dir;
                       Ok (map (move_with here (g, b, c - y)) ts))
                    directions
      | IY =>
          if j =? n - 1 then
            collect (fun dir =>
                       x ← AlignmentMatrix.getScore f dir (i - 1) j;
                       if c =? x then
                         ts ← rec (i - 1) j dir;
                         Ok (map (move_free here) ts)
                       else Ok [])
                    directions
          else
            collect (fun dir =>
                       x ← AlignmentMatrix.getScore f dir (i - 1) j;
                       ts ← rec (i - 1) j dir;
                       Ok (map (move_with here (a, g, c - x)) ts))
                    directions
      end
  end.

(** Following the spec: the traces of the affine local backtrace from the
    cell [(i, j)] in the state [current].  A trace ends at the first cell
    whose score is 0; elsewhere it follows each stored direction. *)
Fixpoint local_traces (g : Z) (fuel : nat)
    (first second : EncodedSequence) (f : AlignmentMatrix) (i j : Z)
    (current : MatrixType) : result (list trace) :=
  match fuel with
  | O => Raise OutOfFuel
  | Datatypes.S fuel =>
    c0 ← AlignmentMatrix.getScore f current i j;
    if c0 =? 0 then Ok [stop_at (i, j, current)]
    else
      directions ← AlignmentMatrix.getDirection f current i j;
      c ← AlignmentMatrix.getScore f current i j;
      a ← Seq.get first (i - 1);
      b ← Seq.get second (j - 1);
      let here := (i, j, current) in
      let rec := local_traces g fuel first second f in
      match current with
      | F =>
          collect (fun dir =>
                     p ← AlignmentMatrix.getScore f dir (i - 1) (j - 1);
                     ts ← rec (i - 1) (j - 1) dir;
                     Ok (map (move_with here (a, b, c - p)) ts))
                  directions
      | IX =>
          collect (fun dir =>
                     y ← AlignmentMatrix.getScore f dir i (j - 1);
                     ts ← rec i (j - 1) dir;
                     Ok (map (move_with here (g, b, c - y)) ts))
                  directions
      | IY =>
          collect (fun dir =>
                     x ← AlignmentMatrix.getScore f dir (i - 1) j;
                     ts ← rec (i - 1) j dir;
                     Ok (map (move_with here (a, g, c - x)) ts))
                  directions
      end
  end.

(** The descent [d] appends, for the traces that [T] lists and [keep]
    selects, the alignment of each, in order, and gives the accumulator
    back; it raises what [T] raises. *)
Definition reports (keep : trace -> bool)
    (d : bt_state -> result bt_state) (T : Z -> result (list trace))
    : Prop :=
  forall st,
    d st = (ts ← T (gap (snd st));
            Ok (fst st ++ map (reported (snd st)) (filter keep ts), snd st)).

(** A trace that starts at [c]. *)
Definition starts_at (c : cell_state) (t : trace) : Prop :=
  hd (t_end t) (t_passed t) = c.

(** What a global trace is: it starts at the cell it is asked from,
    passes only cells off the first row and the first column, and ends
    at a cell of the first row or the first column. *)
Definition global_trace_ok (start : cell_state) (t : trace) : Prop :=
  starts_at start t
  /\ Forall (fun c => ~ on_border c) (t_passed t)
  /\ on_border (t_end t).

(** The score that the matrix holds for a cell in its state. *)
Definition score_of (f : AlignmentMatrix) (c : cell_state) : result Z :=
  AlignmentMatrix.getScore f (snd c) (fst (fst c)) (snd (fst c)).

(** What a local trace is: it starts at the cell it is asked from, passes
    only cells whose score is not 0, pushing one column at each, and ends
    at a cell whose score is 0. *)
Definition local_trace_ok (f : AlignmentMatrix) (start : cell_state)
    (t : trace) : Prop :=
  starts_at start t
  /\ Forall (fun c => exists v, score_of f c = Ok v /\ v <> 0) (t_passed t)
  /\ score_of f (t_end t) = Ok 0
  /\ length (t_cols t) = length (t_passed t).

(** [l[a:b]], for [0 <= a] and [0 <= b]. *)
Definition slice (l : list Z) (a b : Z) : list Z :=
  drop (Z.to_nat a) (take (Z.to_nat b) l).

(** The columns of a descent from [(i, j)] hold, gaps apart, the elements
    [first[i0:i1]] and [second[j0:j1]], last element first, for some
    [i0 <= i1 <= i] and [j0 <= j1 <= j].  With [bd] the descent ends on
    the first row or the first column and reaches [i] or [j]; [fi] and
    [fj] tell whether the end of [first[:i]], of [second[:j]], may be
    left out. *)
Definition part_of (bd fi fj : bool) (first second : EncodedSequence)
    (i j : Z) (al : SequenceAlignment) (cols : list column) : Prop :=
  gap al ∉ elements first -> gap al ∉ elements second ->
  exists i0 i1 j0 j1,
    (0 <= i0 <= i1 /\ i1 <= i) /\ (0 <= j0 <= j1 /\ j1 <= j)
    /\ (bd = true -> i0 = 0 \/ j0 = 0)
    /\ (fi = false -> i1 = i) /\ (fj = false -> j1 = j)
    /\ (bd = true -> i1 = i \/ j1 = j)
    /\ remove_gaps (gap al) (map col_first cols)
       = reverse (slice (elements first) i0 i1)
    /\ remove_gaps (gap al) (map col_second cols)
       = reverse (slice (elements second) j0 j1).

(** Gaps apart, the alignment holds a contiguous part of each input:
    [first[i0:i1]] and [second[j0:j1]].  With [ends] the parts start at
    the beginning of one input at least, and reach the end of one input
    at least. *)
Definition aligns_parts (ends : bool) (first second : EncodedSequence)
    (al : SequenceAlignment) : Prop :=
  exists i0 i1 j0 j1,
    (0 <= i0 <= i1 /\ i1 <= Seq.len first)
    /\ (0 <= j0 <= j1 /\ j1 <= Seq.len second)
    /\ (ends = true ->
        (i0 = 0 \/ j0 = 0) /\ (i1 = Seq.len first \/ j1 = Seq.len second))
    /\ remove_gaps GAP_CODE (first_elements al)
       = slice (elements first) i0 i1
    /\ remove_gaps GAP_CODE (second_elements al)
       = slice (elements second) j0 j1.

(** ** Basic facts *)

Lemma list_pop_snoc {A : Type} (l : list A) (x : A) :
  list_pop (l ++ [x]) = Ok (x, l).
Proof.
  unfold list_pop. rewrite reverse_snoc. by rewrite reverse_involutive.
Qed.

Lemma Seq_pop_push (s : EncodedSequence) (e : Z) :
  Seq.pop (Seq.push s e) = Ok (e, s).
Proof.
  destruct s as [els i]. unfold Seq.pop, Seq.push; cbn.
  by rewrite list_pop_snoc.
Qed.

Lemma pop_push (self : SequenceAlignment) (a b s : Z) :
  SequenceAlignment.pop (SequenceAlignment.push self a b s)
  = Ok ((a, b), self).
Proof.
  destruct self as [fs sn g scs sc ic smc gc pc].
  unfold SequenceAlignment.pop, SequenceAlignment.push; cbn.
  rewrite !Seq_pop_push; cbn.
  rewrite list_pop_snoc; cbn.
  do 2 f_equal. f_equal.
  - lia.
  - destruct (a =? b); lia.
  - destruct (0 <? s); lia.
  - destruct ((a =? g) || (b =? g)); lia.
  - destruct ((a =? g) || (b =? g)); lia.
Qed.

(** ** The result monad *)

Lemma bind_Ok_inv {A B : Type} (m : result A) (k : A -> result B) (y : B) :
  m ≫= k = Ok y -> exists x, m = Ok x /\ k x = Ok y.
Proof. destruct m as [x|e]; cbn; [eauto | discriminate]. Qed.

Lemma foldM_app {S X : Type} (body : S -> X -> result S) (l1 l2 : list X)
    (s : S) :
  foldM body (l1 ++ l2) s = foldM body l1 s ≫= foldM body l2.
Proof.
  revert s. induction l1 as [|x l1 IH]; intros s; cbn; [done|].
  destruct (body s x) as [s'|e]; cbn; [apply IH | done].
Qed.

Lemma range_nil (a b : Z) : b <= a -> range a b = [].
Proof. intros Hab. unfold range, seqZ. by replace (Z.to_nat (b - a)) with 0%nat by lia. Qed.

Lemma range_cons (a b : Z) : a < b -> range a b = a :: range (a + 1) b.
Proof.
  intros Hab. unfold range. rewrite seqZ_cons by lia.
  f_equal. f_equal; lia.
Qed.

(** A loop over [range(a, b)] that keeps an invariant. *)
Lemma foldM_range_inv {S : Type} (P : Z -> S -> Prop)
    (body : S -> Z -> result S) (a b : Z) (s : S) :
  a <= b ->
  P a s ->
  (forall k s, a <= k < b -> P k s ->
     exists s', body s k = Ok s' /\ P (k + 1) s') ->
  exists s', foldM body (range a b) s = Ok s' /\ P b s'.
Proof.
  intros Hab HP Hstep.
  remember (Z.to_nat (b - a)) as d eqn:Hd.
  revert a s Hab HP Hstep Hd.
  induction d as [|d IH]; intros a s Hab HP Hstep Hd.
  - assert (a = b) as -> by lia. rewrite range_nil by lia. cbn. eauto.
  - rewrite range_cons by lia. cbn.
    destruct (Hstep a s) as (s1 & -> & HP1); [lia | done |]. cbn.
    apply IH; [lia | done | | lia].
    intros k s2 Hk. apply Hstep. lia.
Qed.

(** ** Python indexing *)

Lemma py_norm_nonneg (len k : Z) :
  0 <= k < len -> py_norm len k = Some (Z.to_nat k).
Proof.
  intros Hk. unfold py_norm.
  destruct (Z.leb_spec 0 k), (Z.ltb_spec k len); try lia. done.
Qed.

Lemma py_norm_neg (len k : Z) :
  - len <= k < 0 -> py_norm len k = Some (Z.to_nat (len + k)).
Proof.
  intros Hk. unfold py_norm.
  destruct (Z.leb_spec 0 k); [lia|]. cbn.
  destruct (Z.ltb_spec k 0), (Z.leb_spec (- len) k); try lia. done.
Qed.

Lemma py_get_nonneg {A : Type} (l : list A) (k : Z) (x : A) :
  0 <= k -> l !! Z.to_nat k = Some x -> py_get l k = Ok x.
Proof.
  intros Hk Hx. unfold py_get.
  apply lookup_lt_Some in Hx as Hlt.
  rewrite py_norm_nonneg by lia. by rewrite Hx.
Qed.

Lemma py_get_last {A : Type} (l : list A) (x : A) :
  l !! (length l - 1)%nat = Some x -> py_get l (-1) = Ok x.
Proof.
  intros Hx. unfold py_get.
  apply lookup_lt_Some in Hx as Hlt.
  rewrite py_norm_neg by lia.
  replace (Z.to_nat (Z.of_nat (length l) + -1)) with (length l - 1)%nat by lia.
  by rewrite Hx.
Qed.

Lemma py_set_nonneg {A : Type} (l : list A) (k : Z) (x : A) :
  0 <= k < Z.of_nat (length l) -> py_set l k x = Ok (<[Z.to_nat k := x]> l).
Proof. intros Hk. unfold py_set. by rewrite py_norm_nonneg. Qed.

Lemma Seq_get_elt (s : EncodedSequence) (k : Z) :
  0 <= k < Seq.len s -> Seq.get s k = Ok (elt s k).
Proof.
  unfold Seq.len, Seq.get, elt. intros Hk.
  destruct (lookup_lt_is_Some_2 (elements s) (Z.to_nat k)) as [x Hx]; [lia|].
  rewrite Hx. cbn. by apply py_get_nonneg; [lia|].
Qed.

(** ** Grids *)

Section Grid.

Context {A : Type}.
Implicit Types (M : list (list A)) (d x : A).

Lemma rect_make_matrix (m n : Z) x : rect m n (make_matrix (m, n) x).
Proof.
  unfold rect, make_matrix. split.
  - by rewrite length_replicate.
  - apply Forall_replicate. by rewrite length_replicate.
Qed.

Lemma cell_make_matrix d (m n i j : Z) x :
  0 <= i < m -> 0 <= j < n -> cell d (make_matrix (m, n) x) i j = x.
Proof.
  intros Hi Hj. unfold cell, make_matrix.
  rewrite lookup_replicate_2 by lia. cbn.
  by rewrite lookup_replicate_2 by lia.
Qed.

Lemma rect_row (m n : Z) M (k : nat) row :
  rect m n M -> M !! k = Some row -> length row = Z.to_nat n.
Proof.
  intros [_ HM] Hk. rewrite Forall_lookup in HM. by apply (HM k).
Qed.

Lemma rect_lookup (m n i j : Z) M :
  rect m n M -> 0 <= i < m -> 0 <= j < n ->
  exists row x, M !! Z.to_nat i = Some row /\ row !! Z.to_nat j = Some x.
Proof.
  intros HM Hi Hj.
  destruct (lookup_lt_is_Some_2 M (Z.to_nat i)) as [row Hrow].
  { destruct HM as [-> _]. lia. }
  destruct (lookup_lt_is_Some_2 row (Z.to_nat j)) as [x Hx].
  { rewrite (rect_row _ _ _ _ _ HM Hrow). lia. }
  eauto.
Qed.

Lemma get2_ok d (m n i j : Z) M :
  rect m n M -> 0 <= i < m -> 0 <= j < n ->
  AlignmentMatrix.get2 M i j = Ok (cell d M i j).
Proof.
  intros HM Hi Hj.
  destruct (rect_lookup _ _ _ _ _ HM Hi Hj) as (row & x & Hrow & Hx).
  unfold AlignmentMatrix.get2, cell.
  rewrite (py_get_nonneg _ _ _ (proj1 Hi) Hrow). cbn.
  rewrite Hrow. cbn. rewrite Hx. cbn.
  by apply py_get_nonneg; [lia|].
Qed.

Lemma get2_last d (m n : Z) M :
  rect m n M -> 1 <= m -> 1 <= n ->
  AlignmentMatrix.get2 M (-1) (-1) = Ok (cell d M (m - 1) (n - 1)).
Proof.
  intros HM Hm Hn.
  destruct (rect_lookup _ _ (m - 1) (n - 1) _ HM) as (row & x & Hrow & Hx);
    [lia | lia |].
  unfold AlignmentMatrix.get2, cell. rewrite Hrow. cbn. rewrite Hx. cbn.
  pose proof (rect_row _ _ _ _ _ HM Hrow) as Hlen.
  destruct HM as [HlenM _].
  rewrite (py_get_last M row).
  2:{ rewrite <- Hrow. f_equal. lia. }
  cbn. apply py_get_last. rewrite <- Hx. f_equal. lia.
Qed.

Lemma set2_ok (m n i j : Z) M x :
  rect m n M -> 0 <= i < m -> 0 <= j < n ->
  AlignmentMatrix.set2 M i j x = Ok (upd2 M i j x).
Proof.
  intros HM Hi Hj.
  destruct (rect_lookup _ _ _ _ _ HM Hi Hj) as (row & y & Hrow & Hy).
  unfold AlignmentMatrix.set2, upd2.
  rewrite (py_get_nonneg _ _ _ (proj1 Hi) Hrow). cbn.
  rewrite py_set_nonneg.
  2:{ rewrite (rect_row _ _ _ _ _ HM Hrow). lia. }
  cbn. rewrite py_set_nonneg.
  2:{ destruct HM as [-> _]. lia. }
  f_equal. apply list_eq. intros k.
  destruct (decide (k = Z.to_nat i)) as [->|Hne].
  - rewrite list_lookup_insert_eq by (by eapply lookup_lt_Some).
    rewrite list_lookup_alter_eq. by rewrite Hrow.
  - rewrite list_lookup_insert_ne by done.
    by rewrite list_lookup_alter_ne by done.
Qed.

Lemma rect_upd2 (m n i j : Z) M x : rect m n M -> rect m n (upd2 M i j x).
Proof.
  intros [Hlen Hrows]. unfold upd2. split.
  - by rewrite length_alter.
  - apply Forall_alter; [done|]. intros row _ Hr. by rewrite length_insert.
Qed.

Lemma cell_upd2_eq d (m n i j : Z) M x :
  rect m n M -> 0 <= i < m -> 0 <= j < n -> cell d (upd2 M i j x) i j = x.
Proof.
  intros HM Hi Hj.
  destruct (rect_lookup _ _ _ _ _ HM Hi Hj) as (row & y & Hrow & Hy).
  unfold cell, upd2. rewrite list_lookup_alter_eq, Hrow. cbn.
  by rewrite list_lookup_insert_eq by (by eapply lookup_lt_Some).
Qed.

Lemma cell_upd2_ne d (i j i' j' : Z) M x :
  0 <= i -> 0 <= j -> 0 <= i' -> 0 <= j' -> i <> i' \/ j <> j' ->
  cell d (upd2 M i j x) i' j' = cell d M i' j'.
Proof.
  intros Hi Hj Hi' Hj' Hne. unfold cell, upd2.
  destruct (decide (Z.to_nat i = Z.to_nat i')) as [Heq|Hni].
  - rewrite <- Heq, list_lookup_alter_eq.
    destruct (M !! Z.to_nat i) as [row|]; cbn; [|done].
    rewrite list_lookup_insert_ne by lia. done.
  - by rewrite list_lookup_alter_ne by done.
Qed.

End Grid.

(** ** The matrix store *)

Lemma pt_get_set_eq {A : Type} (d : PerType A) (t : MatrixType) (x : A) :
  pt_get (pt_set d t x) t = x.
Proof. by destruct t. Qed.

Lemma pt_get_set_ne {A : Type} (d : PerType A) (t t' : MatrixType) (x : A) :
  t <> t' -> pt_get (pt_set d t x) t' = pt_get d t'.
Proof. by destruct t, t'. Qed.

Lemma well_shaped_init (m n : Z) : well_shaped (AlignmentMatrix.init (m, n)) m n.
Proof.
  split; [done|]. intros t. destruct t; cbn; split; apply rect_make_matrix.
Qed.

Lemma scoreAt_init (m n : Z) (t : MatrixType) (i j : Z) :
  0 <= i < m -> 0 <= j < n -> scoreAt (AlignmentMatrix.init (m, n)) t i j = 0.
Proof.
  intros Hi Hj. unfold scoreAt. destruct t; cbn; by apply cell_make_matrix.
Qed.

Lemma dirAt_init (m n : Z) (t : MatrixType) (i j : Z) :
  0 <= i < m -> 0 <= j < n -> dirAt (AlignmentMatrix.init (m, n)) t i j = [].
Proof.
  intros Hi Hj. unfold dirAt. destruct t; cbn; by apply cell_make_matrix.
Qed.

Section Store.

Variables (f : AlignmentMatrix) (m n : Z).
Hypothesis Hf : well_shaped f m n.

Lemma getScore_ok (t : MatrixType) (i j : Z) :
  0 <= i < m -> 0 <= j < n ->
  AlignmentMatrix.getScore f t i j = Ok (scoreAt f t i j).
Proof. intros. eapply get2_ok; [apply Hf | done | done]. Qed.

Lemma getDirection_ok (t : MatrixType) (i j : Z) :
  0 <= i < m -> 0 <= j < n ->
  AlignmentMatrix.getDirection f t i j = Ok (dirAt f t i j).
Proof. intros. eapply get2_ok; [apply Hf | done | done]. Qed.

Lemma getScore_last (t : MatrixType) :
  1 <= m -> 1 <= n ->
  AlignmentMatrix.getScore f t (-1) (-1) = Ok (scoreAt f t (m - 1) (n - 1)).
Proof. intros. eapply get2_last; [apply Hf | done | done]. Qed.

Lemma setScore_ok (t : MatrixType) (i j v : Z) :
  0 <= i < m -> 0 <= j < n ->
  AlignmentMatrix.setScore f t i j v = Ok (updS f t i j v).
Proof.
  intros. unfold AlignmentMatrix.setScore.
  erewrite set2_ok; [done | apply Hf | done | done].
Qed.

Lemma setDirection_ok (t : MatrixType) (i j : Z) (d : list MatrixType) :
  0 <= i < m -> 0 <= j < n ->
  AlignmentMatrix.setDirection f t i j d = Ok (updD f t i j d).
Proof.
  intros. unfold AlignmentMatrix.setDirection.
  erewrite set2_ok; [done | apply Hf | done | done].
Qed.

Lemma well_shaped_updS (t : MatrixType) (i j v : Z) :
  well_shaped (updS f t i j v) m n.
Proof.
  destruct Hf as [Hs Hg]. split; [done|]. intros t'. cbn.
  split; [|apply Hg].
  destruct (decide (t = t')) as [<-|Hne].
  - rewrite pt_get_set_eq. apply rect_upd2, Hg.
  - rewrite pt_get_set_ne by done. apply Hg.
Qed.

Lemma well_shaped_updD (t : MatrixType) (i j : Z) (d : list MatrixType) :
  well_shaped (updD f t i j d) m n.
Proof.
  destruct Hf as [Hs Hg]. split; [done|]. intros t'. cbn.
  split; [apply Hg|].
  destruct (decide (t = t')) as [<-|Hne].
  - rewrite pt_get_set_eq. apply rect_upd2, Hg.
  - rewrite pt_get_set_ne by done. apply Hg.
Qed.

Lemma scoreAt_updS_eq (t : MatrixType) (i j v : Z) :
  0 <= i < m -> 0 <= j < n -> scoreAt (updS f t i j v) t i j = v.
Proof.
  intros. unfold scoreAt, updS. cbn. rewrite pt_get_set_eq.
  eapply cell_upd2_eq; [apply Hf | done | done].
Qed.

Lemma dirAt_updD_eq (t : MatrixType) (i j : Z) (d : list MatrixType) :
  0 <= i < m -> 0 <= j < n -> dirAt (updD f t i j d) t i j = d.
Proof.
  intros. unfold dirAt, updD. cbn. rewrite pt_get_set_eq.
  eapply cell_upd2_eq; [apply Hf | done | done].
Qed.

End Store.

Lemma scoreAt_updS_ne (f : AlignmentMatrix) (t t' : MatrixType)
    (i j i' j' v : Z) :
  0 <= i -> 0 <= j -> 0 <= i' -> 0 <= j' ->
  t <> t' \/ i <> i' \/ j <> j' ->
  scoreAt (updS f t i j v) t' i' j' = scoreAt f t' i' j'.
Proof.
  intros Hi Hj Hi' Hj' Hne. unfold scoreAt, updS. cbn.
  destruct (decide (t = t')) as [<-|Ht].
  - rewrite pt_get_set_eq. apply cell_upd2_ne; try done.
    destruct Hne as [?|Hne]; [done | exact Hne].
  - by rewrite pt_get_set_ne.
Qed.

Lemma dirAt_updD_ne (f : AlignmentMatrix) (t t' : MatrixType)
    (i j i' j' : Z) (d : list MatrixType) :
  0 <= i -> 0 <= j -> 0 <= i' -> 0 <= j' ->
  t <> t' \/ i <> i' \/ j <> j' ->
  dirAt (updD f t i j d) t' i' j' = dirAt f t' i' j'.
Proof.
  intros Hi Hj Hi' Hj' Hne. unfold dirAt, updD. cbn.
  destruct (decide (t = t')) as [<-|Ht].
  - rewrite pt_get_set_eq. apply cell_upd2_ne; try done.
    destruct Hne as [?|Hne]; [done | exact Hne].
  - by rewrite pt_get_set_ne.
Qed.

Lemma scoreAt_updD (f : AlignmentMatrix) (t t' : MatrixType)
    (i j i' j' : Z) (d : list MatrixType) :
  scoreAt (updD f t i j d) t' i' j' = scoreAt f t' i' j'.
Proof. done. Qed.

Lemma dirAt_updS (f : AlignmentMatrix) (t t' : MatrixType)
    (i j i' j' v : Z) :
  dirAt (updS f t i j v) t' i' j' = dirAt f t' i' j'.
Proof. done. Qed.

(** ** The double loop that fills the matrix *)

Lemma same_at_refl (f : AlignmentMatrix) (i j : Z) : same_at f f i j.
Proof. by intros t. Qed.

Lemma same_at_trans (f1 f2 f3 : AlignmentMatrix) (i j : Z) :
  same_at f1 f2 i j -> same_at f2 f3 i j -> same_at f1 f3 i j.
Proof.
  intros H12 H23 t. destruct (H12 t) as [<- <-]. apply H23.
Qed.

Lemma same_at_updS (f : AlignmentMatrix) (t : MatrixType) (i j i' j' v : Z) :
  0 <= i -> 0 <= j -> 0 <= i' -> 0 <= j' -> i <> i' \/ j <> j' ->
  same_at f (updS f t i j v) i' j'.
Proof.
  intros ????? t'. split; [|done]. apply scoreAt_updS_ne; tauto.
Qed.

Lemma same_at_updD (f : AlignmentMatrix) (t : MatrixType) (i j i' j' : Z)
    (d : list MatrixType) :
  0 <= i -> 0 <= j -> 0 <= i' -> 0 <= j' -> i <> i' \/ j <> j' ->
  same_at f (updD f t i j d) i' j'.
Proof.
  intros ????? t'. split; [done|]. apply dirAt_updD_ne; tauto.
Qed.

Section Fill.

Variables (m n : Z).
(** The loop body, and the relation it sets up between the cell
    [(i, j)] and its three neighbours. *)
Variable body : AlignmentMatrix -> Z -> Z -> result AlignmentMatrix.
Variable Rec : AlignmentMatrix -> Z -> Z -> Prop.

Hypothesis body_ok : forall f i j,
  well_shaped f m n -> 1 <= i < m -> 1 <= j < n ->
  exists f', body f i j = Ok f' /\ well_shaped f' m n
    /\ (forall i' j', 0 <= i' -> 0 <= j' -> i' <> i \/ j' <> j ->
          same_at f f' i' j')
    /\ Rec f' i j.

Hypothesis Rec_local : forall f f' i j,
  1 <= i -> 1 <= j ->
  same_at f f' i j -> same_at f f' (i - 1) (j - 1) ->
  same_at f f' i (j - 1) -> same_at f f' (i - 1) j ->
  Rec f i j -> Rec f' i j.

Lemma fill_step (f0 f : AlignmentMatrix) (i j : Z) :
  1 <= i < m -> 1 <= j < n -> fill_inv m n Rec f0 i j f ->
  exists f', body f i j = Ok f' /\ fill_inv m n Rec f0 i (j + 1) f'.
Proof.
  intros Hi Hj (Hws & Hsame & Hrec).
  destruct (body_ok f i j Hws Hi Hj) as (f' & Hb & Hws' & Hfr & Hnew).
  exists f'. split; [done|]. split; [done|]. split.
  - intros i' j' Hi' Hj' Hnb.
    eapply same_at_trans; [apply Hsame | apply Hfr]; try done.
    + unfold before in *. lia.
    + unfold before in *. lia.
  - intros i' j' Hb'.
    destruct (decide (i' = i /\ j' = j)) as [[-> ->]|Hne]; [done|].
    assert (before m n i j i' j') as Hb0 by (unfold before in *; lia).
    unfold before in Hb0.
    apply (Rec_local f); try lia; try (apply Hfr; lia).
    by apply Hrec.
Qed.

Lemma fill_row (f0 f : AlignmentMatrix) (i : Z) :
  1 <= i < m -> 1 <= n -> fill_inv m n Rec f0 i 1 f ->
  exists f', foldM (fun f j => body f i j) (range 1 n) f = Ok f'
             /\ fill_inv m n Rec f0 (i + 1) 1 f'.
Proof.
  intros Hi Hn Hinv.
  destruct (foldM_range_inv (fun j f => fill_inv m n Rec f0 i j f)
              (fun f j => body f i j) 1 n f) as (f' & Hf' & Hinv');
    [lia | done | |].
  - intros j f1 Hj Hf1. by apply fill_step.
  - exists f'. split; [done|].
    destruct Hinv' as (Hws & Hsame & Hrec). split; [done|]. split.
    + intros i' j' Hi' Hj' Hnb. apply Hsame; try done.
      unfold before in *. lia.
    + intros i' j' Hb. apply Hrec. unfold before in *. lia.
Qed.

(** The filled matrix: every inner cell satisfies [Rec], and the first
    row and the first column are as they were. *)
Lemma fill_all (f0 : AlignmentMatrix) :
  1 <= m -> 1 <= n -> well_shaped f0 m n ->
  exists f',
    foldM (fun f i => foldM (fun f j => body f i j) (range 1 n) f)
          (range 1 m) f0 = Ok f'
    /\ well_shaped f' m n
    /\ (forall i j, 1 <= i < m -> 1 <= j < n -> Rec f' i j)
    /\ (forall i j, 0 <= i -> 0 <= j -> i = 0 \/ j = 0 ->
          same_at f0 f' i j).
Proof.
  intros Hm Hn Hws.
  destruct (foldM_range_inv (fun i f => fill_inv m n Rec f0 i 1 f)
              (fun f i => foldM (fun f j => body f i j) (range 1 n) f)
              1 m f0) as (f' & Hf' & Hinv'); [lia | | |].
  - split; [done|]. split.
    + intros. apply same_at_refl.
    + intros i' j' Hb. unfold before in Hb. lia.
  - intros i f Hi Hinv. by apply fill_row.
  - exists f'. split; [done|].
    destruct Hinv' as (Hws' & Hsame & Hrec). split; [done|]. split.
    + intros i j Hi Hj. apply Hrec. unfold before. lia.
    + intros i j Hi Hj Hb. apply Hsame; try done. unfold before. lia.
Qed.

End Fill.

Lemma bind_Ok {A B : Type} (x : A) (k : A -> result B) : Ok x ≫= k = k x.
Proof. done. Qed.

(** Proof steps for code that reads and writes a well-shaped matrix. *)
Ltac ws :=
  repeat first [apply well_shaped_updS | apply well_shaped_updD];
  first [assumption | apply well_shaped_init].

Ltac ne_cell := first [left; discriminate | right; lia | lia].

Ltac run_store m n :=
  repeat first
    [ rewrite bind_Ok
    | rewrite (getScore_ok _ m n) by first [ws | lia]
    | rewrite (getDirection_ok _ m n) by first [ws | lia]
    | rewrite (setScore_ok _ m n) by first [ws | lia]
    | rewrite (setDirection_ok _ m n) by first [ws | lia]
    | rewrite Seq_get_elt by lia ].

Ltac simpl_at m n :=
  repeat first
    [ rewrite scoreAt_updD
    | rewrite dirAt_updS
    | rewrite (scoreAt_updS_eq _ m n) by first [ws | lia]
    | rewrite (dirAt_updD_eq _ m n) by first [ws | lia]
    | rewrite scoreAt_updS_ne by ne_cell
    | rewrite dirAt_updD_ne by ne_cell ].

Ltac frame :=
  repeat first
    [ apply same_at_refl
    | eapply same_at_trans;
      [| first [apply same_at_updS | apply same_at_updD]; lia] ].

Section GlobalFill.

Context {S : Type} `{Scoring S} `{GapScoring S}.
Variable scoring : S.
Variables first second : EncodedSequence.

Let m := Seq.len first + 1.
Let n := Seq.len second + 1.

Abbreviation Rec := (global_rec scoring first second).

Lemma global_fill_cell_ok (f : AlignmentMatrix) (i j : Z) :
  well_shaped f m n -> 1 <= i < m -> 1 <= j < n ->
  exists f',
    GlobalSequenceAligner.fill_cell scoring first second m n f i j = Ok f'
    /\ well_shaped f' m n
    /\ (forall i' j', 0 <= i' -> 0 <= j' -> i' <> i \/ j' <> j ->
          same_at f f' i' j')
    /\ Rec f' i j.
Proof.
  intros Hws Hi Hj. unfold GlobalSequenceAligner.fill_cell.
  assert (m = Seq.len first + 1) as Hm by done.
  assert (n = Seq.len second + 1) as Hn by done.
  run_store m n.
  destruct (i =? m - 1) eqn:Him; destruct (j =? n - 1) eqn:Hjn;
    run_store m n;
    (eexists; split; [reflexivity|]; split; [ws|]; split;
     [ intros i' j' Hi' Hj' Hne; frame
     | unfold global_rec; cbv zeta; fold m n; rewrite Him, Hjn;
       simpl_at m n; rewrite ?Z.add_0_r; done ]).
Qed.

Lemma global_rec_local (f f' : AlignmentMatrix) (i j : Z) :
  1 <= i -> 1 <= j ->
  same_at f f' i j -> same_at f f' (i - 1) (j - 1) ->
  same_at f f' i (j - 1) -> same_at f f' (i - 1) j ->
  Rec f i j -> Rec f' i j.
Proof.
  intros _ _ Ha Hb Hc Hd. unfold global_rec. cbv zeta.
  rewrite !(proj1 (Ha _)), !(proj2 (Ha _)), !(proj1 (Hb _)),
    !(proj1 (Hc _)), !(proj1 (Hd _)).
  done.
Qed.

(** The matrix that [computeAlignmentMatrix] returns. *)
Lemma global_computeAlignmentMatrix_ok :
  exists f,
    GlobalSequenceAligner.computeAlignmentMatrix scoring first second = Ok f
    /\ well_shaped f m n
    /\ (forall i j, 1 <= i < m -> 1 <= j < n -> Rec f i j)
    /\ (forall t i j, 0 <= i < m -> 0 <= j < n -> i = 0 \/ j = 0 ->
          scoreAt f t i j = 0 /\ dirAt f t i j = []).
Proof.
  unfold GlobalSequenceAligner.computeAlignmentMatrix. cbv zeta. fold m n.
  destruct (fill_all m n
              (GlobalSequenceAligner.fill_cell scoring first second m n)
              Rec global_fill_cell_ok global_rec_local (AlignmentMatrix.init (m, n)))
    as (f & Hf & Hws & Hrec & Hbd).
  - unfold m, Seq.len. lia.
  - unfold n, Seq.len. lia.
  - apply well_shaped_init.
  - exists f. split; [done|]. split; [done|]. split; [done|].
    intros t i j Hi Hj Hb.
    destruct (Hbd i j (proj1 Hi) (proj1 Hj) Hb t) as [-> ->].
    by rewrite scoreAt_init, dirAt_init.
Qed.

End GlobalFill.

Lemma local_border_score_column (t : MatrixType) (i : Z) :
  1 <= i ->
  local_border_score t i 0 = match t with IY => 0 | _ => - sys_maxsize end.
Proof.
  intros Hi. unfold local_border_score.
  destruct (Z.eqb_spec i 0); [lia|]. done.
Qed.

Lemma local_border_score_row (t : MatrixType) (j : Z) :
  1 <= j ->
  local_border_score t 0 j = match t with IX => 0 | _ => - sys_maxsize end.
Proof.
  intros Hj. unfold local_border_score.
  destruct (Z.eqb_spec j 0); [lia|]. done.
Qed.

Lemma local_border_dir_column (t : MatrixType) (i : Z) :
  1 <= i -> local_border_dir t i 0 = match t with IY => [IY] | _ => [] end.
Proof.
  intros Hi. unfold local_border_dir. destruct (Z.eqb_spec i 0); [lia|]. done.
Qed.

Lemma local_border_dir_row (t : MatrixType) (j : Z) :
  1 <= j -> local_border_dir t 0 j = match t with IX => [IX] | _ => [] end.
Proof.
  intros Hj. unfold local_border_dir. destruct (Z.eqb_spec j 0); [lia|]. done.
Qed.


Section LocalFill.

Context {S : Type} `{Scoring S} `{GapScoring S}.
Variable scoring : S.
Variables first second : EncodedSequence.

Let m := Seq.len first + 1.
Let n := Seq.len second + 1.

Abbreviation Rec := (local_rec scoring first second).

Lemma local_fill_cell_ok (f : AlignmentMatrix) (i j : Z) :
  well_shaped f m n -> 1 <= i < m -> 1 <= j < n ->
  exists f',
    LocalSequenceAligner.fill_cell scoring first second f i j = Ok f'
    /\ well_shaped f' m n
    /\ (forall i' j', 0 <= i' -> 0 <= j' -> i' <> i \/ j' <> j ->
          same_at f f' i' j')
    /\ Rec f' i j.
Proof.
  intros Hws Hi Hj. unfold LocalSequenceAligner.fill_cell.
  assert (m = Seq.len first + 1) as Hm by done.
  assert (n = Seq.len second + 1) as Hn by done.
  run_store m n.
  eexists; split; [reflexivity|]; split; [ws|]; split.
  - intros i' j' Hi' Hj' Hne; frame.
  - unfold local_rec; cbv zeta. simpl_at m n. done.
Qed.

Lemma local_rec_local (f f' : AlignmentMatrix) (i j : Z) :
  1 <= i -> 1 <= j ->
  same_at f f' i j -> same_at f f' (i - 1) (j - 1) ->
  same_at f f' i (j - 1) -> same_at f f' (i - 1) j ->
  Rec f i j -> Rec f' i j.
Proof.
  intros _ _ Ha Hb Hc Hd. unfold local_rec. cbv zeta.
  rewrite !(proj1 (Ha _)), !(proj2 (Ha _)), !(proj1 (Hb _)),
    !(proj1 (Hc _)), !(proj1 (Hd _)).
  done.
Qed.

Lemma local_column_step (k : Z) (f : AlignmentMatrix) :
  1 <= k < m -> local_column_inv m n k f ->
  exists f',
    (f ← AlignmentMatrix.setScore f F k 0 (- sys_maxsize);
     f ← AlignmentMatrix.setScore f IX k 0 (- sys_maxsize);
     f ← AlignmentMatrix.setScore f IY k 0
           (Z.max 0 (LocalSequenceAligner.gapScore
                     + k * LocalSequenceAligner.gapExtensionScore));
     AlignmentMatrix.setDirection f IY k 0 [IY]) = Ok f'
    /\ local_column_inv m n (k + 1) f'.
Proof.
  intros Hk [Hws Hinv].
  assert (1 <= n) as Hn by (unfold n, Seq.len; lia).
  run_store m n.
  eexists; split; [reflexivity|]. split; [ws|].
  intros t i j Hi Hj. specialize (Hinv t i j Hi Hj).
  destruct (decide (i = k /\ j = 0)) as [[-> ->]|Hne].
  - rewrite decide_True by lia.
    rewrite local_border_score_column, local_border_dir_column by lia.
    unfold LocalSequenceAligner.gapScore,
      LocalSequenceAligner.gapExtensionScore.
    rewrite Z.mul_0_r.
    rewrite decide_False in Hinv by lia. destruct Hinv as [Hs Hd].
    rewrite scoreAt_init in Hs by lia. rewrite dirAt_init in Hd by lia.
    destruct t; simpl_at m n; done.
  - simpl_at m n.
    destruct (decide (1 <= i < k /\ j = 0)).
    + rewrite decide_True by lia. done.
    + rewrite decide_False by lia. done.
Qed.

Lemma local_row_step (k : Z) (f : AlignmentMatrix) :
  1 <= k < n -> local_row_inv m n k f ->
  exists f',
    (f ← AlignmentMatrix.setScore f F 0 k (- sys_maxsize);
     f ← AlignmentMatrix.setScore f IX 0 k
           (Z.max 0 (LocalSequenceAligner.gapScore
                     + k * LocalSequenceAligner.gapExtensionScore));
     f ← AlignmentMatrix.setScore f IY 0 k (- sys_maxsize);
     AlignmentMatrix.setDirection f IX 0 k [IX]) = Ok f'
    /\ local_row_inv m n (k + 1) f'.
Proof.
  intros Hk [Hws Hinv].
  assert (1 <= m) as Hm by (unfold m, Seq.len; lia).
  run_store m n.
  eexists; split; [reflexivity|]. split; [ws|].
  intros t i j Hi Hj. specialize (Hinv t i j Hi Hj).
  destruct (decide (i = 0 /\ j = k)) as [[-> ->]|Hne].
  - rewrite decide_True by lia.
    rewrite local_border_score_row, local_border_dir_row by lia.
    unfold LocalSequenceAligner.gapScore,
      LocalSequenceAligner.gapExtensionScore.
    rewrite Z.mul_0_r.
    rewrite decide_False in Hinv by lia. destruct Hinv as [Hs Hd].
    rewrite scoreAt_init in Hs by lia. rewrite dirAt_init in Hd by lia.
    destruct t; simpl_at m n; done.
  - simpl_at m n.
    destruct (decide ((1 <= i < m /\ j = 0) \/ (i = 0 /\ 1 <= j < k))).
    + rewrite decide_True by lia. done.
    + rewrite decide_False by lia. done.
Qed.

(** The matrix that [computeAlignmentMatrix] returns. *)
Lemma local_computeAlignmentMatrix_ok :
  exists f,
    LocalSequenceAligner.computeAlignmentMatrix scoring first second = Ok f
    /\ well_shaped f m n
    /\ (forall i j, 1 <= i < m -> 1 <= j < n -> Rec f i j)
    /\ (forall t i j, 0 <= i < m -> 0 <= j < n -> i = 0 \/ j = 0 ->
          scoreAt f t i j = local_border_score t i j
          /\ dirAt f t i j = local_border_dir t i j).
Proof.
  unfold LocalSequenceAligner.computeAlignmentMatrix. cbv zeta. fold m n.
  assert (1 <= m) as Hm by (unfold m, Seq.len; lia).
  assert (1 <= n) as Hn by (unfold n, Seq.len; lia).
  destruct (foldM_range_inv (local_column_inv m n)
    (fun f i =>
       f ← AlignmentMatrix.setScore f F i 0 (- sys_maxsize);
       f ← AlignmentMatrix.setScore f IX i 0 (- sys_maxsize);
       f ← AlignmentMatrix.setScore f IY i 0
             (Z.max 0 (LocalSequenceAligner.gapScore
                       + i * LocalSequenceAligner.gapExtensionScore));
       AlignmentMatrix.setDirection f IY i 0 [IY])
    1 m (AlignmentMatrix.init (m, n))) as (f1 & -> & Hf1); [lia | | |].
  { split; [apply well_shaped_init|]. intros t i j Hi Hj.
    rewrite decide_False by lia. done. }
  { intros k f Hk Hf. by apply local_column_step. }
  rewrite bind_Ok.
  destruct (foldM_range_inv (local_row_inv m n)
    (fun f i =>
       f ← AlignmentMatrix.setScore f F 0 i (- sys_maxsize);
       f ← AlignmentMatrix.setScore f IX 0 i
             (Z.max 0 (LocalSequenceAligner.gapScore
                       + i * LocalSequenceAligner.gapExtensionScore));
       f ← AlignmentMatrix.setScore f IY 0 i (- sys_maxsize);
       AlignmentMatrix.setDirection f IX 0 i [IX])
    1 n f1) as (f2 & -> & [Hws2 Hf2]); [lia | | |].
  { destruct Hf1 as [Hws1 Hf1]. split; [done|]. intros t i j Hi Hj.
    specialize (Hf1 t i j Hi Hj).
    destruct (decide (1 <= i < m /\ j = 0)).
    - rewrite decide_True by lia. done.
    - rewrite decide_False by lia. done. }
  { intros k f Hk Hf. by apply local_row_step. }
  run_store m n.
  destruct (fill_all m n
              (LocalSequenceAligner.fill_cell scoring first second)
              Rec local_fill_cell_ok local_rec_local
              (updS (updS f2 IX 0 0 (- sys_maxsize)) IY 0 0 (- sys_maxsize)))
    as (f & Hf & Hws & Hrec & Hbd); [done | done | ws |].
  exists f. split; [done|]. split; [done|]. split; [done|].
  intros t i j Hi Hj Hb.
  destruct (Hbd i j (proj1 Hi) (proj1 Hj) Hb t) as [-> ->].
  specialize (Hf2 t i j (proj1 Hi) (proj1 Hj)).
  destruct (decide (i = 0 /\ j = 0)) as [[-> ->]|Hne].
  - rewrite decide_False in Hf2 by lia. destruct Hf2 as [Hs Hd].
    rewrite scoreAt_init in Hs by lia. rewrite dirAt_init in Hd by lia.
    destruct t; simpl_at m n; done.
  - rewrite decide_True in Hf2 by lia. simpl_at m n. done.
Qed.

End LocalFill.

Section StrictFill.

Context {S : Type} `{Scoring S}.
Variable scoring : S.
Variable gapScore : Z.
Variables first second : EncodedSequence.

Let m := Seq.len first + 1.
Let n := Seq.len second + 1.

Abbreviation Rec := (strict_rec scoring gapScore first second).

Lemma strict_fill_cell_ok (f : AlignmentMatrix) (i j : Z) :
  well_shaped f m n -> 1 <= i < m -> 1 <= j < n ->
  exists f',
    StrictGlobalSequenceAligner.fill_cell scoring gapScore first second
      f i j = Ok f'
    /\ well_shaped f' m n
    /\ (forall i' j', 0 <= i' -> 0 <= j' -> i' <> i \/ j' <> j ->
          same_at f f' i' j')
    /\ Rec f' i j.
Proof.
  intros Hws Hi Hj. unfold StrictGlobalSequenceAligner.fill_cell.
  assert (m = Seq.len first + 1) as Hm by done.
  assert (n = Seq.len second + 1) as Hn by done.
  run_store m n.
  eexists; split; [reflexivity|]; split; [ws|]; split.
  - intros i' j' Hi' Hj' Hne; frame.
  - unfold strict_rec. simpl_at m n. done.
Qed.

Lemma strict_rec_local (f f' : AlignmentMatrix) (i j : Z) :
  1 <= i -> 1 <= j ->
  same_at f f' i j -> same_at f f' (i - 1) (j - 1) ->
  same_at f f' i (j - 1) -> same_at f f' (i - 1) j ->
  Rec f i j -> Rec f' i j.
Proof.
  intros _ _ Ha Hb Hc Hd. unfold strict_rec.
  rewrite !(proj1 (Ha _)), !(proj1 (Hb _)), !(proj1 (Hc _)),
    !(proj1 (Hd _)).
  done.
Qed.

Lemma strict_column_step (k : Z) (f : AlignmentMatrix) :
  1 <= k < m -> strict_column_inv gapScore m n k f ->
  exists f',
    (x ← AlignmentMatrix.getScore f F (k - 1) 0;
     AlignmentMatrix.setScore f F k 0 (x + gapScore)) = Ok f'
    /\ strict_column_inv gapScore m n (k + 1) f'.
Proof.
  intros Hk [Hws Hinv].
  assert (1 <= n) as Hn by (unfold n, Seq.len; lia).
  run_store m n.
  eexists; split; [reflexivity|]. split; [ws|].
  intros t i j Hi Hj. split; [simpl_at m n; by apply Hinv|].
  destruct (decide (t = F /\ i = k /\ j = 0)) as [(-> & -> & ->)|Hne].
  - rewrite decide_True by (intuition lia). simpl_at m n.
    destruct (Hinv F (k - 1) 0) as [_ Hprev]; [lia | lia |].
    destruct (decide (k = 1)) as [->|Hk1].
    + rewrite decide_False in Hprev by (intuition lia).
      rewrite Hprev, scoreAt_init by lia. lia.
    + rewrite decide_True in Hprev by (intuition lia). rewrite Hprev. ring.
  - destruct (Hinv t i j Hi Hj) as [_ Hold].
    rewrite scoreAt_updS_ne by (destruct t; first [lia | left; discriminate | right; intuition lia]).
    destruct (decide (t = F /\ 1 <= i < k /\ j = 0)).
    + rewrite decide_True by (intuition lia). done.
    + rewrite decide_False by (intuition lia). done.
Qed.

Lemma strict_row_step (k : Z) (f : AlignmentMatrix) :
  1 <= k < n -> strict_row_inv gapScore m n k f ->
  exists f',
    (y ← AlignmentMatrix.getScore f F 0 (k - 1);
     AlignmentMatrix.setScore f F 0 k (y + gapScore)) = Ok f'
    /\ strict_row_inv gapScore m n (k + 1) f'.
Proof.
  intros Hk [Hws Hinv].
  assert (1 <= m) as Hm by (unfold m, Seq.len; lia).
  run_store m n.
  eexists; split; [reflexivity|]. split; [ws|].
  intros t i j Hi Hj. split; [simpl_at m n; by apply Hinv|].
  destruct (decide (t = F /\ i = 0 /\ j = k)) as [(-> & -> & ->)|Hne].
  - rewrite decide_True by (intuition lia). simpl_at m n.
    destruct (Hinv F 0 (k - 1)) as [_ Hprev]; [lia | lia |].
    destruct (decide (k = 1)) as [->|Hk1].
    + rewrite decide_False in Hprev by (intuition lia).
      rewrite Hprev, scoreAt_init by lia. lia.
    + rewrite decide_True in Hprev by (intuition lia). rewrite Hprev. ring.
  - destruct (Hinv t i j Hi Hj) as [_ Hold].
    rewrite scoreAt_updS_ne by (destruct t; first [lia | left; discriminate | right; intuition lia]).
    destruct (decide (t = F /\ ((1 <= i < m /\ j = 0)
                                \/ (i = 0 /\ 1 <= j < k)))).
    + rewrite decide_True by (intuition lia). done.
    + rewrite decide_False by (intuition lia). done.
Qed.

(** The matrix that [computeAlignmentMatrix] returns. *)
Lemma strict_computeAlignmentMatrix_ok :
  exists f,
    StrictGlobalSequenceAligner.computeAlignmentMatrix scoring gapScore
      first second = Ok f
    /\ well_shaped f m n
    /\ (forall i j, 1 <= i < m -> 1 <= j < n -> Rec f i j)
    /\ (forall i j, 0 <= i < m -> 0 <= j < n -> i = 0 \/ j = 0 ->
          scoreAt f F i j = (i + j) * gapScore).
Proof.
  unfold StrictGlobalSequenceAligner.computeAlignmentMatrix.
  cbv zeta. fold m n.
  assert (1 <= m) as Hm by (unfold m, Seq.len; lia).
  assert (1 <= n) as Hn by (unfold n, Seq.len; lia).
  destruct (foldM_range_inv (strict_column_inv gapScore m n)
    (fun f i =>
       x ← AlignmentMatrix.getScore f F (i - 1) 0;
       AlignmentMatrix.setScore f F i 0 (x + gapScore))
    1 m (AlignmentMatrix.init (m, n))) as (f1 & -> & Hf1); [lia | | |].
  { split; [apply well_shaped_init|]. intros t i j Hi Hj.
    rewrite decide_False by (intuition lia). done. }
  { intros k f Hk Hf. by apply strict_column_step. }
  rewrite bind_Ok.
  destruct (foldM_range_inv (strict_row_inv gapScore m n)
    (fun f j =>
       y ← AlignmentMatrix.getScore f F 0 (j - 1);
       AlignmentMatrix.setScore f F 0 j (y + gapScore))
    1 n f1) as (f2 & -> & [Hws2 Hf2]); [lia | | |].
  { destruct Hf1 as [Hws1 Hf1]. split; [done|]. intros t i j Hi Hj.
    destruct (Hf1 t i j Hi Hj) as [Hd Hs]. split; [done|].
    destruct (decide (t = F /\ 1 <= i < m /\ j = 0)) as [(-> & ? & ->)|].
    - rewrite decide_True by (intuition lia). rewrite Hs. lia.
    - rewrite decide_False by (intuition lia). done. }
  { intros k f Hk Hf. by apply strict_row_step. }
  rewrite bind_Ok.
  destruct (fill_all m n
              (StrictGlobalSequenceAligner.fill_cell scoring gapScore
                 first second)
              Rec strict_fill_cell_ok strict_rec_local f2)
    as (f & Hf & Hws & Hrec & Hbd); [done | done | done |].
  exists f. split; [done|]. split; [done|]. split; [done|].
  intros i j Hi Hj Hb.
  destruct (Hbd i j (proj1 Hi) (proj1 Hj) Hb F) as [-> _].
  destruct (Hf2 F i j (proj1 Hi) (proj1 Hj)) as [_ Hs].
  destruct (decide (i = 0 /\ j = 0)) as [[-> ->]|Hne].
  - rewrite decide_False in Hs by (intuition lia).
    rewrite Hs, scoreAt_init by lia. lia.
  - rewrite decide_True in Hs by (intuition lia). done.
Qed.

End StrictFill.

(** ** Descents of a backtrace *)

Section Descent.

Implicit Types (P : SequenceAlignment -> list column -> Prop)
               (d : bt_state -> result bt_state).

Lemma descent_run P d als al r :
  descent P d -> d (als, al) = Ok r ->
  exists new,
    d ([], al) = Ok (new, al) /\ r = (als ++ new, al)
    /\ Forall (fun x => exists cols,
                 x = SequenceAlignment.reversed (push_all al cols)
                 /\ P al cols) new.
Proof.
  intros [Happ Htr] Hr. rewrite Happ in Hr.
  destruct (d ([], al)) as [[new al']|e] eqn:Hd; [|discriminate].
  cbn in Hr. injection Hr as <-.
  destruct (Htr al new al' Hd) as [-> Hall]. eauto.
Qed.

Lemma descent_raise P (e : exn) : descent P (fun _ => Raise e).
Proof. split; [done|]. intros al new al' Hd. discriminate. Qed.

Lemma descent_skip P : descent P (fun st => Ok st).
Proof.
  split.
  - intros als al. cbn. by rewrite app_nil_r.
  - intros al new al' [= <- <-]. by split.
Qed.

Lemma descent_finalize P :
  (forall al, P al []) -> descent P (fun st => Ok (finalize st)).
Proof.
  intros HP. split.
  - intros als al. done.
  - intros al new al' [= <- <-]. split; [done|].
    apply Forall_singleton. exists []. split; [done | apply HP].
Qed.

Lemma descent_ext P d d' :
  (forall st, d st = d' st) -> descent P d -> descent P d'.
Proof.
  intros Heq [Happ Htr]. split.
  - intros als al. rewrite <- !Heq. apply Happ.
  - intros al new al'. rewrite <- Heq. apply Htr.
Qed.

Lemma descent_weaken P P' d :
  (forall al cols, P al cols -> P' al cols) -> descent P d -> descent P' d.
Proof.
  intros HPP [Happ Htr]. split; [done|].
  intros al new al' Hd. destruct (Htr al new al' Hd) as [-> Hall].
  split; [done|]. eapply Forall_impl; [exact Hall|].
  intros x (cols & -> & HP). eauto.
Qed.

(** [x = <read>; <descent x>] *)
Lemma descent_bind {X : Type} P (m : result X)
    (k : X -> bt_state -> result bt_state) :
  (forall x, m = Ok x -> descent P (k x)) ->
  descent P (fun st => x ← m; k x st).
Proof.
  intros Hk. destruct m as [x|e]; cbn.
  - by apply Hk.
  - apply descent_raise.
Qed.

(** [alignment.push(a, b, s); <descent>; alignment.pop()] *)
Lemma descent_with_push P P' (a b s : Z) d :
  descent P' d ->
  (forall al cols,
     P' (SequenceAlignment.push al a b s) cols ->
     P al ((a, b, s) :: cols)) ->
  descent P (with_push a b s d).
Proof.
  intros Hd HPP. split.
  - intros als al. unfold with_push. cbn [fst snd].
    destruct Hd as [Happ _]. rewrite Happ.
    destruct (d ([], SequenceAlignment.push al a b s)) as [[new al1]|e];
      cbn; [|done].
    destruct (SequenceAlignment.pop al1) as [[? al2]|e]; cbn; [|done].
    done.
  - intros al new al'. unfold with_push. cbn [fst snd]. intros Hr.
    apply bind_Ok_inv in Hr as ([new1 al1] & Hd1 & Hr).
    destruct (descent_run _ _ _ _ _ Hd Hd1) as (new2 & _ & [= -> ->] & Hall).
    cbn [fst snd] in Hr. rewrite pop_push in Hr. cbn in Hr.
    injection Hr as <- <-. split; [done|].
    eapply Forall_impl; [exact Hall|].
    intros x (cols & -> & HP). exists ((a, b, s) :: cols).
    split; [done | by apply HPP].
Qed.

(** The same, when the pushed elements are read from the accumulator,
    as in [alignment.push(alignment.gap, b, s)]. *)
Lemma descent_with_push_from P P' (a b : SequenceAlignment -> Z) (s : Z) d :
  descent P' d ->
  (forall al cols,
     P' (SequenceAlignment.push al (a al) (b al) s) cols ->
     P al ((a al, b al, s) :: cols)) ->
  descent P (fun st => with_push (a (snd st)) (b (snd st)) s d st).
Proof.
  intros Hd HPP. split.
  - intros als al. cbn [snd].
    apply (descent_with_push
             (fun al' cols' => True) P' (a al) (b al) s d Hd).
    done.
  - intros al new al' Hr. cbn [snd] in Hr.
    assert (descent (fun al0 cols0 => al0 = al -> P al0 cols0)
              (with_push (a al) (b al) s d)) as [_ Htr].
    { eapply descent_with_push; [exact Hd|].
      intros al0 cols0 HP' ->. by apply HPP. }
    destruct (Htr al new al' Hr) as [-> Hall]. split; [done|].
    eapply Forall_impl; [exact Hall|].
    intros x (cols & -> & HP). exists cols. split; [done | by apply HP].
Qed.

(** [for x in l: <descent x>] *)
Lemma descent_foldM {X : Type} P (l : list X)
    (body : bt_state -> X -> result bt_state) :
  (forall x, x ∈ l -> descent P (fun st => body st x)) ->
  descent P (foldM body l).
Proof.
  induction l as [|x l IH]; intros Hbody.
  - apply descent_skip.
  - assert (descent P (fun st => body st x)) as Hx
      by (apply Hbody; left).
    assert (descent P (foldM body l)) as Hl
      by (apply IH; intros y Hy; apply Hbody; by right).
    split.
    + intros als al. cbn.
      destruct Hx as [Happx _]. rewrite Happx.
      destruct (body ([], al) x) as [[new1 al1]|e]; cbn; [|done].
      destruct Hl as [Happl _]. rewrite Happl. rewrite (Happl new1).
      destruct (foldM body l ([], al1)) as [[new2 al2]|e]; cbn; [|done].
      by rewrite app_assoc.
    + intros al new al' Hr. cbn in Hr.
      apply bind_Ok_inv in Hr as ([new1 al1] & Hd1 & Hr).
      destruct (descent_run _ _ _ _ _ Hx Hd1)
        as (new1' & _ & [= -> ->] & Hall1).
      destruct (descent_run _ _ _ _ _ Hl Hr)
        as (new2 & _ & [= -> ->] & Hall2).
      split; [done|]. by apply Forall_app.
Qed.

Lemma total_with_push P (a b s : Z) d :
  descent P d -> total d -> total (with_push a b s d).
Proof.
  intros Hd Ht [als al]. unfold with_push. cbn [fst snd].
  destruct (Ht (als, SequenceAlignment.push al a b s)) as [r Hr].
  rewrite Hr.
  destruct (descent_run _ _ _ _ _ Hd Hr) as (new & _ & -> & _).
  cbn. rewrite pop_push. cbn. eauto.
Qed.

Lemma total_foldM {X : Type} (l : list X)
    (body : bt_state -> X -> result bt_state) :
  (forall x, x ∈ l -> total (fun st => body st x)) ->
  total (foldM body l).
Proof.
  induction l as [|x l IH]; intros Hbody st; cbn; [eauto|].
  destruct (Hbody x (list_elem_of_here _ _) st) as [r ->]. cbn.
  apply IH. intros y Hy. apply Hbody. by right.
Qed.

End Descent.

(** ** What a finalized alignment records *)

Lemma push_all_cons (al : SequenceAlignment) (c : column) (cols : list column) :
  push_all al (c :: cols)
  = push_all (SequenceAlignment.push al (col_first c) (col_second c)
                                     (col_score c)) cols.
Proof. done. Qed.

Lemma push_all_fields (al : SequenceAlignment) (cols : list column) :
  elements (first (push_all al cols))
    = elements (first al) ++ map col_first cols
  /\ elements (second (push_all al cols))
    = elements (second al) ++ map col_second cols
  /\ scores (push_all al cols) = scores al ++ map col_score cols
  /\ score (push_all al cols)
    = score al + sum_scores (map col_score cols)
  /\ gap (push_all al cols) = gap al.
Proof.
  revert al. induction cols as [|c cols IH]; intros al.
  - cbn. rewrite !app_nil_r. repeat split; try done. unfold sum_scores. cbn. lia.
  - rewrite push_all_cons.
    destruct (IH (SequenceAlignment.push al (col_first c) (col_second c)
                                         (col_score c)))
      as (-> & -> & -> & -> & ->).
    cbn. rewrite <- !app_assoc. cbn.
    repeat split; try done. unfold sum_scores. cbn. lia.
Qed.

Lemma first_elements_reversed (al : SequenceAlignment) :
  first_elements (SequenceAlignment.reversed al)
  = reverse (first_elements al).
Proof. done. Qed.

Lemma second_elements_reversed (al : SequenceAlignment) :
  second_elements (SequenceAlignment.reversed al)
  = reverse (second_elements al).
Proof. done. Qed.

Lemma first_elements_push_all (al : SequenceAlignment) (cols : list column) :
  first_elements (push_all al cols) = first_elements al ++ map col_first cols.
Proof. apply push_all_fields. Qed.

Lemma second_elements_push_all (al : SequenceAlignment)
    (cols : list column) :
  second_elements (push_all al cols)
  = second_elements al ++ map col_second cols.
Proof. apply push_all_fields. Qed.

Lemma elements_emptyAlignment (s1 s2 : EncodedSequence) :
  first_elements (emptyAlignment s1 s2) = []
  /\ second_elements (emptyAlignment s1 s2) = [].
Proof. done. Qed.

Lemma sum_scores_app (l1 l2 : list Z) :
  sum_scores (l1 ++ l2) = sum_scores l1 + sum_scores l2.
Proof.
  unfold sum_scores. induction l1 as [|x l1 IH]; cbn; [done|].
  rewrite IH. lia.
Qed.

Lemma remove_gaps_app (g : Z) (l1 l2 : list Z) :
  remove_gaps g (l1 ++ l2) = remove_gaps g l1 ++ remove_gaps g l2.
Proof. apply List.filter_app. Qed.

Lemma remove_gaps_cons (g x : Z) (l : list Z) :
  remove_gaps g (x :: l)
  = if negb (x =? g) then x :: remove_gaps g l else remove_gaps g l.
Proof. done. Qed.

Lemma remove_gaps_reverse (g : Z) (l : list Z) :
  remove_gaps g (reverse l) = reverse (remove_gaps g l).
Proof.
  induction l as [|x l IH]; [done|].
  rewrite reverse_cons, remove_gaps_app, IH, !remove_gaps_cons.
  destruct (negb (x =? g)).
  - by rewrite reverse_cons.
  - apply app_nil_r.
Qed.

Lemma remove_gaps_id (g : Z) (l : list Z) :
  g ∉ l -> remove_gaps g l = l.
Proof.
  induction l as [|x l IH]; intros Hg; [done|].
  rewrite remove_gaps_cons. apply not_elem_of_cons in Hg as [Hne Hg].
  destruct (Z.eqb_spec x g); [congruence|]. cbn [negb]. by rewrite IH.
Qed.

Section GlobalBacktrace.

Context {S : Type} `{Scoring S} `{GapScoring S}.
Variable scoring : S.
Variable fastBacktrace : bool.
Variables first second : EncodedSequence.
Variable f : AlignmentMatrix.

Abbreviation backtraceFrom :=
  (GlobalSequenceAligner.backtraceFrom fastBacktrace).

(** Whatever the matrix holds, a descent only appends reversed
    accumulators and gives the accumulator back. *)
Lemma global_backtraceFrom_descent (fuel : nat) (i j : Z) (current : MatrixType) :
  descent any_columns
    (fun st => backtraceFrom fuel first second f i j st current).
Proof.
  revert i j current. induction fuel as [|fuel IH]; intros i j current.
  { apply descent_raise. }
  cbn [GlobalSequenceAligner.backtraceFrom].
  destruct ((i =? 0) || (j =? 0)).
  { destruct current; first [by apply descent_finalize | apply descent_skip]. }
  destruct (shape f) as [m n].
  apply descent_bind; intros allDirections _.
  apply descent_bind; intros c _.
  apply descent_bind; intros a _.
  apply descent_bind; intros b _.
  destruct current.
  - apply descent_foldM; intros dir _.
    apply descent_bind; intros p _.
    eapply descent_with_push; [apply IH | done].
  - destruct (i =? m - 1).
    + apply descent_foldM; intros dir _.
      apply descent_bind; intros y _.
      destruct (c =? y); [apply IH | apply descent_skip].
    + apply descent_foldM; intros dir _.
      apply descent_bind; intros y _.
      apply (descent_with_push_from any_columns any_columns
               gap (fun _ => b)); [apply IH | done].
  - destruct (j =? n - 1).
    + apply descent_foldM; intros dir _.
      apply descent_bind; intros x _.
      destruct (c =? x); [apply IH | apply descent_skip].
    + apply descent_foldM; intros dir _.
      apply descent_bind; intros x _.
      apply (descent_with_push_from any_columns any_columns
               (fun _ => a) gap); [apply IH | done].
Qed.

Variables m n : Z.
Hypothesis Hws : well_shaped f m n.
Hypothesis Hm : m = Seq.len first + 1.
Hypothesis Hn : n = Seq.len second + 1.

(** On a matrix of the right shape, a descent from a cell of the matrix
    raises nothing, given a budget above [i + j]. *)
Lemma global_backtraceFrom_total (fuel : nat) (i j : Z) (current : MatrixType) :
  0 <= i < m -> 0 <= j < n -> (Z.to_nat i + Z.to_nat j < fuel)%nat ->
  total (fun st => backtraceFrom fuel first second f i j st current).
Proof.
  revert i j current.
  induction fuel as [|fuel IH]; intros i j current Hi Hj Hfuel; [lia|].
  intros st. cbn [GlobalSequenceAligner.backtraceFrom].
  destruct (Z.eqb_spec i 0) as [->|Hi0]; cbn [orb].
  { destruct current; eauto. }
  destruct (Z.eqb_spec j 0) as [->|Hj0]; cbn [orb].
  { destruct current; eauto. }
  destruct Hws as [-> _].
  run_store m n.
  set (dirs := if fastBacktrace then take 1 (dirAt f current i j)
               else dirAt f current i j).
  destruct current.
  - apply total_foldM. intros dir _ st'. run_store m n.
    eapply total_with_push; [apply global_backtraceFrom_descent|].
    apply IH; lia.
  - destruct (i =? m - 1).
    + apply total_foldM. intros dir _ st'. run_store m n.
      destruct (_ =? _); [|eauto]. apply IH; lia.
    + apply total_foldM. intros dir _ st'. run_store m n.
      eapply total_with_push; [apply global_backtraceFrom_descent|].
      apply IH; lia.
  - destruct (j =? n - 1).
    + apply total_foldM. intros dir _ st'. run_store m n.
      destruct (_ =? _); [|eauto]. apply IH; lia.
    + apply total_foldM. intros dir _ st'. run_store m n.
      eapply total_with_push; [apply global_backtraceFrom_descent|].
      apply IH; lia.
Qed.

Lemma global_bestScore_ok :
  GlobalSequenceAligner.bestScore f
  = Ok (max3 (scoreAt f F (m - 1) (n - 1)) (scoreAt f IX (m - 1) (n - 1))
             (scoreAt f IY (m - 1) (n - 1))).
Proof.
  unfold GlobalSequenceAligner.bestScore.
  assert (1 <= m) by (unfold Seq.len in Hm; lia).
  assert (1 <= n) by (unfold Seq.len in Hn; lia).
  by rewrite !(getScore_last f m n Hws).
Qed.

Lemma global_bestTypes_ok :
  exists types, GlobalSequenceAligner.bestTypes f = Ok types.
Proof.
  unfold GlobalSequenceAligner.bestTypes, all_types. cbn [foldM].
  assert (1 <= m) by (unfold Seq.len in Hm; lia).
  assert (1 <= n) by (unfold Seq.len in Hn; lia).
  rewrite !global_bestScore_ok, !(getScore_last f m n Hws) by done.
  repeat (rewrite bind_Ok; cbn [foldM]). eauto.
Qed.

(** [backtrace] raises nothing, and every alignment it returns is the
    reversed accumulator after some pushes on the empty alignment. *)
Lemma global_backtrace_ok :
  exists als,
    GlobalSequenceAligner.backtrace fastBacktrace first second f = Ok als
    /\ Forall (fun x => exists cols,
                 x = SequenceAlignment.reversed
                       (push_all (emptyAlignment first second) cols)) als.
Proof.
  unfold GlobalSequenceAligner.backtrace.
  destruct Hws as [Hshape _]. rewrite Hshape.
  destruct global_bestTypes_ok as [types ->]. rewrite bind_Ok.
  set (l := if fastBacktrace then take 1 types else types).
  assert (1 <= m) by (unfold Seq.len in Hm; lia).
  assert (1 <= n) by (unfold Seq.len in Hn; lia).
  destruct (total_foldM l
    (fun st type_ =>
       backtraceFrom (depth (m - 1) (n - 1)) first second f
                     (m - 1) (n - 1) st type_)) with
    (st := ([] : list SequenceAlignment, emptyAlignment first second))
    as [r Hr].
  { intros t _. apply global_backtraceFrom_total; unfold depth; lia. }
  rewrite Hr. cbn.
  assert (descent any_columns (foldM
    (fun st type_ =>
       backtraceFrom (depth (m - 1) (n - 1)) first second f
                     (m - 1) (n - 1) st type_) l)) as Hd.
  { apply descent_foldM. intros t _. apply global_backtraceFrom_descent. }
  destruct (descent_run _ _ _ _ _ Hd Hr) as (new & _ & -> & Hall).
  exists new. split; [done|].
  eapply Forall_impl; [exact Hall|]. intros x (cols & -> & _). eauto.
Qed.

End GlobalBacktrace.

Lemma descent_seq (P : SequenceAlignment -> list column -> Prop)
    (d1 d2 : bt_state -> result bt_state) :
  descent P d1 -> descent P d2 -> descent P (fun st => st' ← d1 st; d2 st').
Proof.
  intros H1 H2.
  apply (descent_ext P (foldM (fun st (d : bt_state -> result bt_state) =>
                                 d st) [d1; d2])).
  - intros st. cbn. destruct (d1 st) as [st1|e]; cbn; [|done].
    by destruct (d2 st1).
  - apply descent_foldM. intros d Hd.
    apply elem_of_cons in Hd as [->|Hd]; [done|].
    apply list_elem_of_singleton in Hd as ->. done.
Qed.

Lemma py_get_nonneg_inv {A : Type} (l : list A) (k : Z) (x : A) :
  0 <= k -> py_get l k = Ok x -> l !! Z.to_nat k = Some x.
Proof.
  intros Hk. unfold py_get, py_norm.
  destruct (Z.leb_spec 0 k); [|lia]. cbn.
  destruct (k <? _); cbn.
  - destruct (l !! Z.to_nat k); [congruence | discriminate].
  - destruct (Z.ltb_spec k 0); [lia|]. cbn. discriminate.
Qed.

Lemma take_pred_snoc (l : list Z) (i : Z) (a : Z) :
  0 < i -> l !! Z.to_nat (i - 1) = Some a ->
  reverse (take (Z.to_nat i) l) = a :: reverse (take (Z.to_nat (i - 1)) l).
Proof.
  intros Hi Ha. replace (Z.to_nat i) with (Datatypes.S (Z.to_nat (i - 1))) by lia.
  rewrite (take_S_r _ _ _ Ha). by rewrite reverse_snoc.
Qed.

Lemma remove_gaps_keep (g x : Z) (l r : list Z) :
  x ∈ l -> g ∉ l -> remove_gaps g (x :: r) = x :: remove_gaps g r.
Proof.
  intros Hx Hg. rewrite remove_gaps_cons.
  destruct (Z.eqb_spec x g) as [->|]; [done|]. done.
Qed.

Lemma remove_gaps_drop (g : Z) (r : list Z) :
  remove_gaps g (g :: r) = remove_gaps g r.
Proof. rewrite remove_gaps_cons. by rewrite Z.eqb_refl. Qed.

Section Covers.

Variables first second : EncodedSequence.

Lemma covers_nil (al : SequenceAlignment) : covers first second 0 0 al [].
Proof. intros _ _. done. Qed.

Lemma covers_gap_in_second (i j a s : Z) (al : SequenceAlignment)
    (cols : list column) :
  0 < i -> Seq.get first (i - 1) = Ok a ->
  covers first second (i - 1) j
    (SequenceAlignment.push al a (gap al) s) cols ->
  covers first second i j al ((a, gap al, s) :: cols).
Proof.
  intros Hi Ha Hc Hg1 Hg2.
  apply py_get_nonneg_inv in Ha; [|lia].
  destruct (Hc Hg1 Hg2) as [Hc1 Hc2]. cbn [gap SequenceAlignment.push] in *.
  cbn [map col_first col_second fst snd]. split.
  - rewrite (remove_gaps_keep _ _ (elements first)), Hc1;
      [| by eapply list_elem_of_lookup_2 | done].
    by rewrite (take_pred_snoc _ i a).
  - by rewrite remove_gaps_drop.
Qed.

Lemma covers_gap_in_first (i j b s : Z) (al : SequenceAlignment)
    (cols : list column) :
  0 < j -> Seq.get second (j - 1) = Ok b ->
  covers first second i (j - 1)
    (SequenceAlignment.push al (gap al) b s) cols ->
  covers first second i j al ((gap al, b, s) :: cols).
Proof.
  intros Hj Hb Hc Hg1 Hg2.
  apply py_get_nonneg_inv in Hb; [|lia].
  destruct (Hc Hg1 Hg2) as [Hc1 Hc2]. cbn [gap SequenceAlignment.push] in *.
  cbn [map col_first col_second fst snd]. split.
  - by rewrite remove_gaps_drop.
  - rewrite (remove_gaps_keep _ _ (elements second)), Hc2;
      [| by eapply list_elem_of_lookup_2 | done].
    by rewrite (take_pred_snoc _ j b).
Qed.

Lemma covers_diagonal (i j a b s : Z) (al : SequenceAlignment)
    (cols : list column) :
  0 < i -> 0 < j ->
  Seq.get first (i - 1) = Ok a -> Seq.get second (j - 1) = Ok b ->
  covers first second (i - 1) (j - 1)
    (SequenceAlignment.push al a b s) cols ->
  covers first second i j al ((a, b, s) :: cols).
Proof.
  intros Hi Hj Ha Hb Hc Hg1 Hg2.
  apply py_get_nonneg_inv in Ha; [|lia].
  apply py_get_nonneg_inv in Hb; [|lia].
  destruct (Hc Hg1 Hg2) as [Hc1 Hc2]. cbn [gap SequenceAlignment.push] in *.
  cbn [map col_first col_second fst snd]. split.
  - rewrite (remove_gaps_keep _ _ (elements first)), Hc1;
      [| by eapply list_elem_of_lookup_2 | done].
    by rewrite (take_pred_snoc _ i a).
  - rewrite (remove_gaps_keep _ _ (elements second)), Hc2;
      [| by eapply list_elem_of_lookup_2 | done].
    by rewrite (take_pred_snoc _ j b).
Qed.

End Covers.

Section StrictBacktrace.

Context {S : Type} `{Scoring S}.
Variable scoring : S.
Variable gapScore : Z.
Variables first second : EncodedSequence.
Variable f : AlignmentMatrix.

Abbreviation backtraceFrom :=
  (StrictGlobalSequenceAligner.backtraceFrom scoring gapScore).
Abbreviation second_and_third_block :=
  (StrictGlobalSequenceAligner.second_and_third_block scoring gapScore).

Lemma second_and_third_block_descent
    (P : SequenceAlignment -> list column -> Prop)
    (d : Z -> Z -> bt_state -> result bt_state) (i j c : Z) (a : option Z) :
  (forall y b, j <> 0 -> Seq.get second (j - 1) = Ok b ->
     descent P (fun st =>
                  with_push (gap (snd st)) b (c - y) (d i (j - 1)) st)) ->
  (forall a' b p, a = Some a' -> j <> 0 -> Seq.get second (j - 1) = Ok b ->
     descent P (with_push a' b (c - p) (d (i - 1) (j - 1)))) ->
  descent P (second_and_third_block d second f i j c a).
Proof.
  intros Hsecond Hthird.
  unfold StrictGlobalSequenceAligner.second_and_third_block.
  destruct (Z.eqb_spec j 0) as [->|Hj]; cbn [negb].
  { eapply descent_ext; [|apply descent_skip].
    intros st. cbn. by destruct a. }
  destruct (AlignmentMatrix.getScore f F i (j - 1)) as [y|e] eqn:Hy;
    [|by apply descent_raise].
  destruct (Seq.get second (j - 1)) as [b|e] eqn:Hb;
    [|by apply descent_raise].
  cbn [mbind result_bind].
  assert (descent P (fun st =>
    match a with
    | Some a' =>
        p ← AlignmentMatrix.getScore f F (i - 1) (j - 1);
        if c =? p + call scoring a' b
        then with_push a' b (c - p) (d (i - 1) (j - 1)) st
        else Ok st
    | None => Ok st
    end)) as H3.
  { destruct a as [a'|]; [|apply descent_skip].
    apply descent_bind; intros p _.
    destruct (c =? p + call scoring a' b); [|apply descent_skip].
    by apply Hthird. }
  destruct (c =? y + gapScore).
  - eapply descent_ext; [|apply (descent_seq P _ _ (Hsecond y b Hj eq_refl) H3)].
    intros st. cbn.
    destruct (with_push (gap (snd st)) b (c - y) (d i (j - 1)) st); done.
  - eapply descent_ext; [|apply H3]. done.
Qed.

(** Every alignment that a descent from [(i, j)] appends holds the first
    [i] elements of [first] and the first [j] of [second]. *)
Lemma strict_backtraceFrom_descent (fuel : nat) (i j : Z) :
  0 <= i -> 0 <= j ->
  descent (covers first second i j)
    (backtraceFrom fuel first second f i j).
Proof.
  revert i j. induction fuel as [|fuel IH]; intros i j Hi Hj.
  { apply descent_raise. }
  cbn [StrictGlobalSequenceAligner.backtraceFrom].
  destruct (Z.eqb_spec i 0) as [->|Hi0];
    [destruct (Z.eqb_spec j 0) as [->|Hj0]|]; cbn [andb negb].
  - apply descent_finalize. apply covers_nil.
  - apply descent_bind; intros c _. cbn [mbind result_bind].
    apply second_and_third_block_descent; [|done].
    intros y b _ Hb.
    apply (descent_with_push_from _
             (covers first second 0 (j - 1)) gap (fun _ => b));
      [apply IH; lia|].
    intros al cols. apply covers_gap_in_first; [lia | done].
  - apply descent_bind; intros c _.
    apply descent_bind; intros xa Hxa.
    apply bind_Ok_inv in Hxa as (x & Hx & Hxa).
    apply bind_Ok_inv in Hxa as (a & Ha & [= <-]).
    assert (descent (covers first second i j)
              (second_and_third_block (backtraceFrom fuel first second f)
                 second f i j c (Some a))) as Hrest.
    { apply second_and_third_block_descent.
      - intros y b Hj0 Hb.
        apply (descent_with_push_from _
                 (covers first second i (j - 1)) gap (fun _ => b));
          [apply IH; lia|].
        intros al cols. apply covers_gap_in_first; [lia | done].
      - intros a' b p [= <-] Hj0 Hb.
        eapply descent_with_push; [apply IH; lia|].
        intros al cols. apply covers_diagonal; try done; lia. }
    destruct (c =? x + gapScore); [|done].
    apply (descent_with_push_from _
             (covers first second (i - 1) j) (fun _ => a) gap);
      [apply IH; lia|].
    intros al cols. apply covers_gap_in_second; [lia | done].
Qed.

End StrictBacktrace.

Lemma fruitful_with_push (a b s : Z) (d : bt_state -> result bt_state) :
  fruitful d -> fruitful (with_push a b s d).
Proof.
  intros Hd [als al]. unfold with_push. cbn [fst snd].
  destruct (Hd (als, SequenceAlignment.push al a b s)) as (new & -> & Hne).
  cbn. rewrite pop_push. cbn. eauto.
Qed.

Lemma max3_cases (a b c : Z) :
  max3 a b c = a \/ max3 a b c = b \/ max3 a b c = c.
Proof. unfold max3. lia. Qed.

Section StrictTotal.

Context {S : Type} `{Scoring S}.
Variable scoring : S.
Variable gapScore : Z.
Variables first second : EncodedSequence.
Variable f : AlignmentMatrix.
Variables m n : Z.

Hypothesis Hws : well_shaped f m n.
Hypothesis Hm : m = Seq.len first + 1.
Hypothesis Hn : n = Seq.len second + 1.
Hypothesis Hrec : forall i j, 1 <= i < m -> 1 <= j < n ->
  strict_rec scoring gapScore first second f i j.
Hypothesis Hborder : forall i j, 0 <= i < m -> 0 <= j < n ->
  i = 0 \/ j = 0 -> scoreAt f F i j = (i + j) * gapScore.

Abbreviation backtraceFrom :=
  (StrictGlobalSequenceAligner.backtraceFrom scoring gapScore).

(** On the filled matrix, a descent from any cell reaches [(0, 0)]:
    it raises nothing and appends at least one alignment. *)
Lemma strict_backtraceFrom_fruitful (fuel : nat) (i j : Z) :
  0 <= i < m -> 0 <= j < n -> (Z.to_nat i + Z.to_nat j < fuel)%nat ->
  fruitful (backtraceFrom fuel first second f i j).
Proof.
  assert (1 <= m) as Hm1 by (unfold Seq.len in Hm; lia).
  assert (1 <= n) as Hn1 by (unfold Seq.len in Hn; lia).
  revert i j.
  induction fuel as [|fuel IH]; intros i j Hi Hj Hfuel; [lia|].
  intros [als al]. cbn [StrictGlobalSequenceAligner.backtraceFrom].
  destruct (Z.eqb_spec i 0) as [->|Hi0];
    [destruct (Z.eqb_spec j 0) as [->|Hj0]|]; cbn [andb negb].
  - exists [SequenceAlignment.reversed al]. done.
  - run_store m n.
    unfold StrictGlobalSequenceAligner.second_and_third_block.
    destruct (Z.eqb_spec j 0) as [|_]; [done|]. cbn [negb].
    run_store m n.
    rewrite (Hborder 0 j) by lia. rewrite (Hborder 0 (j - 1)) by lia.
    destruct (Z.eqb_spec ((0 + j) * gapScore)
                         ((0 + (j - 1)) * gapScore + gapScore))
      as [_|Hne]; [|exfalso; apply Hne; ring].
    destruct (fruitful_with_push (gap al) (elt second (j - 1))
                ((0 + j) * gapScore - (0 + (j - 1)) * gapScore)
                (backtraceFrom fuel first second f 0 (j - 1))
                ltac:(apply IH; lia) (als, al)) as (new & Hr & Hnew).
    cbn [fst snd] in *. rewrite Hr. cbn. eauto.
  - run_store m n.
    destruct (Z.eqb_spec (scoreAt f F i j)
                         (scoreAt f F (i - 1) j + gapScore)) as [_|Hgb].
    { refine (fruitful_with_push _ _ _ _ _ (als, al)). apply IH; lia. }
    destruct (decide (j = 0)) as [->|Hj0].
    { exfalso. apply Hgb.
      rewrite (Hborder i 0) by lia. rewrite (Hborder (i - 1) 0) by lia.
      ring. }
    unfold StrictGlobalSequenceAligner.second_and_third_block.
    destruct (Z.eqb_spec j 0) as [|_]; [done|]. cbn [negb].
    run_store m n.
    pose proof (Hrec i j ltac:(lia) ltac:(lia)) as Hc.
    unfold strict_rec in Hc.
    destruct (Z.eqb_spec (scoreAt f F i j)
                         (scoreAt f F i (j - 1) + gapScore)) as [_|Hga].
    + destruct (fruitful_with_push (gap al) (elt second (j - 1))
                  (scoreAt f F i j - scoreAt f F i (j - 1))
                  (backtraceFrom fuel first second f i (j - 1))
                  ltac:(apply IH; lia) (als, al)) as (new & Hr & Hnew).
      cbn [fst snd] in *. rewrite Hr. cbn [mbind result_bind].
      run_store m n.
      destruct (_ =? _).
      * destruct (fruitful_with_push (elt first (i - 1))
                    (elt second (j - 1))
                    (scoreAt f F i j - scoreAt f F (i - 1) (j - 1))
                    (backtraceFrom fuel first second f (i - 1) (j - 1))
                    ltac:(apply IH; lia) (als ++ new, al))
          as (new' & Hr' & _).
        cbn [fst snd] in *. rewrite Hr'. exists (new ++ new').
        rewrite app_assoc. split; [done|].
        intros Hnil. apply app_eq_nil in Hnil as [? _]. done.
      * eauto.
    + cbn [mbind result_bind]. run_store m n.
      destruct (Z.eqb_spec (scoreAt f F i j)
                  (scoreAt f F (i - 1) (j - 1)
                   + call scoring (elt first (i - 1))
                          (elt second (j - 1)))) as [_|Hab].
      * refine (fruitful_with_push _ _ _ _ _ (als, al)). apply IH; lia.
      * exfalso.
        destruct (max3_cases
                    (scoreAt f F (i - 1) (j - 1)
                     + call scoring (elt first (i - 1))
                            (elt second (j - 1)))
                    (scoreAt f F i (j - 1) + gapScore)
                    (scoreAt f F (i - 1) j + gapScore))
          as [Hx|[Hx|Hx]]; rewrite Hx in Hc; congruence.
Qed.

End StrictTotal.

Lemma Seq_get_pred_ok (s : EncodedSequence) (i : Z) :
  0 <= i <= Seq.len s -> 1 <= Seq.len s -> exists a, Seq.get s (i - 1) = Ok a.
Proof.
  intros Hi Hlen. destruct (decide (i = 0)) as [->|Hi0].
  - unfold Seq.get, Seq.len in *.
    destruct (lookup_lt_is_Some_2 (elements s) (length (elements s) - 1))
      as [x Hx]; [lia|].
    exists x. by apply py_get_last.
  - exists (elt s (i - 1)). apply Seq_get_elt. lia.
Qed.

Lemma border_dir_nil (t : MatrixType) (i j : Z) :
  local_border_score t i j <> 0 -> local_border_dir t i j = [].
Proof.
  unfold local_border_score, local_border_dir.
  destruct ((i =? 0) && (j =? 0)); [done|].
  destruct (j =? 0); destruct t; done.
Qed.


Section LocalBacktrace.

Context {S : Type} `{Scoring S} `{GapScoring S}.
Variable scoring : S.
Variables first second : EncodedSequence.
Variable f : AlignmentMatrix.

Abbreviation backtraceFrom := (@LocalSequenceAligner.backtraceFrom).

Lemma local_backtraceFrom_descent (fuel : nat) (i j : Z) (current : MatrixType) :
  descent any_columns
    (fun st => backtraceFrom fuel first second f i j st current).
Proof.
  revert i j current. induction fuel as [|fuel IH]; intros i j current.
  { apply descent_raise. }
  cbn [LocalSequenceAligner.backtraceFrom].
  apply descent_bind; intros c0 _.
  destruct (c0 =? 0); [by apply descent_finalize|].
  apply descent_bind; intros directions _.
  apply descent_bind; intros c _.
  apply descent_bind; intros a _.
  apply descent_bind; intros b _.
  destruct current.
  - apply descent_foldM; intros dir _.
    apply descent_bind; intros p _.
    eapply descent_with_push; [apply IH | done].
  - apply descent_foldM; intros dir _.
    apply descent_bind; intros y _.
    apply (descent_with_push_from any_columns any_columns
             gap (fun _ => b)); [apply IH | done].
  - apply descent_foldM; intros dir _.
    apply descent_bind; intros x _.
    apply (descent_with_push_from any_columns any_columns
             (fun _ => a) gap); [apply IH | done].
Qed.

(** From a cell whose score is not 0, every appended alignment has at
    least one column more than the accumulator. *)
Lemma local_backtraceFrom_nonzero (fuel : nat) (i j c : Z)
    (current : MatrixType) :
  AlignmentMatrix.getScore f current i j = Ok c -> c <> 0 ->
  descent some_columns
    (fun st =>
       backtraceFrom (Datatypes.S fuel) first second f i j st current).
Proof.
  intros Hc Hc0. cbn [LocalSequenceAligner.backtraceFrom].
  rewrite Hc. cbn [mbind result_bind].
  destruct (Z.eqb_spec c 0); [done|].
  apply descent_bind; intros directions _.
  apply descent_bind; intros a _.
  apply descent_bind; intros b _.
  destruct current.
  - apply descent_foldM; intros dir _.
    apply descent_bind; intros p _.
    eapply descent_with_push; [apply local_backtraceFrom_descent | done].
  - apply descent_foldM; intros dir _.
    apply descent_bind; intros y _.
    apply (descent_with_push_from some_columns any_columns
             gap (fun _ => b)); [apply local_backtraceFrom_descent | done].
  - apply descent_foldM; intros dir _.
    apply descent_bind; intros x _.
    apply (descent_with_push_from some_columns any_columns
             (fun _ => a) gap); [apply local_backtraceFrom_descent | done].
Qed.

Variables m n : Z.
Hypothesis Hws : well_shaped f m n.
Hypothesis Hm : m = Seq.len first + 1.
Hypothesis Hn : n = Seq.len second + 1.
Hypothesis Hborder : forall t i j, 0 <= i < m -> 0 <= j < n ->
  i = 0 \/ j = 0 ->
  scoreAt f t i j = local_border_score t i j
  /\ dirAt f t i j = local_border_dir t i j.

(** On the filled matrix, a descent from a cell of the matrix raises
    nothing, given a budget above [i + j]; from a cell of the first row
    or column whose score is not 0, both sequences must be non-empty. *)
Lemma local_backtraceFrom_total (fuel : nat) (i j : Z) (current : MatrixType) :
  0 <= i < m -> 0 <= j < n -> (Z.to_nat i + Z.to_nat j < fuel)%nat ->
  (2 <= m /\ 2 <= n) \/ scoreAt f current i j = 0 ->
  total (fun st => backtraceFrom fuel first second f i j st current).
Proof.
  revert i j current.
  induction fuel as [|fuel IH]; intros i j current Hi Hj Hfuel Hne; [lia|].
  intros st. cbn [LocalSequenceAligner.backtraceFrom].
  run_store m n.
  destruct (Z.eqb_spec (scoreAt f current i j) 0) as [|Hc0]; [eauto|].
  destruct Hne as [[Hm2 Hn2]|]; [|done].
  destruct (Seq_get_pred_ok first i) as [a Ha]; [lia | lia |].
  destruct (Seq_get_pred_ok second j) as [b Hb]; [lia | lia |].
  rewrite Ha, Hb. run_store m n.
  destruct (decide (i = 0 \/ j = 0)) as [Hb0|Hin].
  { destruct (Hborder current i j Hi Hj Hb0) as [Hs Hd].
    rewrite Hd, border_dir_nil by congruence.
    destruct current; cbn; eauto. }
  destruct current.
  - apply total_foldM. intros dir _ st'. run_store m n.
    eapply total_with_push; [apply local_backtraceFrom_descent|].
    apply IH; first [lia | by left].
  - apply total_foldM. intros dir _ st'. run_store m n.
    eapply total_with_push; [apply local_backtraceFrom_descent|].
    apply IH; first [lia | by left].
  - apply total_foldM. intros dir _ st'. run_store m n.
    eapply total_with_push; [apply local_backtraceFrom_descent|].
    apply IH; first [lia | by left].
Qed.

End LocalBacktrace.

(** ** The maximum of a matrix *)

Lemma foldl_max_spec (l : list Z) (x : Z) :
  (forall y, y ∈ x :: l -> y <= foldl Z.max x l) /\ foldl Z.max x l ∈ x :: l.
Proof.
  revert x. induction l as [|z l IH]; intros x; cbn.
  - split; [|left]. intros y Hy. apply list_elem_of_singleton in Hy. lia.
  - destruct (IH (Z.max x z)) as [Hle Hin]. split.
    + intros y Hy.
      assert (Z.max x z <= foldl Z.max (Z.max x z) l) by (apply Hle; left).
      apply elem_of_cons in Hy as [->|Hy]; [lia|].
      apply elem_of_cons in Hy as [->|Hy]; [lia|].
      apply Hle. by right.
    + apply elem_of_cons in Hin as [Heq|Hin].
      * rewrite Heq. destruct (Z.max_spec x z) as [[_ ->]|[_ ->]].
        -- right; left.
        -- left.
      * right; by right.
Qed.

Lemma py_max_spec (l : list Z) :
  l <> [] ->
  exists v, py_max l = Ok v /\ (forall y, y ∈ l -> y <= v) /\ v ∈ l.
Proof.
  destruct l as [|x l]; [done|]. intros _. cbn.
  destruct (foldl_max_spec l x). eauto.
Qed.

Lemma row_maxima (rows : list (list Z)) (acc : list Z) :
  Forall (fun row => row <> []) rows ->
  exists ms,
    foldM (fun acc row => x ← py_max row; Ok (acc ++ [x])) rows acc
    = Ok (acc ++ ms)
    /\ Forall2 (fun row x => (forall y, y ∈ row -> y <= x) /\ x ∈ row)
               rows ms.
Proof.
  revert acc. induction rows as [|row rows IH]; intros acc Hne.
  - exists []. cbn. by rewrite app_nil_r.
  - apply Forall_cons in Hne as [Hrow Hrows].
    destruct (py_max_spec row Hrow) as (x & Hx & Hle & Hin).
    destruct (IH (acc ++ [x]) Hrows) as (ms & Hms & Hall).
    exists (x :: ms). cbn. rewrite Hx. cbn. rewrite Hms.
    rewrite <- app_assoc. split; [done|]. by constructor.
Qed.

Lemma max_of_rows_spec (m n : Z) (rows : list (list Z)) :
  rect m n rows -> 1 <= m -> 1 <= n ->
  exists v,
    AlignmentMatrix.max_of_rows rows = Ok v
    /\ (forall i j, 0 <= i < m -> 0 <= j < n -> cell 0 rows i j <= v)
    /\ (exists i j, 0 <= i < m /\ 0 <= j < n /\ cell 0 rows i j = v).
Proof.
  intros Hrect Hm Hn. unfold AlignmentMatrix.max_of_rows.
  destruct (row_maxima rows []) as (ms & -> & Hall).
  { destruct Hrect as [_ Hrows]. eapply Forall_impl; [exact Hrows|].
    intros row Hlen ->. cbn in Hlen. lia. }
  cbn [mbind result_bind app].
  destruct (py_max_spec ms) as (v & -> & Hle & Hin).
  { apply Forall2_length in Hall. destruct Hrect as [Hlen _].
    intros ->. cbn in Hall. lia. }
  exists v. split; [done|]. split.
  - intros i j Hi Hj.
    destruct (rect_lookup _ _ _ _ _ Hrect Hi Hj) as (row & x & Hrow & Hx).
    unfold cell. rewrite Hrow. cbn. rewrite Hx. cbn.
    destruct (Forall2_lookup_l _ _ _ _ _ Hall Hrow) as (mx & Hmx & Hrmax & _).
    transitivity mx.
    + apply Hrmax. by eapply list_elem_of_lookup_2.
    + apply Hle. by eapply list_elem_of_lookup_2.
  - apply list_elem_of_lookup_1 in Hin as [i Hi].
    destruct (Forall2_lookup_r _ _ _ _ _ Hall Hi) as (row & Hrow & _ & Hvin).
    apply list_elem_of_lookup_1 in Hvin as [j Hj].
    exists (Z.of_nat i), (Z.of_nat j).
    pose proof (lookup_lt_Some _ _ _ Hrow) as Hlt1.
    pose proof (lookup_lt_Some _ _ _ Hj) as Hlt2.
    rewrite (rect_row _ _ _ _ _ Hrect Hrow) in Hlt2.
    destruct Hrect as [Hlen _].
    split; [lia|]. split; [lia|].
    unfold cell. rewrite !Nat2Z.id, Hrow. cbn. by rewrite Hj.
Qed.

Lemma matrix_max_spec (f : AlignmentMatrix) (m n : Z) :
  well_shaped f m n -> 1 <= m -> 1 <= n ->
  exists v,
    AlignmentMatrix.max f = Ok v
    /\ (forall t i j, 0 <= i < m -> 0 <= j < n -> scoreAt f t i j <= v)
    /\ (exists t i j, 0 <= i < m /\ 0 <= j < n /\ scoreAt f t i j = v).
Proof.
  intros [_ Hws] Hm Hn. unfold AlignmentMatrix.max.
  destruct (max_of_rows_spec m n _ (proj1 (Hws F)) Hm Hn)
    as (a & -> & Hale & (ia & ja & Hia & Hja & Ha)).
  destruct (max_of_rows_spec m n _ (proj1 (Hws IX)) Hm Hn)
    as (b & -> & Hble & (ib & jb & Hib & Hjb & Hb)).
  destruct (max_of_rows_spec m n _ (proj1 (Hws IY)) Hm Hn)
    as (c & -> & Hcle & (ic & jc & Hic & Hjc & Hc)).
  cbn. exists (max3 a b c). split; [done|]. split.
  - intros t i j Hi Hj. unfold scoreAt, max3.
    destruct t; [specialize (Hale i j Hi Hj) | specialize (Hble i j Hi Hj)
                | specialize (Hcle i j Hi Hj)]; lia.
  - destruct (max3_cases a b c) as [-> | [-> | ->]].
    + exists F, ia, ja. done.
    + exists IX, ib, jb. done.
    + exists IY, ic, jc. done.
Qed.

(** ** Loops over the cells of a matrix *)

Lemma foldM_fmap {S X Y : Type} (body : S -> Y -> result S) (g : X -> Y)
    (l : list X) (s : S) :
  foldM body (g <$> l) s = foldM (fun s x => body s (g x)) l s.
Proof.
  revert s. induction l as [|x l IH]; intros s; cbn; [done|].
  destruct (body s (g x)); cbn; [apply IH | done].
Qed.

Lemma foldM_cells {S : Type} (body : S -> Z -> Z -> result S) (m n : Z)
    (s : S) :
  foldM (fun s i => foldM (fun s j => body s i j) (range 0 n) s)
        (range 0 m) s
  = foldM (fun s c => body s (fst c) (snd c)) (cells m n) s.
Proof.
  unfold cells. generalize (range 0 m) as rows. intros rows.
  revert s. induction rows as [|i rows IH]; intros s; cbn; [done|].
  rewrite foldM_app, foldM_fmap. cbn [fst snd].
  destruct (foldM _ (range 0 n) s); cbn; [apply IH | done].
Qed.

Lemma elem_of_range (a b k : Z) : k ∈ range a b <-> a <= k < b.
Proof. unfold range. rewrite elem_of_seqZ. lia. Qed.

Lemma elem_of_cells (m n i j : Z) :
  (i, j) ∈ cells m n <-> 0 <= i < m /\ 0 <= j < n.
Proof.
  unfold cells. rewrite list_elem_of_bind. split.
  - intros (i' & Hj & Hi). apply list_elem_of_fmap in Hj as (j' & [= -> ->] & Hj).
    apply elem_of_range in Hi, Hj. lia.
  - intros [Hi Hj]. exists i. split; [|by apply elem_of_range].
    apply list_elem_of_fmap. exists j. split; [done | by apply elem_of_range].
Qed.

Lemma Seq_len_nonneg (s : EncodedSequence) : 0 <= Seq.len s.
Proof. unfold Seq.len. lia. Qed.

Lemma tying_nonempty (a b c : Z) : tying a b c (max3 a b c) <> [].
Proof.
  unfold tying. cbn.
  destruct (Z.eqb_spec a (max3 a b c)); [done|].
  destruct (Z.eqb_spec b (max3 a b c)); [done|].
  destruct (Z.eqb_spec c (max3 a b c)); [done|].
  destruct (max3_cases a b c) as [? | [? | ?]]; congruence.
Qed.

Lemma eqb_succ_pred (x : Z) : (x =? x + 1 - 1) = true.
Proof. apply Z.eqb_eq. lia. Qed.

(** C2: in the matrix of the affine global fill, the GapInFirst score of
    the last row (i = len(first)) at column j >= 1 is the maximum of the
    three scores at (i, j - 1), with no gap cost added; and the
    GapInSecond score of the last column (j = len(second)) at row i >= 1
    is the maximum of the three scores at (i - 1, j). *)
Theorem global_fill_free_trailing_gap {S : Type} `{Scoring S} `{GapScoring S}
    (scoring : S) (first second : EncodedSequence) :
  exists f,
    GlobalSequenceAligner.computeAlignmentMatrix scoring first second = Ok f
    /\ (forall j, 1 <= j <= Seq.len second ->
          exists a b c,
            AlignmentMatrix.getScore f F (Seq.len first) (j - 1) = Ok a
            /\ AlignmentMatrix.getScore f IX (Seq.len first) (j - 1) = Ok b
            /\ AlignmentMatrix.getScore f IY (Seq.len first) (j - 1) = Ok c
            /\ AlignmentMatrix.getScore f IX (Seq.len first) j
               = Ok (max3 a b c))
    /\ (forall i, 1 <= i <= Seq.len first ->
          exists a b c,
            AlignmentMatrix.getScore f F (i - 1) (Seq.len second) = Ok a
            /\ AlignmentMatrix.getScore f IX (i - 1) (Seq.len second) = Ok b
            /\ AlignmentMatrix.getScore f IY (i - 1) (Seq.len second) = Ok c
            /\ AlignmentMatrix.getScore f IY i (Seq.len second)
               = Ok (max3 a b c)).
Proof.
  destruct (global_computeAlignmentMatrix_ok scoring first second)
    as (f & Hf & Hws & Hrec & Hborder).
  pose proof (Seq_len_nonneg first) as Hlf.
  pose proof (Seq_len_nonneg second) as Hls.
  set (m := Seq.len first + 1) in Hws.
  set (n := Seq.len second + 1) in Hws.
  assert (m = Seq.len first + 1) as Hm by done.
  assert (n = Seq.len second + 1) as Hn by done.
  clearbody m n.
  exists f. split; [done|]. split.
  - intros j Hj. do 3 eexists.
    rewrite !(getScore_ok f m n Hws) by lia.
    do 3 (split; [reflexivity|]). f_equal.
    destruct (decide (Seq.len first = 0)) as [Hz|Hnz].
    + rewrite Hz.
      rewrite (proj1 (Hborder IX 0 j ltac:(lia) ltac:(lia) ltac:(lia))).
      rewrite (proj1 (Hborder F 0 (j - 1) ltac:(lia) ltac:(lia) ltac:(lia))).
      rewrite (proj1 (Hborder IX 0 (j - 1) ltac:(lia) ltac:(lia) ltac:(lia))).
      rewrite (proj1 (Hborder IY 0 (j - 1) ltac:(lia) ltac:(lia) ltac:(lia))).
      done.
    + destruct (Hrec (Seq.len first) j ltac:(lia) ltac:(lia))
        as (_ & _ & Hix & _).
      rewrite !eqb_succ_pred in Hix. rewrite Hix. lia.
  - intros i Hi. do 3 eexists.
    rewrite !(getScore_ok f m n Hws) by lia.
    do 3 (split; [reflexivity|]). f_equal.
    destruct (decide (Seq.len second = 0)) as [Hz|Hnz].
    + rewrite Hz.
      rewrite (proj1 (Hborder IY i 0 ltac:(lia) ltac:(lia) ltac:(lia))).
      rewrite (proj1 (Hborder F (i - 1) 0 ltac:(lia) ltac:(lia) ltac:(lia))).
      rewrite (proj1 (Hborder IX (i - 1) 0 ltac:(lia) ltac:(lia) ltac:(lia))).
      rewrite (proj1 (Hborder IY (i - 1) 0 ltac:(lia) ltac:(lia) ltac:(lia))).
      done.
    + destruct (Hrec i (Seq.len second) ltac:(lia) ltac:(lia))
        as (_ & _ & _ & _ & Hiy & _).
      rewrite !eqb_succ_pred in Hiy. rewrite Hiy. lia.
Qed.

Lemma global_fill_free_trailing_gap_witness :
  exists f,
    GlobalSequenceAligner.computeAlignmentMatrix
      (mkSimpleScoring 2 (-1) (-2) (-1)) (mkSeq [1] 0) (mkSeq [1; 2] 1) = Ok f
    /\ 1 <= 2 <= Seq.len (mkSeq [1; 2] 1)
    /\ exists a b c,
         AlignmentMatrix.getScore f F 1 1 = Ok a
         /\ AlignmentMatrix.getScore f IX 1 1 = Ok b
         /\ AlignmentMatrix.getScore f IY 1 1 = Ok c
         /\ AlignmentMatrix.getScore f IX 1 2 = Ok (max3 a b c).
Proof.
  destruct (global_fill_free_trailing_gap
              (mkSimpleScoring 2 (-1) (-2) (-1)) (mkSeq [1] 0)
              (mkSeq [1; 2] 1)) as (f & Hf & Hix & _).
  exists f. split; [exact Hf|].
  assert (1 <= 2 <= Seq.len (mkSeq [1; 2] 1)) as Hj by (unfold Seq.len; cbn; lia).
  split; [exact Hj|]. exact (Hix 2 Hj).
Defined.

(** C4, amended: in the matrix of the affine local fill the Match score is
    never negative at an inner cell (i >= 1 and j >= 1) and at (0, 0); the
    other cells of the first row and of the first column hold the
    sentinel - sys.maxsize. *)
Theorem local_fill_match_floor {S : Type} `{Scoring S} `{GapScoring S}
    (scoring : S) (first second : EncodedSequence) :
  exists f,
    LocalSequenceAligner.computeAlignmentMatrix scoring first second = Ok f
    /\ (forall i j, 1 <= i <= Seq.len first -> 1 <= j <= Seq.len second ->
          exists v, AlignmentMatrix.getScore f F i j = Ok v /\ 0 <= v)
    /\ AlignmentMatrix.getScore f F 0 0 = Ok 0
    /\ (forall i, 1 <= i <= Seq.len first ->
          AlignmentMatrix.getScore f F i 0 = Ok (- sys_maxsize))
    /\ (forall j, 1 <= j <= Seq.len second ->
          AlignmentMatrix.getScore f F 0 j = Ok (- sys_maxsize)).
Proof.
  destruct (local_computeAlignmentMatrix_ok scoring first second)
    as (f & Hf & Hws & Hrec & Hborder).
  pose proof (Seq_len_nonneg first) as Hlf.
  pose proof (Seq_len_nonneg second) as Hls.
  remember (Seq.len first + 1) as m eqn:Hm.
  remember (Seq.len second + 1) as n eqn:Hn.
  exists f. split; [done|]. repeat split.
  - intros i j Hi Hj. eexists.
    rewrite (getScore_ok f m n Hws) by lia. split; [reflexivity|].
    destruct (Hrec i j ltac:(lia) ltac:(lia)) as (-> & _). lia.
  - rewrite (getScore_ok f m n Hws) by lia.
    by rewrite (proj1 (Hborder F 0 0 ltac:(lia) ltac:(lia) ltac:(lia))).
  - intros i Hi. rewrite (getScore_ok f m n Hws) by lia.
    rewrite (proj1 (Hborder F i 0 ltac:(lia) ltac:(lia) ltac:(lia))).
    rewrite local_border_score_column by lia. done.
  - intros j Hj. rewrite (getScore_ok f m n Hws) by lia.
    rewrite (proj1 (Hborder F 0 j ltac:(lia) ltac:(lia) ltac:(lia))).
    rewrite local_border_score_row by lia. done.
Qed.

Lemma local_fill_match_floor_witness :
  exists f,
    LocalSequenceAligner.computeAlignmentMatrix
      (mkSimpleScoring 2 (-1) (-2) (-1)) (mkSeq [1] 0) (mkSeq [2] 1) = Ok f
    /\ 1 <= 1 <= Seq.len (mkSeq [1] 0)
    /\ 1 <= 1 <= Seq.len (mkSeq [2] 1)
    /\ exists v, AlignmentMatrix.getScore f F 1 1 = Ok v /\ 0 <= v.
Proof.
  destruct (local_fill_match_floor
              (mkSimpleScoring 2 (-1) (-2) (-1)) (mkSeq [1] 0)
              (mkSeq [2] 1)) as (f & Hf & Hin & _).
  exists f. split; [exact Hf|].
  assert (1 <= 1 <= Seq.len (mkSeq [1] 0)) as Hi by (unfold Seq.len; cbn; lia).
  assert (1 <= 1 <= Seq.len (mkSeq [2] 1)) as Hj by (unfold Seq.len; cbn; lia).
  split; [exact Hi|]. split; [exact Hj|]. exact (Hin 1 1 Hi Hj).
Defined.

(** C4 as stated fails on the first column: aligning [1] with the empty
    sequence, the Match score at (1, 0) is - sys.maxsize. *)
Lemma local_match_negative_on_border :
  exists f v,
    LocalSequenceAligner.computeAlignmentMatrix
      (mkSimpleScoring 2 (-1) (-2) (-1)) (mkSeq [1] 0) (mkSeq [] 1) = Ok f
    /\ AlignmentMatrix.getScore f F 1 0 = Ok v
    /\ v < 0.
Proof.
  do 2 eexists. split; [vm_compute; reflexivity|].
  split; [vm_compute; reflexivity|]. done.
Qed.

(** C9, amended: at every inner cell of the affine local fill the Match
    score is max(0, best predecessor score + substitution score); the
    recorded predecessors are cut to the first tying state when the best
    predecessor score is not positive, and are all the tying states when
    it is positive, whether or not the floor applies. *)
Theorem local_fill_match_cell {S : Type} `{Scoring S} `{GapScoring S}
    (scoring : S) (first second : EncodedSequence) :
  exists f,
    LocalSequenceAligner.computeAlignmentMatrix scoring first second = Ok f
    /\ forall i j, 1 <= i <= Seq.len first -> 1 <= j <= Seq.len second ->
         exists pF pIx pIy a b dirs,
           AlignmentMatrix.getScore f F (i - 1) (j - 1) = Ok pF
           /\ AlignmentMatrix.getScore f IX (i - 1) (j - 1) = Ok pIx
           /\ AlignmentMatrix.getScore f IY (i - 1) (j - 1) = Ok pIy
           /\ Seq.get first (i - 1) = Ok a
           /\ Seq.get second (j - 1) = Ok b
           /\ AlignmentMatrix.getScore f F i j
              = Ok (Z.max 0 (max3 pF pIx pIy + call scoring a b))
           /\ AlignmentMatrix.getDirection f F i j = Ok dirs
           /\ (max3 pF pIx pIy <= 0 ->
                 dirs = take 1 (tying pF pIx pIy (max3 pF pIx pIy))
                 /\ length dirs = 1%nat)
           /\ (0 < max3 pF pIx pIy ->
                 dirs = tying pF pIx pIy (max3 pF pIx pIy)).
Proof.
  destruct (local_computeAlignmentMatrix_ok scoring first second)
    as (f & Hf & Hws & Hrec & Hborder).
  pose proof (Seq_len_nonneg first) as Hlf.
  pose proof (Seq_len_nonneg second) as Hls.
  remember (Seq.len first + 1) as m eqn:Hm.
  remember (Seq.len second + 1) as n eqn:Hn.
  exists f. split; [done|]. intros i j Hi Hj.
  destruct (Hrec i j ltac:(lia) ltac:(lia)) as (Hs & Hd & _).
  do 6 eexists.
  rewrite !(getScore_ok f m n Hws), (getDirection_ok f m n Hws) by lia.
  rewrite !Seq_get_elt by lia.
  do 5 (split; [reflexivity|]). split; [by rewrite Hs|].
  split; [reflexivity|]. rewrite Hd. split.
  - intros Hle. destruct (Z.ltb_spec 0 (max3 (scoreAt f F (i - 1) (j - 1))
      (scoreAt f IX (i - 1) (j - 1)) (scoreAt f IY (i - 1) (j - 1))));
      [lia|].
    split; [done|].
    pose proof (tying_nonempty (scoreAt f F (i - 1) (j - 1))
      (scoreAt f IX (i - 1) (j - 1)) (scoreAt f IY (i - 1) (j - 1))) as Hne.
    destruct (tying _ _ _ _); done.
  - intros Hlt. destruct (Z.ltb_spec 0 (max3 (scoreAt f F (i - 1) (j - 1))
      (scoreAt f IX (i - 1) (j - 1)) (scoreAt f IY (i - 1) (j - 1))));
      [done | lia].
Qed.

Lemma local_fill_match_cell_witness :
  exists f,
    LocalSequenceAligner.computeAlignmentMatrix
      (mkSimpleScoring 2 (-5) 0 0) (mkSeq [1; 2] 0) (mkSeq [1; 1; 3] 1)
    = Ok f
    /\ 1 <= 2 <= Seq.len (mkSeq [1; 2] 0)
    /\ 1 <= 3 <= Seq.len (mkSeq [1; 1; 3] 1)
    /\ exists pF pIx pIy a b dirs,
         AlignmentMatrix.getScore f F (2 - 1) (3 - 1) = Ok pF
         /\ AlignmentMatrix.getScore f IX (2 - 1) (3 - 1) = Ok pIx
         /\ AlignmentMatrix.getScore f IY (2 - 1) (3 - 1) = Ok pIy
         /\ Seq.get (mkSeq [1; 2] 0) (2 - 1) = Ok a
         /\ Seq.get (mkSeq [1; 1; 3] 1) (3 - 1) = Ok b
         /\ AlignmentMatrix.getScore f F 2 3
            = Ok (Z.max 0 (max3 pF pIx pIy
                           + call (mkSimpleScoring 2 (-5) 0 0) a b))
         /\ AlignmentMatrix.getDirection f F 2 3 = Ok dirs
         /\ (max3 pF pIx pIy <= 0 ->
               dirs = take 1 (tying pF pIx pIy (max3 pF pIx pIy))
               /\ length dirs = 1%nat)
         /\ (0 < max3 pF pIx pIy ->
               dirs = tying pF pIx pIy (max3 pF pIx pIy)).
Proof.
  destruct (local_fill_match_cell
              (mkSimpleScoring 2 (-5) 0 0) (mkSeq [1; 2] 0)
              (mkSeq [1; 1; 3] 1)) as (f & Hf & Hin).
  exists f. split; [exact Hf|].
  assert (1 <= 2 <= Seq.len (mkSeq [1; 2] 0)) as Hi by (unfold Seq.len; cbn; lia).
  assert (1 <= 3 <= Seq.len (mkSeq [1; 1; 3] 1)) as Hj by (unfold Seq.len; cbn; lia).
  split; [exact Hi|]. split; [exact Hj|]. exact (Hin 2 3 Hi Hj).
Defined.

(** C9 as stated fails: aligning [1; 2] with [1; 1; 3] (match 2,
    mismatch -5, no gap cost), the Match cell (2, 3) is floored to 0
    (best predecessor 2, substitution -5) and still records the two
    tying predecessors F and IX. *)
Lemma local_floor_keeps_ties :
  exists f,
    LocalSequenceAligner.computeAlignmentMatrix
      (mkSimpleScoring 2 (-5) 0 0) (mkSeq [1; 2] 0) (mkSeq [1; 1; 3] 1)
    = Ok f
    /\ AlignmentMatrix.getScore f F 1 2 = Ok 2
    /\ AlignmentMatrix.getScore f IX 1 2 = Ok 2
    /\ AlignmentMatrix.getScore f IY 1 2 = Ok 0
    /\ max3 2 2 0 + call (mkSimpleScoring 2 (-5) 0 0) 2 3 < 0
    /\ AlignmentMatrix.getScore f F 2 3 = Ok 0
    /\ AlignmentMatrix.getDirection f F 2 3 = Ok [F; IX].
Proof.
  eexists. split; [vm_compute; reflexivity|].
  repeat split; vm_compute; reflexivity.
Qed.

(** C10: a push followed by a pop returns the pushed pair and restores
    every field of the accumulator: the two sequences, the per-position
    score list, the total score and the four counters. *)
Theorem push_pop_restores (self : SequenceAlignment) (a b s : Z) :
  SequenceAlignment.pop (SequenceAlignment.push self a b s)
  = Ok ((a, b), self).
Proof. apply pop_push. Qed.

Lemma except_ZeroDivisionError_caught (body : result float) :
  SequenceAlignment.except_ZeroDivisionError body <> Raise ZeroDivisionError.
Proof. destruct body as [x|[]]; done. Qed.

Lemma ratio_zero (num : Z) :
  SequenceAlignment.except_ZeroDivisionError (SequenceAlignment.ratio num 0)
  = Ok 0%float.
Proof. done. Qed.

(** C7: each of the five percentage metrics returns 0.0 when its
    denominator is zero (the length of the alignment for percentIdentity,
    percentSimilarity and percentGap, the preserved count for the two
    preserved variants), and none of them ever raises
    ZeroDivisionError. *)
Theorem percent_metrics_zero_denominator (self : SequenceAlignment) :
  (SequenceAlignment.len self = Ok 0 ->
     SequenceAlignment.percentIdentity self = Ok 0%float
     /\ SequenceAlignment.percentSimilarity self = Ok 0%float
     /\ SequenceAlignment.percentGap self = Ok 0%float)
  /\ (preservedCount self = 0 ->
        SequenceAlignment.percentPreservedIdentity self = Ok 0%float
        /\ SequenceAlignment.percentPreservedSimilarity self = Ok 0%float)
  /\ SequenceAlignment.percentIdentity self <> Raise ZeroDivisionError
  /\ SequenceAlignment.percentSimilarity self <> Raise ZeroDivisionError
  /\ SequenceAlignment.percentGap self <> Raise ZeroDivisionError
  /\ SequenceAlignment.percentPreservedIdentity self
     <> Raise ZeroDivisionError
  /\ SequenceAlignment.percentPreservedSimilarity self
     <> Raise ZeroDivisionError.
Proof.
  split; [|split].
  - intros Hlen.
    unfold SequenceAlignment.percentIdentity,
      SequenceAlignment.percentSimilarity, SequenceAlignment.percentGap.
    rewrite Hlen. cbn [mbind result_bind]. by rewrite !ratio_zero.
  - intros Hp.
    unfold SequenceAlignment.percentPreservedIdentity,
      SequenceAlignment.percentPreservedSimilarity.
    rewrite Hp. by rewrite !ratio_zero.
  - repeat split; apply except_ZeroDivisionError_caught.
Qed.

Lemma percent_metrics_zero_denominator_witness :
  SequenceAlignment.len (emptyAlignment (mkSeq [1] 0) (mkSeq [2] 1)) = Ok 0
  /\ preservedCount (emptyAlignment (mkSeq [1] 0) (mkSeq [2] 1)) = 0
  /\ SequenceAlignment.percentIdentity
       (emptyAlignment (mkSeq [1] 0) (mkSeq [2] 1)) = Ok 0%float
  /\ SequenceAlignment.percentPreservedSimilarity
       (emptyAlignment (mkSeq [1] 0) (mkSeq [2] 1)) = Ok 0%float.
Proof.
  assert (SequenceAlignment.len (emptyAlignment (mkSeq [1] 0) (mkSeq [2] 1))
          = Ok 0) as Hlen by reflexivity.
  assert (preservedCount (emptyAlignment (mkSeq [1] 0) (mkSeq [2] 1)) = 0)
    as Hp by reflexivity.
  split; [exact Hlen|]. split; [exact Hp|].
  destruct (percent_metrics_zero_denominator
              (emptyAlignment (mkSeq [1] 0) (mkSeq [2] 1)))
    as (Hl & Hpr & _).
  split; [exact (proj1 (Hl Hlen)) | exact (proj2 (Hpr Hp))].
Defined.

(** ** The affine global aligner on an empty first sequence *)

(** C5, amended: aligning an empty first sequence with any second
    sequence in affine global mode returns the best score 0, whatever the
    gap costs, together with exactly one alignment, which has no column
    at all. *)
Theorem global_align_empty_first {S : Type} `{Scoring S} `{GapScoring S}
    (scoring : S) (fastBacktrace : bool) (first second : EncodedSequence) :
  elements first = [] ->
  exists al,
    GlobalSequenceAligner.align scoring fastBacktrace first second
    = Ok (0, [al])
    /\ first_elements al = []
    /\ second_elements al = []
    /\ scores al = []
    /\ gapCount al = 0.
Proof.
  intros Hempty.
  exists (SequenceAlignment.reversed (emptyAlignment first second)).
  split; [|done].
  unfold GlobalSequenceAligner.align.
  destruct (global_computeAlignmentMatrix_ok scoring first second)
    as (f & -> & Hws & _ & Hborder).
  assert (Seq.len first = 0) as Hlen by (unfold Seq.len; by rewrite Hempty).
  rewrite Hlen in Hws, Hborder. cbn [Z.add] in Hws, Hborder.
  pose proof (Seq_len_nonneg second) as Hls.
  remember (Seq.len second + 1) as n eqn:Hn.
  assert (forall t, scoreAt f t (1 - 1) (n - 1) = 0) as Hlast.
  { intros t. apply Hborder; lia. }
  rewrite bind_Ok.
  rewrite (global_bestScore_ok first second f 1 n Hws) by lia.
  rewrite !Hlast. rewrite bind_Ok.
  unfold GlobalSequenceAligner.backtrace.
  destruct Hws as [Hshape Hgrids]. rewrite Hshape.
  unfold GlobalSequenceAligner.bestTypes, all_types. cbn [foldM].
  rewrite !(global_bestScore_ok first second f 1 n (conj Hshape Hgrids))
    by lia.
  rewrite !(getScore_last f 1 n (conj Hshape Hgrids)) by lia.
  rewrite !Hlast. cbn [mbind result_bind max3 Z.max Z.compare Z.leb app].
  unfold depth. destruct fastBacktrace; reflexivity.
Qed.

Lemma global_align_empty_first_witness :
  elements (mkSeq [] 0) = []
  /\ exists al,
       GlobalSequenceAligner.align (mkSimpleScoring 2 (-1) (-2) (-1)) false
         (mkSeq [] 0) (mkSeq [1; 2; 3] 1) = Ok (0, [al])
       /\ first_elements al = []
       /\ second_elements al = []
       /\ scores al = []
       /\ gapCount al = 0.
Proof.
  split; [reflexivity|].
  apply (global_align_empty_first (mkSimpleScoring 2 (-1) (-2) (-1)) false
           (mkSeq [] 0) (mkSeq [1; 2; 3] 1)).
  reflexivity.
Defined.

(** C5 as stated fails: with gap-open cost -2 and gap-extension cost -1,
    aligning the empty sequence with [1] returns the score 0, not
    g + (n - 1) * e = -2. *)
Lemma global_empty_first_score_is_zero :
  exists sc als,
    GlobalSequenceAligner.align (mkSimpleScoring 2 (-1) (-2) (-1)) false
      (mkSeq [] 0) (mkSeq [1] 1) = Ok (sc, als)
    /\ sc <> gapStartScore (mkSimpleScoring 2 (-1) (-2) (-1))
             + (Seq.len (mkSeq [1] 1) - 1)
               * gapExtensionScore (mkSimpleScoring 2 (-1) (-2) (-1)).
Proof. do 2 eexists. split; [reflexivity|]. done. Qed.

(** ** Where the affine global backtrace stops *)

Lemma finalize_changes (st : bt_state) : finalize st <> st.
Proof.
  destruct st as [als al]. unfold finalize. cbn. intros [= Heq].
  apply (f_equal length) in Heq. rewrite length_app in Heq. cbn in Heq. lia.
Qed.

(** C3 as stated fails: aligning the empty sequence with [1], the call at
    cell (0, 1) in state Match makes no recursive call (a budget of one
    call is enough) and appends the alignment: the recursion stops at a
    cell that is not (0, 0). *)
Lemma global_backtrace_stops_off_origin :
  GlobalSequenceAligner.backtraceFrom false 1 (mkSeq [] 0) (mkSeq [1] 1)
    (AlignmentMatrix.init (1, 2)) 0 1
    ([], emptyAlignment (mkSeq [] 0) (mkSeq [1] 1)) F
  = Ok ([SequenceAlignment.reversed
           (emptyAlignment (mkSeq [] 0) (mkSeq [1] 1))],
        emptyAlignment (mkSeq [] 0) (mkSeq [1] 1))
  /\ (0, 1) <> (0, 0)
  /\ GlobalSequenceAligner.computeAlignmentMatrix
       (mkSimpleScoring 2 (-1) (-2) (-1)) (mkSeq [] 0) (mkSeq [1] 1)
     = Ok (AlignmentMatrix.init (1, 2)).
Proof. split; [reflexivity|]. split; [done | reflexivity]. Qed.

(** ** What every returned alignment records *)

Lemma reversed_push_all_sum (al : SequenceAlignment) (cols : list column) :
  sum_scores (scores al) = score al ->
  sum_scores (scores (SequenceAlignment.reversed (push_all al cols)))
  = score (SequenceAlignment.reversed (push_all al cols)).
Proof.
  intros Hal. cbn [SequenceAlignment.reversed scores score].
  destruct (push_all_fields al cols) as (_ & _ & -> & -> & _).
  rewrite sum_scores_app. lia.
Qed.

Lemma emptyAlignment_sum (first second : EncodedSequence) :
  sum_scores (scores (emptyAlignment first second))
  = score (emptyAlignment first second).
Proof. done. Qed.

Lemma traces_sum (first second : EncodedSequence)
    (als : list SequenceAlignment) :
  Forall (fun x => exists cols,
            x = SequenceAlignment.reversed
                  (push_all (emptyAlignment first second) cols)) als ->
  Forall (fun al => sum_scores (scores al) = score al) als.
Proof.
  intros Hall. eapply Forall_impl; [exact Hall|]. intros x (cols & ->).
  apply reversed_push_all_sum, emptyAlignment_sum.
Qed.

(** A descent of the linear-gap backtrace, whatever the matrix and the
    cell. *)
Lemma strict_backtraceFrom_descent_any {S : Type} `{Scoring S} (scoring : S)
    (gapScore : Z) (first second : EncodedSequence) (f : AlignmentMatrix)
    (fuel : nat) (i j : Z) :
  descent any_columns
    (StrictGlobalSequenceAligner.backtraceFrom scoring gapScore fuel
       first second f i j).
Proof.
  revert i j. induction fuel as [|fuel IH]; intros i j.
  { apply descent_raise. }
  cbn [StrictGlobalSequenceAligner.backtraceFrom].
  destruct ((i =? 0) && (j =? 0)); [by apply descent_finalize|].
  apply descent_bind; intros c _.
  apply descent_bind; intros xa _.
  assert (forall a, descent any_columns
            (StrictGlobalSequenceAligner.second_and_third_block scoring
               gapScore
               (StrictGlobalSequenceAligner.backtraceFrom scoring gapScore
                  fuel first second f) second f i j c a)) as Hrest.
  { intros a. apply second_and_third_block_descent.
    - intros y b _ _.
      apply (descent_with_push_from any_columns any_columns
               gap (fun _ => b)); [apply IH | done].
    - intros a' b p _ _ _.
      eapply descent_with_push; [apply IH | done]. }
  destruct xa as [[x a]|]; [|apply Hrest].
  destruct (c =? x + gapScore); [|apply Hrest].
  apply (descent_with_push_from any_columns any_columns (fun _ => a) gap);
    [apply IH | done].
Qed.

(** The alignments that the affine global [backtrace] returns, whatever
    the matrix it is given. *)
Lemma global_backtrace_traces (fastBacktrace : bool)
    (first second : EncodedSequence) (f : AlignmentMatrix)
    (als : list SequenceAlignment) :
  GlobalSequenceAligner.backtrace fastBacktrace first second f = Ok als ->
  Forall (fun x => exists cols,
            x = SequenceAlignment.reversed
                  (push_all (emptyAlignment first second) cols)) als.
Proof.
  unfold GlobalSequenceAligner.backtrace. destruct (shape f) as [m n].
  intros Hr. apply bind_Ok_inv in Hr as (types & _ & Hr).
  apply bind_Ok_inv in Hr as (st & Hst & [= <-]).
  eapply descent_run in Hst as (new & _ & -> & Hall).
  2:{ apply (descent_foldM any_columns). intros t _.
      apply global_backtraceFrom_descent. }
  cbn. eapply Forall_impl; [exact Hall|]. intros x (cols & -> & _). eauto.
Qed.

(** The same for the affine local [backtrace]. *)
Lemma local_backtrace_traces (minScore : option Z)
    (first second : EncodedSequence) (f : AlignmentMatrix)
    (als : list SequenceAlignment) :
  LocalSequenceAligner.backtrace minScore first second f = Ok als ->
  Forall (fun x => exists cols,
            x = SequenceAlignment.reversed
                  (push_all (emptyAlignment first second) cols)) als.
Proof.
  unfold LocalSequenceAligner.backtrace. destruct (shape f) as [m n].
  intros Hr. apply bind_Ok_inv in Hr as (thr & _ & Hr).
  apply bind_Ok_inv in Hr as (st & Hst & [= <-]).
  eapply descent_run in Hst as (new & _ & -> & Hall).
  2:{ apply (descent_foldM any_columns). intros i _.
      apply (descent_foldM any_columns). intros j _.
      apply descent_bind. intros v _.
      destruct (thr <=? v); [|apply descent_skip].
      apply local_backtraceFrom_descent. }
  cbn. eapply Forall_impl; [exact Hall|]. intros x (cols & -> & _). eauto.
Qed.

(** The same for the linear-gap [backtrace]; its columns hold all of
    [first] and all of [second]. *)
Lemma strict_backtrace_traces {S : Type} `{Scoring S} (scoring : S)
    (gapScore : Z) (first second : EncodedSequence) (f : AlignmentMatrix)
    (als : list SequenceAlignment) :
  0 <= fst (shape f) - 1 -> 0 <= snd (shape f) - 1 ->
  StrictGlobalSequenceAligner.backtrace scoring gapScore first second f
  = Ok als ->
  Forall (fun x => exists cols,
            x = SequenceAlignment.reversed
                  (push_all (emptyAlignment first second) cols)
            /\ covers first second (fst (shape f) - 1) (snd (shape f) - 1)
                 (emptyAlignment first second) cols) als.
Proof.
  unfold StrictGlobalSequenceAligner.backtrace. destruct (shape f) as [m n].
  cbn [fst snd]. intros Hm Hn Hr.
  apply bind_Ok_inv in Hr as (st & Hst & [= <-]).
  eapply descent_run in Hst as (new & _ & -> & Hall).
  2:{ by apply strict_backtraceFrom_descent. }
  done.
Qed.

Lemma covers_all (first second : EncodedSequence) (cols : list column) :
  GAP_CODE ∉ elements first -> GAP_CODE ∉ elements second ->
  covers first second (Seq.len first) (Seq.len second)
    (emptyAlignment first second) cols ->
  remove_gaps GAP_CODE
    (first_elements (SequenceAlignment.reversed
                       (push_all (emptyAlignment first second) cols)))
  = elements first
  /\ remove_gaps GAP_CODE
       (second_elements (SequenceAlignment.reversed
                           (push_all (emptyAlignment first second) cols)))
     = elements second.
Proof.
  intros Hg1 Hg2 Hc. destruct (Hc Hg1 Hg2) as [Hc1 Hc2].
  cbn [gap emptyAlignment SequenceAlignment.init] in Hc1, Hc2.
  rewrite first_elements_reversed, second_elements_reversed,
    first_elements_push_all, second_elements_push_all.
  destruct (elements_emptyAlignment first second) as [-> ->].
  rewrite !app_nil_l.
  rewrite !remove_gaps_reverse, Hc1, Hc2, !reverse_involutive.
  unfold Seq.len. rewrite !Nat2Z.id, !firstn_all. done.
Qed.

(** The three aligners return. *)
Lemma global_align_ok {S : Type} `{Scoring S} `{GapScoring S} (scoring : S)
    (fastBacktrace : bool) (first second : EncodedSequence) :
  exists sc als,
    GlobalSequenceAligner.align scoring fastBacktrace first second
    = Ok (sc, als).
Proof.
  unfold GlobalSequenceAligner.align.
  destruct (global_computeAlignmentMatrix_ok scoring first second)
    as (f & -> & Hws & _).
  rewrite bind_Ok.
  rewrite (global_bestScore_ok first second f _ _ Hws eq_refl eq_refl).
  rewrite bind_Ok.
  destruct (global_backtrace_ok fastBacktrace first second f _ _ Hws
              eq_refl eq_refl) as (als & -> & _).
  cbn. eauto.
Qed.

Lemma strict_align_ok {S : Type} `{Scoring S} (scoring : S) (gapScore : Z)
    (first second : EncodedSequence) :
  exists sc als,
    StrictGlobalSequenceAligner.align scoring gapScore first second
    = Ok (sc, als)
    /\ als <> [].
Proof.
  unfold StrictGlobalSequenceAligner.align.
  destruct (strict_computeAlignmentMatrix_ok scoring gapScore first second)
    as (f & -> & Hws & Hrec & Hborder).
  pose proof (Seq_len_nonneg first) as Hlf.
  pose proof (Seq_len_nonneg second) as Hls.
  rewrite bind_Ok. unfold StrictGlobalSequenceAligner.bestScore.
  rewrite (getScore_last f _ _ Hws) by lia. rewrite bind_Ok.
  unfold StrictGlobalSequenceAligner.backtrace.
  destruct Hws as [Hshape Hgrids]. rewrite Hshape.
  destruct (strict_backtraceFrom_fruitful scoring gapScore first second f
              _ _ (conj Hshape Hgrids) eq_refl eq_refl Hrec Hborder
              (depth (Seq.len first + 1 - 1) (Seq.len second + 1 - 1))
              (Seq.len first + 1 - 1) (Seq.len second + 1 - 1)
              ltac:(lia) ltac:(lia) ltac:(unfold depth; lia)
              ([], emptyAlignment first second)) as (new & -> & Hne).
  cbn. eauto.
Qed.

Lemma foldM_skip {St X : Type} (body : St -> X -> result St) (l : list X)
    (s : St) :
  (forall x, x ∈ l -> body s x = Ok s) -> foldM body l s = Ok s.
Proof.
  induction l as [|x l IH]; intros Hbody; cbn; [done|].
  rewrite Hbody by left. cbn. apply IH. intros y Hy. apply Hbody. by right.
Qed.

Lemma local_align_ok {S : Type} `{Scoring S} `{GapScoring S} (scoring : S)
    (first second : EncodedSequence) :
  exists sc als,
    LocalSequenceAligner.align scoring None first second = Ok (sc, als).
Proof.
  unfold LocalSequenceAligner.align.
  destruct (local_computeAlignmentMatrix_ok scoring first second)
    as (f & -> & Hws & _ & Hborder).
  pose proof (Seq_len_nonneg first) as Hlf.
  pose proof (Seq_len_nonneg second) as Hls.
  remember (Seq.len first + 1) as m eqn:Hm.
  remember (Seq.len second + 1) as n eqn:Hn.
  rewrite bind_Ok. unfold LocalSequenceAligner.bestScore.
  destruct (matrix_max_spec f m n Hws) as (v & Hmax & Hle & _);
    [lia | lia |].
  rewrite Hmax, bind_Ok.
  unfold LocalSequenceAligner.backtrace, LocalSequenceAligner.threshold,
    LocalSequenceAligner.bestScore.
  pose proof Hws as [Hshape _]. rewrite Hshape, Hmax, bind_Ok.
  assert (0 <= v) as Hv.
  { pose proof (Hle F 0 0 ltac:(lia) ltac:(lia)) as H00.
    by rewrite (proj1 (Hborder F 0 0 ltac:(lia) ltac:(lia) ltac:(lia)))
      in H00. }
  rewrite foldM_cells.
  destruct (total_foldM (cells m n)
    (fun st c =>
       x ← AlignmentMatrix.getScore f F (fst c) (snd c);
       if v <=? x
       then LocalSequenceAligner.backtraceFrom (depth (fst c) (snd c))
              first second f (fst c) (snd c) st F
       else Ok st)) with
    (st := ([] : list SequenceAlignment, emptyAlignment first second))
    as [r Hr].
  { intros [i j] Hc st. apply elem_of_cells in Hc as [Hi Hj]. cbn [fst snd].
    rewrite (getScore_ok f m n Hws) by lia. rewrite bind_Ok.
    destruct (Z.leb_spec v (scoreAt f F i j)) as [Hge|]; [|eauto].
    apply (local_backtraceFrom_total first second f m n Hws Hm Hn Hborder);
      [lia | lia | unfold depth; lia |].
    destruct (decide (i = 0 \/ j = 0)) as [Hb|Hin]; [|left; lia].
    right.
    rewrite (proj1 (Hborder F i j Hi Hj Hb)) in Hge |- *.
    unfold local_border_score in *.
    destruct ((i =? 0) && (j =? 0)); [done|].
    unfold sys_maxsize in Hge. destruct (j =? 0); lia. }
  rewrite Hr. cbn. eauto.
Qed.

(** ** The linear-gap backtrace *)

(** The first block of the linear-gap [backtraceFrom] ends in [return]:
    at a cell (i, j) with i >= 1 whose value is the value at (i - 1, j)
    plus the gap score, only the move to (i - 1, j) is followed, so that
    every alignment appended from this cell has the column of that move
    pushed first, whatever the other two moves would give.  And for
    every input pair the aligner returns at least one alignment. *)
Theorem strict_backtrace_first_move {S : Type} `{Scoring S} (scoring : S)
    (gapScore : Z) (first second : EncodedSequence) :
  (forall f fuel i j c x a als al r,
     1 <= i -> 0 <= j ->
     AlignmentMatrix.getScore f F i j = Ok c ->
     AlignmentMatrix.getScore f F (i - 1) j = Ok x ->
     Seq.get first (i - 1) = Ok a ->
     c = x + gapScore ->
     StrictGlobalSequenceAligner.backtraceFrom scoring gapScore
       (Datatypes.S fuel) first second f i j (als, al) = Ok r ->
     StrictGlobalSequenceAligner.backtraceFrom scoring gapScore
       (Datatypes.S fuel) first second f i j (als, al)
     = with_push a (gap al) (c - x)
         (StrictGlobalSequenceAligner.backtraceFrom scoring gapScore fuel
            first second f (i - 1) j) (als, al)
     /\ exists new,
          r = (als ++ new, al)
          /\ Forall (fun y => exists cols,
                       y = SequenceAlignment.reversed
                             (push_all al ((a, gap al, c - x) :: cols)))
                    new)
  /\ (exists sc als,
        StrictGlobalSequenceAligner.align scoring gapScore first second
        = Ok (sc, als)
        /\ als <> []).
Proof.
  split; [|apply strict_align_ok].
  intros f fuel i j c x a als al r Hi Hj Hc Hx Ha Hcx Hr.
  assert (StrictGlobalSequenceAligner.backtraceFrom scoring gapScore
            (Datatypes.S fuel) first second f i j (als, al)
          = with_push a (gap al) (c - x)
              (StrictGlobalSequenceAligner.backtraceFrom scoring gapScore
                 fuel first second f (i - 1) j) (als, al)) as Heq.
  { cbn [StrictGlobalSequenceAligner.backtraceFrom].
    destruct (Z.eqb_spec i 0) as [|_]; [lia|]. cbn [andb negb].
    rewrite Hc, Hx, Ha. cbn [mbind result_bind].
    destruct (Z.eqb_spec c (x + gapScore)); [done | congruence]. }
  split; [exact Heq|]. rewrite Heq in Hr.
  assert (descent (fun al0 cols => exists cols',
                     cols = (a, gap al0, c - x) :: cols')
            (fun st => with_push a (gap (snd st)) (c - x)
               (StrictGlobalSequenceAligner.backtraceFrom scoring gapScore
                  fuel first second f (i - 1) j) st)) as Hd.
  { apply (descent_with_push_from _ any_columns (fun _ => a) gap).
    - apply strict_backtraceFrom_descent_any.
    - intros al0 cols _. eauto. }
  destruct (descent_run _ _ _ _ _ Hd Hr) as (new & _ & -> & Hall).
  exists new. split; [done|].
  eapply Forall_impl; [exact Hall|]. intros y (cols & -> & cols' & ->). eauto.
Qed.

Lemma strict_backtrace_first_move_witness :
  exists f r,
    StrictGlobalSequenceAligner.computeAlignmentMatrix
      (mkSimpleScoring 1 0 0 0) (-1) (mkSeq [1] 0) (mkSeq [] 1) = Ok f
    /\ StrictGlobalSequenceAligner.backtraceFrom (mkSimpleScoring 1 0 0 0)
         (-1) 2 (mkSeq [1] 0) (mkSeq [] 1) f 1 0
         ([], emptyAlignment (mkSeq [1] 0) (mkSeq [] 1)) = Ok r
    /\ exists new,
         r = ([] ++ new, emptyAlignment (mkSeq [1] 0) (mkSeq [] 1))
         /\ Forall (fun y => exists cols,
                      y = SequenceAlignment.reversed
                            (push_all
                               (emptyAlignment (mkSeq [1] 0) (mkSeq [] 1))
                               ((1, gap (emptyAlignment (mkSeq [1] 0)
                                           (mkSeq [] 1)), -1 - 0) :: cols)))
                   new.
Proof.
  do 2 eexists.
  split; [vm_compute; reflexivity|].
  match goal with
  | |- ?R = Ok ?a /\ _ =>
      assert (R = Ok a) as Hr by (vm_compute; reflexivity)
  end.
  split; [exact Hr|].
  refine (proj2 (proj1 (strict_backtrace_first_move (mkSimpleScoring 1 0 0 0)
                          (-1) (mkSeq [1] 0) (mkSeq [] 1))
                   _ 1%nat 1 0 (-1) 0 1 [] _ _ _ _ _ _ _ _ Hr));
    first [lia | vm_compute; reflexivity].
Defined.

(** C6, the code at the failing input: aligning [1] with [1; 1] (match
    1, mismatch 0, gap -1), the value 0 of cell (1, 2) is reproduced both
    by the move to (1, 1), which pushes a gap against the second 1, and
    by the diagonal move to (0, 1).  The block of the first of these two
    moves does not end in [return], unlike the block before it: both
    moves are followed, and the backtrace returns two alignments, not
    one. *)
Lemma strict_backtrace_two_alignments :
  exists a1 a2,
    StrictGlobalSequenceAligner.align (mkSimpleScoring 1 0 0 0) (-1)
      (mkSeq [1] 0) (mkSeq [1; 1] 1) = Ok (0, [a1; a2])
    /\ first_elements a1 = [1; GAP_CODE] /\ second_elements a1 = [1; 1]
    /\ first_elements a2 = [GAP_CODE; 1] /\ second_elements a2 = [1; 1]
    /\ a1 <> a2.
Proof.
  do 2 eexists. split; [vm_compute; reflexivity|].
  repeat (split; [reflexivity|]). done.
Qed.

(** ** The affine local backtrace *)

Section LocalStarts.

Variables first second : EncodedSequence.
Variable f : AlignmentMatrix.
Variables m n : Z.
Hypothesis Hws : well_shaped f m n.
Variable thr : Z.

Abbreviation start := (local_start first second f thr).

(** The loop over the cells [cs] appends, cell after cell, what the
    descent from each cell at or above the threshold finds. *)
Lemma local_starts (cs : list (Z * Z)) (als : list SequenceAlignment)
    (al : SequenceAlignment) (r : bt_state) :
  (forall c, c ∈ cs -> 0 <= fst c < m /\ 0 <= snd c < n) ->
  foldM start cs (als, al) = Ok r ->
  exists parts,
    r = (als ++ concat parts, al)
    /\ Forall2 (fun c part =>
                  LocalSequenceAligner.backtraceFrom
                    (depth (fst c) (snd c)) first second f
                    (fst c) (snd c) ([], al) F = Ok (part, al))
               (filter (fun c => thr <= scoreAt f F (fst c) (snd c)) cs)
               parts.
Proof.
  revert als r. induction cs as [|c cs IH]; intros als r Hin Hr.
  - cbn in Hr. injection Hr as <-. exists []. cbn.
    rewrite app_nil_r. split; [done | constructor].
  - cbn [foldM] in Hr. apply bind_Ok_inv in Hr as (st1 & H1 & Hr).
    destruct (Hin c) as [Hi Hj]; [left|].
    unfold local_start in H1. rewrite (getScore_ok f m n Hws) in H1 by lia.
    rewrite bind_Ok in H1.
    assert (forall c', c' ∈ cs -> 0 <= fst c' < m /\ 0 <= snd c' < n)
      as Hin' by (intros c' Hc'; apply Hin; by right).
    destruct (Z.leb_spec thr (scoreAt f F (fst c) (snd c))) as [Hge|Hlt].
    + destruct (descent_run any_columns
                  (fun st => LocalSequenceAligner.backtraceFrom
                               (depth (fst c) (snd c)) first second f
                               (fst c) (snd c) st F)
                  als al st1
                  (local_backtraceFrom_descent first second f _ _ _ F) H1)
        as (new & Hnew & -> & _).
      destruct (IH _ _ Hin' Hr) as (parts & -> & Hparts).
      exists (new :: parts). cbn [concat]. rewrite app_assoc.
      split; [done|]. rewrite filter_cons_True by done.
      by constructor.
    + injection H1 as <-.
      destruct (IH _ _ Hin' Hr) as (parts & -> & Hparts).
      exists parts. split; [done|]. rewrite filter_cons_False by lia. done.
Qed.

Lemma local_no_start (cs : list (Z * Z)) (st : bt_state) :
  (forall c, c ∈ cs -> 0 <= fst c < m /\ 0 <= snd c < n) ->
  (forall i j, 0 <= i < m -> 0 <= j < n -> scoreAt f F i j < thr) ->
  foldM start cs st = Ok st.
Proof.
  intros Hin Hlow. apply foldM_skip. intros c Hc.
  destruct (Hin c Hc) as [Hi Hj]. unfold local_start.
  rewrite (getScore_ok f m n Hws) by lia. rewrite bind_Ok.
  destruct (Z.leb_spec thr (scoreAt f F (fst c) (snd c))) as [Hge|]; [|done].
  specialize (Hlow _ _ Hi Hj). lia.
Qed.

Lemma local_backtrace_unfold (minScore : option Z) :
  LocalSequenceAligner.threshold minScore f = Ok thr ->
  LocalSequenceAligner.backtrace minScore first second f
  = (st ← foldM start (cells m n) ([], emptyAlignment first second);
     Ok (fst st)).
Proof.
  intros Hthr. unfold LocalSequenceAligner.backtrace.
  destruct Hws as [-> _]. rewrite Hthr, bind_Ok.
  by rewrite foldM_cells.
Qed.

End LocalStarts.

Lemma reversed_push_all_length (al : SequenceAlignment) (cols : list column) :
  length (first_elements (SequenceAlignment.reversed (push_all al cols)))
  = (length (first_elements al) + length cols)%nat.
Proof.
  rewrite first_elements_reversed, first_elements_push_all.
  by rewrite length_reverse, length_app, length_map.
Qed.

(** ** The score of a returned alignment *)

Lemma sums_to_cons (c p a b : Z) (al : SequenceAlignment)
    (cols : list column) :
  sums_to p (SequenceAlignment.push al a b (c - p)) cols ->
  sums_to c al ((a, b, c - p) :: cols).
Proof. unfold sums_to, sum_scores. cbn. lia. Qed.

Lemma score_of_trace (s1 s2 : EncodedSequence) (cols : list column) :
  score (SequenceAlignment.reversed (push_all (emptyAlignment s1 s2) cols))
  = sum_scores (map col_score cols).
Proof.
  cbn [SequenceAlignment.reversed score].
  destruct (push_all_fields (emptyAlignment s1 s2) cols)
    as (_ & _ & _ & -> & _).
  done.
Qed.

Section LocalScores.

Variables first second : EncodedSequence.
Variable f : AlignmentMatrix.

(** Whatever the matrix, the scores pushed by a descent of the local
    backtrace from a cell add up to the score of that cell. *)
Lemma local_backtraceFrom_sums (fuel : nat) (i j c : Z)
    (current : MatrixType) :
  AlignmentMatrix.getScore f current i j = Ok c ->
  descent (sums_to c)
    (fun st =>
       LocalSequenceAligner.backtraceFrom fuel first second f i j st
         current).
Proof.
  revert i j c current.
  induction fuel as [|fuel IH]; intros i j c current Hc.
  { apply descent_raise. }
  cbn [LocalSequenceAligner.backtraceFrom].
  rewrite Hc. cbn [mbind result_bind].
  destruct (Z.eqb_spec c 0) as [->|_]; [by apply descent_finalize|].
  apply descent_bind; intros directions _.
  apply descent_bind; intros a _.
  apply descent_bind; intros b _.
  destruct current.
  - apply descent_foldM; intros dir _.
    apply descent_bind; intros p Hp.
    eapply descent_with_push; [by apply IH|].
    intros al cols. apply sums_to_cons.
  - apply descent_foldM; intros dir _.
    apply descent_bind; intros y Hy.
    apply (descent_with_push_from _ (sums_to y) gap (fun _ => b));
      [by apply IH|].
    intros al cols. apply sums_to_cons.
  - apply descent_foldM; intros dir _.
    apply descent_bind; intros x Hx.
    apply (descent_with_push_from _ (sums_to x) (fun _ => a) gap);
      [by apply IH|].
    intros al cols. apply sums_to_cons.
Qed.

End LocalScores.

(** X1: whatever the matrix and the threshold, every alignment that the
    affine local backtrace returns has a total score at or above the
    threshold. *)
Theorem local_scores_reach_threshold (minScore : option Z)
    (first second : EncodedSequence) (f : AlignmentMatrix) (thr : Z)
    (als : list SequenceAlignment) :
  LocalSequenceAligner.threshold minScore f = Ok thr ->
  LocalSequenceAligner.backtrace minScore first second f = Ok als ->
  Forall (fun al => thr <= score al) als.
Proof.
  intros Hthr. unfold LocalSequenceAligner.backtrace.
  destruct (shape f) as [m n]. rewrite Hthr, bind_Ok. intros Hr.
  apply bind_Ok_inv in Hr as (st & Hst & [= <-]).
  eapply descent_run in Hst as (new & _ & -> & Hall).
  2:{ apply (descent_foldM (sums_to_at_least thr)). intros i _.
      apply (descent_foldM (sums_to_at_least thr)). intros j _.
      apply descent_bind. intros v Hv.
      destruct (Z.leb_spec thr v) as [Hge|]; [|apply descent_skip].
      eapply descent_weaken; [|by apply local_backtraceFrom_sums].
      intros al cols. unfold sums_to, sums_to_at_least. lia. }
  cbn. eapply Forall_impl; [exact Hall|].
  intros x (cols & -> & Hsum). by rewrite score_of_trace.
Qed.

Lemma local_scores_reach_threshold_witness :
  exists f als,
    LocalSequenceAligner.computeAlignmentMatrix
      (mkSimpleScoring 2 (-1) (-2) (-1)) (mkSeq [1; 2; 3] 0)
      (mkSeq [7; 2; 3; 9] 1) = Ok f
    /\ LocalSequenceAligner.threshold (Some 2) f = Ok 2
    /\ LocalSequenceAligner.backtrace (Some 2) (mkSeq [1; 2; 3] 0)
         (mkSeq [7; 2; 3; 9] 1) f = Ok als
    /\ als <> []
    /\ Forall (fun al => 2 <= score al) als.
Proof.
  do 2 eexists.
  split; [vm_compute; reflexivity|].
  match goal with
  | |- ?T /\ ?R = Ok ?a /\ _ =>
      assert T as Hthr by reflexivity;
      assert (R = Ok a) as Hr by (vm_compute; reflexivity)
  end.
  split; [exact Hthr|]. split; [exact Hr|]. split; [done|].
  exact (local_scores_reach_threshold _ _ _ _ _ _ Hthr Hr).
Defined.

Lemma getScore_value (f : AlignmentMatrix) (m n : Z) (t : MatrixType)
    (i j v : Z) :
  well_shaped f m n -> 0 <= i < m -> 0 <= j < n ->
  AlignmentMatrix.getScore f t i j = Ok v -> v = scoreAt f t i j.
Proof.
  intros Hws Hi Hj Hv. rewrite (getScore_ok f m n Hws) in Hv by done.
  congruence.
Qed.

Section GlobalScores.

Variable fastBacktrace : bool.
Variables first second : EncodedSequence.
Variable f : AlignmentMatrix.
Variables m n : Z.
Hypothesis Hws : well_shaped f m n.
Hypothesis Hborder : forall t i j, 0 <= i < m -> 0 <= j < n ->
  i = 0 \/ j = 0 -> scoreAt f t i j = 0 /\ dirAt f t i j = [].

(** On the filled matrix, the scores pushed by a descent of the affine
    global backtrace from a cell add up to the score of that cell: a
    step without a push is taken only between cells of equal score. *)
Lemma global_backtraceFrom_sums (fuel : nat) (i j : Z)
    (current : MatrixType) :
  0 <= i < m -> 0 <= j < n ->
  descent (sums_to (scoreAt f current i j))
    (fun st =>
       GlobalSequenceAligner.backtraceFrom fastBacktrace fuel first second
         f i j st current).
Proof.
  revert i j current.
  induction fuel as [|fuel IH]; intros i j current Hi Hj.
  { apply descent_raise. }
  cbn [GlobalSequenceAligner.backtraceFrom].
  destruct (Z.eqb_spec i 0) as [->|Hi0]; cbn [orb].
  { destruct current; [|apply descent_skip..].
    rewrite (proj1 (Hborder F 0 j Hi Hj (or_introl eq_refl))).
    by apply descent_finalize. }
  destruct (Z.eqb_spec j 0) as [->|Hj0]; cbn [orb].
  { destruct current; [|apply descent_skip..].
    rewrite (proj1 (Hborder F i 0 Hi Hj (or_intror eq_refl))).
    by apply descent_finalize. }
  destruct (shape f) as [m' n'].
  apply descent_bind; intros allDirections _.
  apply descent_bind; intros c Hc.
  apply (getScore_value f m n) in Hc; [|done..]. subst c.
  apply descent_bind; intros a _.
  apply descent_bind; intros b _.
  destruct current.
  - apply descent_foldM; intros dir _.
    apply descent_bind; intros p Hp.
    apply (getScore_value f m n) in Hp; [|done|lia..]. subst p.
    eapply descent_with_push; [apply IH; lia|].
    intros al cols. apply sums_to_cons.
  - destruct (i =? m' - 1).
    + apply descent_foldM; intros dir _.
      apply descent_bind; intros y Hy.
      apply (getScore_value f m n) in Hy; [|done|lia..]. subst y.
      destruct (Z.eqb_spec (scoreAt f IX i j) (scoreAt f dir i (j - 1)))
        as [->|]; [apply IH; lia | apply descent_skip].
    + apply descent_foldM; intros dir _.
      apply descent_bind; intros y Hy.
      apply (getScore_value f m n) in Hy; [|done|lia..]. subst y.
      apply (descent_with_push_from _
               (sums_to (scoreAt f dir i (j - 1))) gap (fun _ => b));
        [apply IH; lia|].
      intros al cols. apply sums_to_cons.
  - destruct (j =? n' - 1).
    + apply descent_foldM; intros dir _.
      apply descent_bind; intros x Hx.
      apply (getScore_value f m n) in Hx; [|done|lia..]. subst x.
      destruct (Z.eqb_spec (scoreAt f IY i j) (scoreAt f dir (i - 1) j))
        as [->|]; [apply IH; lia | apply descent_skip].
    + apply descent_foldM; intros dir _.
      apply descent_bind; intros x Hx.
      apply (getScore_value f m n) in Hx; [|done|lia..]. subst x.
      apply (descent_with_push_from _
               (sums_to (scoreAt f dir (i - 1) j)) (fun _ => a) gap);
        [apply IH; lia|].
      intros al cols. apply sums_to_cons.
Qed.

Hypothesis Hm : 1 <= m.
Hypothesis Hn : 1 <= n.

(** The states from which [backtrace] starts hold the best score. *)
Lemma global_bestTypes_spec :
  exists types,
    GlobalSequenceAligner.bestTypes f = Ok types
    /\ forall t, t ∈ types ->
         scoreAt f t (m - 1) (n - 1)
         = max3 (scoreAt f F (m - 1) (n - 1))
                (scoreAt f IX (m - 1) (n - 1))
                (scoreAt f IY (m - 1) (n - 1)).
Proof.
  unfold GlobalSequenceAligner.bestTypes, all_types,
    GlobalSequenceAligner.bestScore. cbn [foldM].
  rewrite !(getScore_last f m n Hws) by done.
  repeat (rewrite bind_Ok; cbn [foldM]).
  eexists. split; [reflexivity|].
  intros t Ht. unfold max3 in *.
  destruct (Z.leb_spec
              (Z.max (Z.max (scoreAt f F (m - 1) (n - 1))
                            (scoreAt f IX (m - 1) (n - 1)))
                     (scoreAt f IY (m - 1) (n - 1)))
              (scoreAt f F (m - 1) (n - 1)));
  destruct (Z.leb_spec
              (Z.max (Z.max (scoreAt f F (m - 1) (n - 1))
                            (scoreAt f IX (m - 1) (n - 1)))
                     (scoreAt f IY (m - 1) (n - 1)))
              (scoreAt f IX (m - 1) (n - 1)));
  destruct (Z.leb_spec
              (Z.max (Z.max (scoreAt f F (m - 1) (n - 1))
                            (scoreAt f IX (m - 1) (n - 1)))
                     (scoreAt f IY (m - 1) (n - 1)))
              (scoreAt f IY (m - 1) (n - 1)));
  cbn [app] in Ht;
  repeat (apply elem_of_cons in Ht as [->|Ht]; [lia|]);
  by apply elem_of_nil in Ht.
Qed.

End GlobalScores.

(** X2: for every pair of inputs the affine global aligner returns, and
    every alignment it returns has the best score as its total score. *)
Theorem global_align_scores {S : Type} `{Scoring S} `{GapScoring S}
    (scoring : S) (fastBacktrace : bool) (first second : EncodedSequence) :
  exists sc als,
    GlobalSequenceAligner.align scoring fastBacktrace first second
    = Ok (sc, als)
    /\ Forall (fun al => score al = sc) als.
Proof.
  unfold GlobalSequenceAligner.align.
  destruct (global_computeAlignmentMatrix_ok scoring first second)
    as (f & -> & Hws & _ & Hborder).
  pose proof (Seq_len_nonneg first) as Hlf.
  pose proof (Seq_len_nonneg second) as Hls.
  remember (Seq.len first + 1) as m eqn:Hm.
  remember (Seq.len second + 1) as n eqn:Hn.
  rewrite bind_Ok.
  rewrite (global_bestScore_ok first second f m n Hws Hm Hn), bind_Ok.
  destruct (global_backtrace_ok fastBacktrace first second f m n Hws Hm Hn)
    as (als & Hals & _).
  rewrite Hals, bind_Ok. do 2 eexists. split; [reflexivity|].
  unfold GlobalSequenceAligner.backtrace in Hals.
  pose proof Hws as [Hshape _]. rewrite Hshape in Hals.
  destruct (global_bestTypes_spec f m n Hws ltac:(lia) ltac:(lia))
    as (types & Htypes & Hbest).
  rewrite Htypes, bind_Ok in Hals.
  apply bind_Ok_inv in Hals as (st & Hst & [= <-]).
  set (best := max3 (scoreAt f F (m - 1) (n - 1))
                 (scoreAt f IX (m - 1) (n - 1))
                 (scoreAt f IY (m - 1) (n - 1))) in *.
  eapply descent_run in Hst as (new & _ & -> & Hall).
  2:{ apply (descent_foldM (sums_to best)). intros t Ht.
      rewrite <- (Hbest t).
      - apply (global_backtraceFrom_sums fastBacktrace first second f m n
                 Hws Hborder); lia.
      - destruct fastBacktrace; [|done].
        apply elem_of_take in Ht as (k & Hk & _).
        by eapply list_elem_of_lookup_2. }
  cbn. eapply Forall_impl; [exact Hall|].
  intros x (cols & -> & Hsum). by rewrite score_of_trace.
Qed.

Section StrictScores.

Context {S : Type} `{Scoring S}.
Variable scoring : S.
Variable gapScore : Z.
Variables first second : EncodedSequence.
Variable f : AlignmentMatrix.
Variables m n : Z.
Hypothesis Hws : well_shaped f m n.
Hypothesis Horigin : scoreAt f F 0 0 = 0.

Lemma strict_block_sums (d : Z -> Z -> bt_state -> result bt_state)
    (i j : Z) (a : option Z) :
  0 <= i < m -> 0 <= j < n -> (a <> None -> 1 <= i) ->
  (forall i' j', 0 <= i' < m -> 0 <= j' < n ->
     i' + j' < i + j -> descent (sums_to (scoreAt f F i' j')) (d i' j')) ->
  descent (sums_to (scoreAt f F i j))
    (StrictGlobalSequenceAligner.second_and_third_block scoring gapScore
       d second f i j (scoreAt f F i j) a).
Proof.
  intros Hi Hj Ha Hd.
  unfold StrictGlobalSequenceAligner.second_and_third_block.
  destruct (Z.eqb_spec j 0) as [->|Hj0]; cbn [negb].
  { eapply descent_ext; [|apply descent_skip].
    intros st. cbn. by destruct a. }
  rewrite (getScore_ok f m n Hws F i (j - 1)) by lia.
  destruct (Seq.get second (j - 1)) as [b|e] eqn:Hb;
    [|by apply descent_raise].
  cbn [mbind result_bind].
  assert (descent (sums_to (scoreAt f F i j)) (fun st =>
    match a with
    | Some a' =>
        p ← AlignmentMatrix.getScore f F (i - 1) (j - 1);
        if scoreAt f F i j =? p + call scoring a' b
        then with_push a' b (scoreAt f F i j - p) (d (i - 1) (j - 1)) st
        else Ok st
    | None => Ok st
    end)) as H3.
  { destruct a as [a'|]; [|apply descent_skip].
    assert (1 <= i) by (by apply Ha).
    apply descent_bind; intros p Hp.
    apply (getScore_value f m n) in Hp; [|done|lia..]. subst p.
    destruct (_ =? _); [|apply descent_skip].
    eapply descent_with_push; [apply Hd; lia|].
    intros al cols. apply sums_to_cons. }
  destruct (_ =? _).
  - eapply descent_ext.
    2:{ apply (descent_seq _ _ _
                 (descent_with_push_from _
                    (sums_to (scoreAt f F i (j - 1))) gap (fun _ => b)
                    (scoreAt f F i j - scoreAt f F i (j - 1))
                    (d i (j - 1)) ltac:(apply Hd; lia)
                    ltac:(intros al cols; apply sums_to_cons)) H3). }
    intros st. cbn.
    destruct (with_push (gap (snd st)) b _ (d i (j - 1)) st); done.
  - eapply descent_ext; [|apply H3]. done.
Qed.

(** On a matrix with 0 at the origin, the scores pushed by a descent of
    the linear-gap backtrace from a cell add up to the score of that
    cell. *)
Lemma strict_backtraceFrom_sums (fuel : nat) (i j : Z) :
  0 <= i < m -> 0 <= j < n ->
  descent (sums_to (scoreAt f F i j))
    (StrictGlobalSequenceAligner.backtraceFrom scoring gapScore fuel
       first second f i j).
Proof.
  revert i j. induction fuel as [|fuel IH]; intros i j Hi Hj.
  { apply descent_raise. }
  cbn [StrictGlobalSequenceAligner.backtraceFrom].
  destruct (Z.eqb_spec i 0) as [->|Hi0];
    [destruct (Z.eqb_spec j 0) as [->|Hj0]|]; cbn [andb negb].
  - rewrite Horigin. by apply descent_finalize.
  - rewrite (getScore_ok f m n Hws) by lia. cbn [mbind result_bind].
    apply strict_block_sums; [done | done | done |].
    intros i' j' Hi' Hj' _. by apply IH.
  - rewrite !(getScore_ok f m n Hws) by lia. cbn [mbind result_bind].
    apply descent_bind; intros xa Hxa.
    apply bind_Ok_inv in Hxa as (a & Ha & [= <-]).
    assert (descent (sums_to (scoreAt f F i j))
              (StrictGlobalSequenceAligner.second_and_third_block scoring
                 gapScore
                 (StrictGlobalSequenceAligner.backtraceFrom scoring
                    gapScore fuel first second f)
                 second f i j (scoreAt f F i j) (Some a))) as Hrest.
    { apply strict_block_sums; [done | done | lia |].
      intros i' j' Hi' Hj' _. by apply IH. }
    destruct (_ =? _); [|done].
    apply (descent_with_push_from _
             (sums_to (scoreAt f F (i - 1) j)) (fun _ => a) gap);
      [apply IH; lia|].
    intros al cols. apply sums_to_cons.
Qed.

End StrictScores.

(** X3: for every pair of inputs the linear-gap global aligner returns at
    least one alignment, and every alignment it returns has the best
    score as its total score. *)
Theorem strict_align_scores {S : Type} `{Scoring S} (scoring : S)
    (gapScore : Z) (first second : EncodedSequence) :
  exists sc als,
    StrictGlobalSequenceAligner.align scoring gapScore first second
    = Ok (sc, als)
    /\ als <> []
    /\ Forall (fun al => score al = sc) als.
Proof.
  destruct (strict_align_ok scoring gapScore first second)
    as (sc & als & Halign & Hne).
  exists sc, als. split; [done|]. split; [done|].
  unfold StrictGlobalSequenceAligner.align in Halign.
  destruct (strict_computeAlignmentMatrix_ok scoring gapScore first second)
    as (f & Hf & Hws & _ & Hborder).
  pose proof (Seq_len_nonneg first) as Hlf.
  pose proof (Seq_len_nonneg second) as Hls.
  remember (Seq.len first + 1) as m eqn:Hm.
  remember (Seq.len second + 1) as n eqn:Hn.
  rewrite Hf, bind_Ok in Halign.
  unfold StrictGlobalSequenceAligner.bestScore in Halign.
  rewrite (getScore_last f m n Hws) in Halign by lia.
  rewrite bind_Ok in Halign.
  apply bind_Ok_inv in Halign as (als' & Hals & [= <- <-]).
  unfold StrictGlobalSequenceAligner.backtrace in Hals.
  pose proof Hws as [Hshape _]. rewrite Hshape in Hals.
  apply bind_Ok_inv in Hals as (st & Hst & [= <-]).
  eapply descent_run in Hst as (new & _ & -> & Hall).
  2:{ apply (strict_backtraceFrom_sums scoring gapScore first second f m n
               Hws); [|lia|lia].
      rewrite (Hborder 0 0) by lia. lia. }
  cbn. eapply Forall_impl; [exact Hall|].
  intros x (cols & -> & Hsum). by rewrite score_of_trace.
Qed.

(** X4: for every pair of inputs the affine local aligner without a
    minimum score returns; the best score is never negative, and every
    alignment returned has the best score as its total score. *)
Theorem local_align_scores {S : Type} `{Scoring S} `{GapScoring S}
    (scoring : S) (first second : EncodedSequence) :
  exists sc als,
    LocalSequenceAligner.align scoring None first second = Ok (sc, als)
    /\ 0 <= sc
    /\ Forall (fun al => score al = sc) als.
Proof.
  destruct (local_align_ok scoring first second) as (sc & als & Halign).
  exists sc, als. split; [done|].
  unfold LocalSequenceAligner.align in Halign.
  destruct (local_computeAlignmentMatrix_ok scoring first second)
    as (f & Hf & Hws & _ & Hborder).
  pose proof (Seq_len_nonneg first) as Hlf.
  pose proof (Seq_len_nonneg second) as Hls.
  remember (Seq.len first + 1) as m eqn:Hm.
  remember (Seq.len second + 1) as n eqn:Hn.
  rewrite Hf, bind_Ok in Halign.
  unfold LocalSequenceAligner.bestScore in Halign.
  destruct (matrix_max_spec f m n Hws) as (v & Hmax & Hle & _);
    [lia | lia |].
  rewrite Hmax, bind_Ok in Halign.
  apply bind_Ok_inv in Halign as (als' & Hals & [= <- <-]).
  split.
  { pose proof (Hle F 0 0 ltac:(lia) ltac:(lia)) as H00.
    by rewrite (proj1 (Hborder F 0 0 ltac:(lia) ltac:(lia) ltac:(lia)))
      in H00. }
  unfold LocalSequenceAligner.backtrace, LocalSequenceAligner.threshold,
    LocalSequenceAligner.bestScore in Hals.
  pose proof Hws as [Hshape _]. rewrite Hshape, Hmax, bind_Ok in Hals.
  apply bind_Ok_inv in Hals as (st & Hst & [= <-]).
  eapply descent_run in Hst as (new & _ & -> & Hall).
  2:{ apply (descent_foldM (sums_to v)). intros i Hi.
      apply (descent_foldM (sums_to v)). intros j Hj.
      apply elem_of_range in Hi, Hj.
      apply descent_bind. intros x Hx.
      destruct (Z.leb_spec v x) as [Hge|]; [|apply descent_skip].
      assert (x = v) as ->.
      { pose proof (getScore_value f m n F i j x Hws Hi Hj Hx) as ->.
        specialize (Hle F i j Hi Hj). lia. }
      by apply local_backtraceFrom_sums. }
  cbn. eapply Forall_impl; [exact Hall|].
  intros x (cols & -> & Hsum). by rewrite score_of_trace.
Qed.

(** ** The counters of an alignment *)

Lemma balanced_empty (s1 s2 : EncodedSequence) :
  balanced 0 (emptyAlignment s1 s2).
Proof. unfold balanced. cbn. lia. Qed.

Lemma balanced_push (k : nat) (al : SequenceAlignment) (a b s : Z) :
  balanced k al -> balanced (Datatypes.S k) (SequenceAlignment.push al a b s).
Proof.
  unfold balanced. intros (H1 & H2 & H3 & H4 & H5 & H6 & H7 & H8).
  cbn [SequenceAlignment.push first second scores gapCount
       preservedCount identicalCount similarCount Seq.push elements].
  rewrite !length_app, H1, H2, H3. cbn [length].
  destruct (a =? b), (0 <? s), ((a =? gap al) || (b =? gap al)); lia.
Qed.

Lemma balanced_push_all (k : nat) (al : SequenceAlignment)
    (cols : list column) :
  balanced k al -> balanced (k + length cols) (push_all al cols).
Proof.
  revert k al. induction cols as [|c cols IH]; intros k al Hal.
  - cbn. by rewrite Nat.add_0_r.
  - rewrite push_all_cons. cbn [length].
    replace (k + Datatypes.S (length cols))%nat
      with (Datatypes.S k + length cols)%nat by lia.
    by apply IH, balanced_push.
Qed.

Lemma balanced_reversed (k : nat) (al : SequenceAlignment) :
  balanced k al -> balanced k (SequenceAlignment.reversed al).
Proof.
  unfold balanced. intros (H1 & H2 & H3 & H4).
  cbn [SequenceAlignment.reversed first second scores gapCount
       preservedCount identicalCount similarCount Seq.reversed elements].
  by rewrite !length_reverse.
Qed.

Lemma balanced_len (k : nat) (al : SequenceAlignment) :
  balanced k al -> SequenceAlignment.len al = Ok (Z.of_nat k).
Proof.
  intros (H1 & H2 & _). unfold SequenceAlignment.len, Seq.len.
  rewrite H1, H2, Z.eqb_refl. done.
Qed.

Lemma ratio_defined (num den : Z) :
  exists p,
    SequenceAlignment.except_ZeroDivisionError
      (SequenceAlignment.ratio num den) = Ok p.
Proof.
  unfold SequenceAlignment.ratio. destruct (den =? 0); cbn; eauto.
Qed.

Lemma balanced_metrics (k : nat) (al : SequenceAlignment) :
  balanced k al -> metrics_defined al.
Proof.
  intros Hal. unfold metrics_defined,
    SequenceAlignment.percentIdentity,
    SequenceAlignment.percentPreservedIdentity,
    SequenceAlignment.percentSimilarity,
    SequenceAlignment.percentPreservedSimilarity,
    SequenceAlignment.percentGap.
  rewrite (balanced_len k al Hal). cbn [mbind result_bind].
  destruct (ratio_defined (identicalCount al) (Z.of_nat k)) as [p1 ->].
  destruct (ratio_defined (identicalCount al) (preservedCount al))
    as [p2 ->].
  destruct (ratio_defined (similarCount al) (Z.of_nat k)) as [p3 ->].
  destruct (ratio_defined (similarCount al) (preservedCount al)) as [p4 ->].
  destruct (ratio_defined (gapCount al) (Z.of_nat k)) as [p5 ->].
  by exists p1, p2, p3, p4, p5.
Qed.

Lemma trace_balanced (s1 s2 : EncodedSequence) (cols : list column) :
  balanced (length cols) (push_all (emptyAlignment s1 s2) cols)
  /\ balanced (length cols)
       (SequenceAlignment.reversed (push_all (emptyAlignment s1 s2) cols)).
Proof.
  pose proof (balanced_push_all 0 _ cols (balanced_empty s1 s2)) as Hb.
  cbn [Nat.add] in Hb. split; [done | by apply balanced_reversed].
Qed.

(** X5: after any columns are pushed on the empty accumulator, and after
    [reversed], the two sequences and the score list have one entry per
    column, gap and preserved counts add up to the number of columns, the
    identical and similar counts lie between 0 and it, [__len__] passes
    its assertion, and the five percentage metrics return a value. *)
Theorem pushes_keep_counters (s1 s2 : EncodedSequence)
    (cols : list column) :
  (balanced (length cols) (push_all (emptyAlignment s1 s2) cols)
   /\ SequenceAlignment.len (push_all (emptyAlignment s1 s2) cols)
      = Ok (Z.of_nat (length cols))
   /\ metrics_defined (push_all (emptyAlignment s1 s2) cols))
  /\ (balanced (length cols)
        (SequenceAlignment.reversed
           (push_all (emptyAlignment s1 s2) cols))
      /\ SequenceAlignment.len
           (SequenceAlignment.reversed
              (push_all (emptyAlignment s1 s2) cols))
         = Ok (Z.of_nat (length cols))
      /\ metrics_defined
           (SequenceAlignment.reversed
              (push_all (emptyAlignment s1 s2) cols))).
Proof.
  destruct (trace_balanced s1 s2 cols) as [Hb Hr].
  split; (split; [done|]; split;
          [by apply balanced_len | by eapply balanced_metrics]).
Qed.

(** X6: every alignment returned by one of the three backtrace engines,
    whatever the matrix, passes the assertion of [__len__], and its five
    percentage metrics return a value: no AssertionError, no
    ZeroDivisionError. *)
Theorem returned_alignments_measurable {S : Type} `{Scoring S} (scoring : S)
    (fastBacktrace : bool) (gapScore : Z) (minScore : option Z)
    (first second : EncodedSequence) (f : AlignmentMatrix)
    (als : list SequenceAlignment) :
  GlobalSequenceAligner.backtrace fastBacktrace first second f = Ok als
  \/ LocalSequenceAligner.backtrace minScore first second f = Ok als
  \/ StrictGlobalSequenceAligner.backtrace scoring gapScore first second f
     = Ok als ->
  Forall (fun al =>
            (exists k, SequenceAlignment.len al = Ok k /\ 0 <= k)
            /\ metrics_defined al) als.
Proof.
  intros Hr.
  assert (Forall (fun x => exists cols,
                    x = SequenceAlignment.reversed
                          (push_all (emptyAlignment first second) cols))
                 als) as Htr.
  { destruct Hr as [Hr|[Hr|Hr]].
    - by eapply global_backtrace_traces.
    - by eapply local_backtrace_traces.
    - unfold StrictGlobalSequenceAligner.backtrace in Hr.
      destruct (shape f) as [m n].
      apply bind_Ok_inv in Hr as (st & Hst & [= <-]).
      eapply descent_run in Hst as (new & _ & -> & Hall);
        [|apply strict_backtraceFrom_descent_any].
      cbn. eapply Forall_impl; [exact Hall|]. intros x (cols & -> & _).
      eauto. }
  eapply Forall_impl; [exact Htr|]. intros x (cols & ->).
  destruct (trace_balanced first second cols) as [_ Hb].
  split; [|by eapply balanced_metrics].
  exists (Z.of_nat (length cols)). split; [by apply balanced_len | lia].
Qed.

Lemma returned_alignments_measurable_witness :
  exists f als,
    GlobalSequenceAligner.computeAlignmentMatrix
      (mkSimpleScoring 2 (-1) (-2) (-1)) (mkSeq [1; 2] 0) (mkSeq [1; 3; 2] 1)
    = Ok f
    /\ GlobalSequenceAligner.backtrace false (mkSeq [1; 2] 0)
         (mkSeq [1; 3; 2] 1) f = Ok als
    /\ als <> []
    /\ Forall (fun al =>
                 (exists k, SequenceAlignment.len al = Ok k /\ 0 <= k)
                 /\ metrics_defined al) als.
Proof.
  do 2 eexists.
  split; [vm_compute; reflexivity|].
  match goal with
  | |- ?R = Ok ?a /\ _ =>
      assert (R = Ok a) as Hr by (vm_compute; reflexivity)
  end.
  split; [exact Hr|]. split; [done|].
  exact (returned_alignments_measurable (mkSimpleScoring 2 (-1) (-2) (-1))
           false 0 None _ _ _ _ (or_introl Hr)).
Defined.

(** X7: [reversed] reverses the two sequences but copies the score list as
    it is: in an alignment returned by a backtrace the two sequences list
    the columns from the first to the last, while the per-position scores
    are still in push order, the last column first. *)
Theorem returned_scores_in_push_order (s1 s2 : EncodedSequence)
    (cols : list column) (x : SequenceAlignment) :
  trace_of s1 s2 cols x ->
  first_elements x = reverse (map col_first cols)
  /\ second_elements x = reverse (map col_second cols)
  /\ scores x = map col_score cols
  /\ score x = sum_scores (map col_score cols).
Proof.
  unfold trace_of. intros ->.
  rewrite first_elements_reversed, second_elements_reversed,
    first_elements_push_all, second_elements_push_all, score_of_trace.
  destruct (elements_emptyAlignment s1 s2) as [-> ->].
  cbn [SequenceAlignment.reversed scores].
  destruct (push_all_fields (emptyAlignment s1 s2) cols)
    as (_ & _ & -> & _).
  done.
Qed.

Lemma returned_scores_in_push_order_witness :
  exists x,
    StrictGlobalSequenceAligner.align (mkSimpleScoring 2 (-1) 0 0) (-3)
      (mkSeq [1; 2] 0) (mkSeq [1] 1) = Ok (-1, [x])
    /\ trace_of (mkSeq [1; 2] 0) (mkSeq [1] 1)
         [(2, GAP_CODE, -3); (1, 1, 2)] x
    /\ first_elements x = [1; 2]
    /\ scores x = [-3; 2].
Proof.
  eexists. split; [vm_compute; reflexivity|].
  assert (trace_of (mkSeq [1; 2] 0) (mkSeq [1] 1)
            [(2, GAP_CODE, -3); (1, 1, 2)]
            (SequenceAlignment.reversed
               (push_all (emptyAlignment (mkSeq [1; 2] 0) (mkSeq [1] 1))
                  [(2, GAP_CODE, -3); (1, 1, 2)]))) as Htr by reflexivity.
  split; [exact Htr|].
  destruct (returned_scores_in_push_order _ _ _ _ Htr)
    as (H1 & _ & H3 & _).
  split; [exact H1 | exact H3].
Defined.

(** ** The matrix store, seen through its accessors *)

Lemma py_norm_out (len k : Z) : k < - len \/ len <= k -> 0 <= len ->
  py_norm len k = None.
Proof.
  intros Hk Hlen. unfold py_norm.
  destruct (Z.leb_spec 0 k), (Z.ltb_spec k len), (Z.ltb_spec k 0),
    (Z.leb_spec (- len) k); cbn; try done; lia.
Qed.

Lemma py_get_out {A : Type} (l : list A) (k : Z) :
  k < - Z.of_nat (length l) \/ Z.of_nat (length l) <= k ->
  py_get l k = Raise IndexError.
Proof. intros Hk. unfold py_get. rewrite py_norm_out by lia. done. Qed.

Lemma py_set_out {A : Type} (l : list A) (k : Z) (x : A) :
  k < - Z.of_nat (length l) \/ Z.of_nat (length l) <= k ->
  py_set l k x = Raise IndexError.
Proof. intros Hk. unfold py_set. rewrite py_norm_out by lia. done. Qed.

Lemma py_get_neg {A : Type} (l : list A) (k : Z) :
  - Z.of_nat (length l) <= k < 0 ->
  py_get l k = py_get l (Z.of_nat (length l) + k).
Proof.
  intros Hk. unfold py_get.
  rewrite py_norm_neg, py_norm_nonneg by lia. done.
Qed.

Lemma get2_out {A : Type} (m n i j : Z) (M : list (list A)) :
  rect m n M -> 0 <= m -> 0 <= n ->
  i < - m \/ m <= i \/ j < - n \/ n <= j ->
  AlignmentMatrix.get2 M i j = Raise IndexError.
Proof.
  intros HM Hm Hn Hout. unfold AlignmentMatrix.get2.
  pose proof HM as [Hlen Hrows].
  destruct (py_get M i) as [row|e] eqn:Hrow; cbn.
  - assert (length row = Z.to_nat n) as Hr.
    { unfold py_get in Hrow.
      destruct (py_norm _ i) as [k|]; [|done].
      destruct (M !! k) as [row'|] eqn:Hk; [|done].
      injection Hrow as ->. by eapply rect_row. }
    destruct (decide (i < - m \/ m <= i)) as [Hi|Hi].
    + rewrite py_get_out in Hrow by lia. done.
    + apply py_get_out. lia.
  - unfold py_get in Hrow.
    destruct (py_norm _ i) as [k|]; [|congruence].
    destruct (M !! k); congruence.
Qed.

Lemma set2_out {A : Type} (m n i j : Z) (M : list (list A)) (x : A) :
  rect m n M -> 0 <= m -> 0 <= n ->
  i < - m \/ m <= i \/ j < - n \/ n <= j ->
  AlignmentMatrix.set2 M i j x = Raise IndexError.
Proof.
  intros HM Hm Hn Hout. unfold AlignmentMatrix.set2.
  pose proof HM as [Hlen Hrows].
  destruct (py_get M i) as [row|e] eqn:Hrow; cbn.
  - assert (length row = Z.to_nat n) as Hr.
    { unfold py_get in Hrow.
      destruct (py_norm _ i) as [k|]; [|done].
      destruct (M !! k) as [row'|] eqn:Hk; [|done].
      injection Hrow as ->. by eapply rect_row. }
    destruct (decide (i < - m \/ m <= i)) as [Hi|Hi].
    + rewrite py_get_out in Hrow by lia. done.
    + rewrite py_set_out by lia. done.
  - unfold py_get in Hrow.
    destruct (py_norm _ i) as [k|]; [|congruence].
    destruct (M !! k); congruence.
Qed.

Lemma get2_neg {A : Type} (m n i j : Z) (M : list (list A)) :
  rect m n M -> - m <= i < 0 -> - n <= j < 0 ->
  AlignmentMatrix.get2 M i j = AlignmentMatrix.get2 M (m + i) (n + j).
Proof.
  intros HM Hi Hj. unfold AlignmentMatrix.get2.
  pose proof HM as [Hlen Hrows].
  rewrite (py_get_neg M i) by lia.
  replace (Z.of_nat (length M) + i) with (m + i) by lia.
  destruct (py_get M (m + i)) as [row|e] eqn:Hrow; cbn; [|done].
  assert (length row = Z.to_nat n) as Hr.
  { unfold py_get in Hrow.
    destruct (py_norm _ (m + i)) as [k|]; [|done].
    destruct (M !! k) as [row'|] eqn:Hk; [|done].
    injection Hrow as ->. by eapply rect_row. }
  rewrite (py_get_neg row j) by lia.
  by replace (Z.of_nat (length row) + j) with (n + j) by lia.
Qed.

(** X8: a new [AlignmentMatrix(shape)] reads 0 and the empty direction
    list at every cell of its shape, in the three states. *)
Theorem new_matrix_reads_defaults (m n : Z) (t : MatrixType) (i j : Z) :
  0 <= i < m -> 0 <= j < n ->
  AlignmentMatrix.getScore (AlignmentMatrix.init (m, n)) t i j = Ok 0
  /\ AlignmentMatrix.getDirection (AlignmentMatrix.init (m, n)) t i j
     = Ok [].
Proof.
  intros Hi Hj.
  rewrite (getScore_ok _ m n (well_shaped_init m n)) by done.
  rewrite (getDirection_ok _ m n (well_shaped_init m n)) by done.
  by rewrite scoreAt_init, dirAt_init.
Qed.

Lemma new_matrix_reads_defaults_witness :
  0 <= 1 < 2 /\ 0 <= 2 < 3
  /\ AlignmentMatrix.getScore (AlignmentMatrix.init (2, 3)) IX 1 2 = Ok 0
  /\ AlignmentMatrix.getDirection (AlignmentMatrix.init (2, 3)) IX 1 2
     = Ok [].
Proof.
  assert (0 <= 1 < 2) as Hi by lia. assert (0 <= 2 < 3) as Hj by lia.
  split; [exact Hi|]. split; [exact Hj|].
  exact (new_matrix_reads_defaults 2 3 IX 1 2 Hi Hj).
Defined.

(** X9: on a matrix store of shape (m, n), [setScore] at a cell of the
    shape succeeds; the new store has the same shape, reads the written
    score at that cell, reads what it read before at every other cell and
    state, and keeps all its directions.  Rows do not alias. *)
Theorem setScore_then_getScore (f : AlignmentMatrix) (m n : Z)
    (t : MatrixType) (i j v : Z) :
  well_shaped f m n -> 0 <= i < m -> 0 <= j < n ->
  exists f',
    AlignmentMatrix.setScore f t i j v = Ok f'
    /\ well_shaped f' m n
    /\ AlignmentMatrix.getScore f' t i j = Ok v
    /\ (forall t' i' j', 0 <= i' < m -> 0 <= j' < n ->
          t' <> t \/ i' <> i \/ j' <> j ->
          AlignmentMatrix.getScore f' t' i' j'
          = AlignmentMatrix.getScore f t' i' j')
    /\ (forall t' i' j',
          AlignmentMatrix.getDirection f' t' i' j'
          = AlignmentMatrix.getDirection f t' i' j').
Proof.
  intros Hws Hi Hj. exists (updS f t i j v).
  split; [by apply (setScore_ok f m n)|].
  split; [by apply well_shaped_updS|]. split; [|split].
  - rewrite (getScore_ok _ m n (well_shaped_updS f m n Hws t i j v))
      by done.
    by rewrite (scoreAt_updS_eq f m n Hws).
  - intros t' i' j' Hi' Hj' Hne.
    rewrite (getScore_ok _ m n (well_shaped_updS f m n Hws t i j v))
      by done.
    rewrite (getScore_ok f m n Hws) by done.
    rewrite scoreAt_updS_ne; [done | lia.. |].
    destruct Hne as [?|[?|?]]; [left | right; left | right; right];
      congruence.
  - done.
Qed.

Lemma setScore_then_getScore_witness :
  well_shaped (AlignmentMatrix.init (2, 2)) 2 2
  /\ 0 <= 1 < 2 /\ 0 <= 0 < 2
  /\ exists f',
       AlignmentMatrix.setScore (AlignmentMatrix.init (2, 2)) IY 1 0 7
       = Ok f'
       /\ AlignmentMatrix.getScore f' IY 1 0 = Ok 7.
Proof.
  assert (well_shaped (AlignmentMatrix.init (2, 2)) 2 2) as Hws.
  { split; [reflexivity|]. intros []; split; split;
      first [reflexivity | repeat constructor]. }
  assert (0 <= 1 < 2) as Hi by lia. assert (0 <= 0 < 2) as Hj by lia.
  split; [exact Hws|]. split; [exact Hi|]. split; [exact Hj|].
  destruct (setScore_then_getScore (AlignmentMatrix.init (2, 2)) 2 2
              IY 1 0 7 Hws Hi Hj) as (f' & Hset & _ & Hget & _).
  exists f'. split; [exact Hset | exact Hget].
Defined.

(** X10: on a matrix store of shape (m, n), an index outside [-m, m) for
    the row or outside [-n, n) for the column makes [getScore],
    [getDirection], [setScore] and [setDirection] raise IndexError; a
    negative index inside the range counts from the end, as in
    [getScore(type, -1, -1)] of [bestScore]. *)
Theorem store_index_errors (f : AlignmentMatrix) (m n : Z)
    (t : MatrixType) (i j : Z) :
  well_shaped f m n -> 0 <= m -> 0 <= n ->
  (i < - m \/ m <= i \/ j < - n \/ n <= j ->
     AlignmentMatrix.getScore f t i j = Raise IndexError
     /\ AlignmentMatrix.getDirection f t i j = Raise IndexError
     /\ (forall v, AlignmentMatrix.setScore f t i j v = Raise IndexError)
     /\ (forall d, AlignmentMatrix.setDirection f t i j d
                   = Raise IndexError))
  /\ (- m <= i < 0 -> - n <= j < 0 ->
        AlignmentMatrix.getScore f t i j
        = AlignmentMatrix.getScore f t (m + i) (n + j)
        /\ AlignmentMatrix.getDirection f t i j
           = AlignmentMatrix.getDirection f t (m + i) (n + j)).
Proof.
  intros [_ Hws] Hm Hn. destruct (Hws t) as [Hs Hd]. split.
  - intros Hout.
    unfold AlignmentMatrix.getScore, AlignmentMatrix.getDirection,
      AlignmentMatrix.setScore, AlignmentMatrix.setDirection.
    rewrite (get2_out m n i j _ Hs), (get2_out m n i j _ Hd) by done.
    split; [done|]. split; [done|]. split.
    + intros v. by rewrite (set2_out m n i j _ v Hs).
    + intros d. by rewrite (set2_out m n i j _ d Hd).
  - intros Hi Hj.
    unfold AlignmentMatrix.getScore, AlignmentMatrix.getDirection.
    by rewrite (get2_neg m n i j _ Hs), (get2_neg m n i j _ Hd).
Qed.

Lemma store_index_errors_witness :
  well_shaped (AlignmentMatrix.init (2, 2)) 2 2
  /\ 0 <= 2 /\ (2 < - 2 \/ 2 <= 2 \/ 0 < - 2 \/ 2 <= 0)
  /\ AlignmentMatrix.getScore (AlignmentMatrix.init (2, 2)) F 2 0
     = Raise IndexError.
Proof.
  assert (well_shaped (AlignmentMatrix.init (2, 2)) 2 2) as Hws.
  { split; [reflexivity|]. intros []; split; split;
      first [reflexivity | repeat constructor]. }
  assert (0 <= 2) as H2 by lia.
  assert (2 < - 2 \/ 2 <= 2 \/ 0 < - 2 \/ 2 <= 0) as Hout by lia.
  split; [exact Hws|]. split; [exact H2|]. split; [exact Hout|].
  exact (proj1 (proj1 (store_index_errors (AlignmentMatrix.init (2, 2)) 2 2
                         F 2 0 Hws H2 H2) Hout)).
Defined.

(** X11: [AlignmentMatrix.max] of a store of shape (m, n) with at least one
    cell returns the largest score of the three grids: it is at least
    every score and is the score of some cell; on a store without rows or
    without columns it raises ValueError. *)
Theorem matrix_max_is_largest (f : AlignmentMatrix) (m n : Z) :
  well_shaped f m n ->
  (1 <= m -> 1 <= n ->
     exists v,
       AlignmentMatrix.max f = Ok v
       /\ (forall t i j s, 0 <= i < m -> 0 <= j < n ->
             AlignmentMatrix.getScore f t i j = Ok s -> s <= v)
       /\ (exists t i j, 0 <= i < m /\ 0 <= j < n
             /\ AlignmentMatrix.getScore f t i j = Ok v))
  /\ (m <= 0 \/ n <= 0 -> AlignmentMatrix.max f = Raise ValueError).
Proof.
  intros Hws. split.
  - intros Hm Hn.
    destruct (matrix_max_spec f m n Hws Hm Hn)
      as (v & Hv & Hle & (t & i & j & Hi & Hj & Heq)).
    exists v. split; [done|]. split.
    + intros t' i' j' s Hi' Hj' Hs.
      apply (getScore_value f m n) in Hs; [|done..]. subst s. by apply Hle.
    + exists t, i, j. rewrite (getScore_ok f m n Hws) by done.
      by rewrite Heq.
  - intros Hempty. destruct Hws as [_ Hws].
    destruct (Hws F) as [[Hlen Hrows] _].
    unfold AlignmentMatrix.max, AlignmentMatrix.max_of_rows.
    destruct (pt_get (matrix f) F) as [|row rows]; [done|].
    cbn in Hlen. apply Forall_cons in Hrows as [Hrow _].
    destruct row; [done|]. cbn in Hrow. lia.
Qed.

Lemma matrix_max_is_largest_witness :
  well_shaped (AlignmentMatrix.init (2, 3)) 2 3
  /\ (exists v, AlignmentMatrix.max (AlignmentMatrix.init (2, 3)) = Ok v)
  /\ well_shaped (AlignmentMatrix.init (0, 3)) 0 3
  /\ AlignmentMatrix.max (AlignmentMatrix.init (0, 3)) = Raise ValueError.
Proof.
  assert (well_shaped (AlignmentMatrix.init (2, 3)) 2 3) as Hws
    by apply well_shaped_init.
  assert (well_shaped (AlignmentMatrix.init (0, 3)) 0 3) as Hws0
    by apply well_shaped_init.
  assert (1 <= 2) as H2 by lia. assert (1 <= 3) as H3 by lia.
  assert (0 <= 0 \/ 3 <= 0) as He by lia.
  split; [exact Hws|]. split.
  - destruct (proj1 (matrix_max_is_largest (AlignmentMatrix.init (2, 3))
                       2 3 Hws) H2 H3) as (v & Hv & _).
    exists v. exact Hv.
  - split; [exact Hws0|].
    exact (proj2 (matrix_max_is_largest (AlignmentMatrix.init (0, 3)) 0 3
                    Hws0) He).
Defined.

(** ** The fast backtrace of the global aligner *)

Section GlobalFast.

Variables first second : EncodedSequence.
Variable f : AlignmentMatrix.

Lemma with_push_grows (a b s : Z) (d : bt_state -> result bt_state)
    (st r : bt_state) :
  (forall st r, d st = Ok r ->
     (length (fst r) <= length (fst st) + 1)%nat) ->
  with_push a b s d st = Ok r ->
  (length (fst r) <= length (fst st) + 1)%nat.
Proof.
  intros Hd Hr. unfold with_push in Hr.
  apply bind_Ok_inv in Hr as (st' & Hst' & Hr).
  apply bind_Ok_inv in Hr as ([p al'] & _ & Hr).
  injection Hr as <-. apply Hd in Hst'. done.
Qed.

Lemma foldM_take1 {X : Type} (body : bt_state -> X -> result bt_state)
    (l : list X) (st r : bt_state) :
  (forall x st r, body st x = Ok r ->
     (length (fst r) <= length (fst st) + 1)%nat) ->
  foldM body (take 1 l) st = Ok r ->
  (length (fst r) <= length (fst st) + 1)%nat.
Proof.
  intros Hbody Hr. destruct l as [|x l]; cbn in Hr.
  - injection Hr as <-. lia.
  - apply bind_Ok_inv in Hr as (st' & Hst' & Hr). injection Hr as <-.
    by eapply Hbody.
Qed.

(** With [fastBacktrace], a descent appends at most one alignment. *)
Lemma global_fast_grows (fuel : nat) (i j : Z) (current : MatrixType)
    (st r : bt_state) :
  GlobalSequenceAligner.backtraceFrom true fuel first second f
    i j st current = Ok r ->
  (length (fst r) <= length (fst st) + 1)%nat.
Proof.
  revert i j current st r.
  induction fuel as [|fuel IH]; intros i j current st r Hr; [done|].
  cbn [GlobalSequenceAligner.backtraceFrom] in Hr.
  destruct ((i =? 0) || (j =? 0)).
  { destruct current; injection Hr as <-; cbn;
      rewrite ?length_app; cbn; lia. }
  destruct (shape f) as [m n].
  apply bind_Ok_inv in Hr as (allDirections & _ & Hr).
  apply bind_Ok_inv in Hr as (c & _ & Hr).
  apply bind_Ok_inv in Hr as (a & _ & Hr).
  apply bind_Ok_inv in Hr as (b & _ & Hr).
  destruct current; [|destruct (i =? m - 1)|destruct (j =? n - 1)];
    (eapply foldM_take1; [|exact Hr]);
    intros dir st1 r1 Hb;
    apply bind_Ok_inv in Hb as (p & _ & Hb);
    first [ eapply with_push_grows; [|exact Hb]; intros st2 r2;
            apply IH
          | destruct (c =? p);
            [by eapply IH | injection Hb as <-; lia] ].
Qed.

End GlobalFast.

(** X12: with [fastBacktrace=True] the global aligner's [align] returns a
    score and at most one alignment, for all sequences and scorings. *)
Theorem global_fast_backtrace_at_most_one {S : Type} `{Scoring S}
    `{GapScoring S} (scoring : S) (first second : EncodedSequence) :
  exists sc als,
    GlobalSequenceAligner.align scoring true first second = Ok (sc, als)
    /\ (length als <= 1)%nat.
Proof.
  destruct (global_align_ok scoring true first second) as (sc & als & Hal).
  exists sc, als. split; [done|].
  unfold GlobalSequenceAligner.align in Hal.
  apply bind_Ok_inv in Hal as (f & _ & Hal).
  apply bind_Ok_inv in Hal as (sc' & _ & Hal).
  apply bind_Ok_inv in Hal as (als' & Hbt & Hal).
  injection Hal as _ <-.
  unfold GlobalSequenceAligner.backtrace in Hbt.
  destruct (shape f) as [m n].
  apply bind_Ok_inv in Hbt as (types & _ & Hbt).
  apply bind_Ok_inv in Hbt as (st & Hst & Hbt).
  injection Hbt as <-.
  eapply (foldM_take1 (X := MatrixType)) in Hst; [exact Hst|].
  intros t st1 r1. apply global_fast_grows.
Qed.

(** ** Pushing and popping many columns *)

Lemma push_all_snoc (al : SequenceAlignment) (cols : list column)
    (c : column) :
  push_all al (cols ++ [c])
  = SequenceAlignment.push (push_all al cols) (col_first c) (col_second c)
      (col_score c).
Proof. unfold push_all. by rewrite foldl_app. Qed.

(** X13: after any columns are pushed on an alignment, as many calls of
    [pop] succeed, return the pushed pairs last one first, and leave the
    alignment as it was before the pushes: sequences, score list, score
    and the four counters. *)
Theorem pops_undo_pushes (al : SequenceAlignment) (cols : list column) :
  pop_times (length cols) (push_all al cols)
  = Ok (reverse (map (fun c => (col_first c, col_second c)) cols), al).
Proof.
  induction cols as [|c cols IH] using rev_ind; [done|].
  rewrite push_all_snoc, length_app, Nat.add_comm. cbn [length plus pop_times].
  rewrite pop_push. cbn. rewrite IH. cbn.
  by rewrite map_app, reverse_app.
Qed.

(** X14: [reversed] of [reversed] gives the alignment back: the two
    sequences are reversed twice, and the score list, the score and the
    counters are copied twice. *)
Theorem reversed_reversed (al : SequenceAlignment) :
  SequenceAlignment.reversed (SequenceAlignment.reversed al) = al.
Proof.
  destruct al as [[e1 i1] [e2 i2] g scs sc ic smc gc pc].
  cbv [SequenceAlignment.reversed Seq.reversed first second elements seq_id
       gap scores score identicalCount similarCount gapCount preservedCount].
  by rewrite !reverse_involutive.
Qed.

(** ** The matrix of the linear-gap aligner *)

(** Induction over the cells of a matrix, from the first row and the
    first column inwards. *)
Lemma cells_ind (P : Z -> Z -> Prop) (m n : Z) :
  (forall i j, 0 <= i < m -> 0 <= j < n -> i = 0 \/ j = 0 -> P i j) ->
  (forall i j, 1 <= i < m -> 1 <= j < n ->
     P (i - 1) (j - 1) -> P i (j - 1) -> P (i - 1) j -> P i j) ->
  forall i j, 0 <= i < m -> 0 <= j < n -> P i j.
Proof.
  intros Hborder Hinner i j.
  remember (Z.to_nat (i + j)) as k eqn:Hk. revert i j Hk.
  induction k as [k IH] using lt_wf_ind. intros i j Hk Hi Hj.
  destruct (decide (i = 0 \/ j = 0)) as [Hb|Hnb]; [by apply Hborder|].
  apply Hinner; [lia | lia | ..].
  - apply (IH (Z.to_nat (i - 1 + (j - 1)))); lia.
  - apply (IH (Z.to_nat (i + (j - 1)))); lia.
  - apply (IH (Z.to_nat (i - 1 + j))); lia.
Qed.

Lemma gap_states_unused_updS (m n : Z) (f : AlignmentMatrix) (i j v : Z) :
  0 <= i < m -> 0 <= j < n ->
  gap_states_unused m n f -> gap_states_unused m n (updS f F i j v).
Proof.
  intros Hi Hj [Hws Hq]. split; [by apply well_shaped_updS|].
  intros t i' j' Hi' Hj'. destruct (Hq t i' j' Hi' Hj') as [Hd Hs].
  split; [by rewrite dirAt_updS|].
  intros Ht. rewrite scoreAt_updS_ne; [by apply Hs | lia.. |].
  left. congruence.
Qed.

Section StrictMatrix.

Context {S : Type} `{Scoring S}.
Variable scoring : S.
Variable gapScore : Z.
Variables first second : EncodedSequence.
Variables m n : Z.
Hypothesis Hm : m = Seq.len first + 1.
Hypothesis Hn : n = Seq.len second + 1.

Lemma strict_fill_cell_unused (f : AlignmentMatrix) (i j : Z) :
  1 <= i < m -> 1 <= j < n -> gap_states_unused m n f ->
  exists f',
    StrictGlobalSequenceAligner.fill_cell scoring gapScore first second
      f i j = Ok f'
    /\ gap_states_unused m n f'.
Proof.
  intros Hi Hj Hq. pose proof Hq as [Hws _].
  unfold StrictGlobalSequenceAligner.fill_cell.
  run_store m n.
  eexists; split; [reflexivity|].
  apply gap_states_unused_updS; [lia | lia | done].
Qed.

(** The linear-gap fill writes scores of state F only. *)
Lemma strict_computeAlignmentMatrix_unused :
  exists f,
    StrictGlobalSequenceAligner.computeAlignmentMatrix scoring gapScore
      first second = Ok f
    /\ gap_states_unused m n f.
Proof.
  unfold StrictGlobalSequenceAligner.computeAlignmentMatrix.
  cbv zeta. rewrite <- Hm, <- Hn.
  pose proof (Seq_len_nonneg first) as Hlf.
  pose proof (Seq_len_nonneg second) as Hls.
  destruct (foldM_range_inv (fun _ => gap_states_unused m n)
    (fun f i =>
       x ← AlignmentMatrix.getScore f F (i - 1) 0;
       AlignmentMatrix.setScore f F i 0 (x + gapScore))
    1 m (AlignmentMatrix.init (m, n))) as (f1 & -> & Hf1); [lia | | |].
  { split; [apply well_shaped_init|]. intros t i j Hi Hj.
    by rewrite dirAt_init, scoreAt_init. }
  { intros k f Hk Hq. pose proof Hq as [Hws _]. run_store m n.
    eexists; split; [reflexivity|].
    apply gap_states_unused_updS; [lia | lia | done]. }
  rewrite bind_Ok.
  destruct (foldM_range_inv (fun _ => gap_states_unused m n)
    (fun f j =>
       y ← AlignmentMatrix.getScore f F 0 (j - 1);
       AlignmentMatrix.setScore f F 0 j (y + gapScore))
    1 n f1) as (f2 & -> & Hf2); [lia | done | |].
  { intros k f Hk Hq. pose proof Hq as [Hws _]. run_store m n.
    eexists; split; [reflexivity|].
    apply gap_states_unused_updS; [lia | lia | done]. }
  rewrite bind_Ok.
  apply (foldM_range_inv (fun _ => gap_states_unused m n)); [lia | done |].
  intros i f Hi Hq.
  apply (foldM_range_inv (fun _ => gap_states_unused m n)); [lia | done |].
  intros j f' Hj Hq'. by apply strict_fill_cell_unused.
Qed.

End StrictMatrix.

(** X15: the matrix that the linear-gap [computeAlignmentMatrix] returns
    holds [(i + j) * gapScore] in the first row and the first column of
    F, and at every inner cell of F the largest of the diagonal
    neighbour plus the score of the two elements, the left neighbour
    plus [gapScore] and the upper neighbour plus [gapScore]. *)
Theorem strict_fill_recurrence {S : Type} `{Scoring S} (scoring : S)
    (gapScore : Z) (first second : EncodedSequence) :
  exists f,
    StrictGlobalSequenceAligner.computeAlignmentMatrix scoring gapScore
      first second = Ok f
    /\ shape f = (Seq.len first + 1, Seq.len second + 1)
    /\ (forall i j, 0 <= i <= Seq.len first -> 0 <= j <= Seq.len second ->
          i = 0 \/ j = 0 ->
          AlignmentMatrix.getScore f F i j = Ok ((i + j) * gapScore))
    /\ (forall i j, 1 <= i <= Seq.len first -> 1 <= j <= Seq.len second ->
          exists d l u a b,
            AlignmentMatrix.getScore f F (i - 1) (j - 1) = Ok d
            /\ AlignmentMatrix.getScore f F i (j - 1) = Ok l
            /\ AlignmentMatrix.getScore f F (i - 1) j = Ok u
            /\ Seq.get first (i - 1) = Ok a
            /\ Seq.get second (j - 1) = Ok b
            /\ AlignmentMatrix.getScore f F i j
               = Ok (max3 (d + call scoring a b) (l + gapScore)
                          (u + gapScore))).
Proof.
  destruct (strict_computeAlignmentMatrix_ok scoring gapScore first second)
    as (f & Hf & Hws & Hrec & Hborder).
  exists f. split; [done|]. split; [apply Hws|]. split.
  - intros i j Hi Hj Hb.
    rewrite (getScore_ok f _ _ Hws) by lia. f_equal. apply Hborder; lia.
  - intros i j Hi Hj.
    exists (scoreAt f F (i - 1) (j - 1)), (scoreAt f F i (j - 1)),
      (scoreAt f F (i - 1) j), (elt first (i - 1)), (elt second (j - 1)).
    rewrite !(getScore_ok f _ _ Hws) by lia.
    rewrite !Seq_get_elt by lia.
    repeat (split; [done|]). f_equal. apply Hrec; lia.
Qed.

(** X16: the linear-gap [computeAlignmentMatrix] writes scores of state F
    only: in the matrix it returns every IX and IY score is 0 and every
    direction list, of the three states, is empty. *)
Theorem strict_fill_leaves_gap_states {S : Type} `{Scoring S} (scoring : S)
    (gapScore : Z) (first second : EncodedSequence) :
  exists f,
    StrictGlobalSequenceAligner.computeAlignmentMatrix scoring gapScore
      first second = Ok f
    /\ forall t i j, 0 <= i <= Seq.len first -> 0 <= j <= Seq.len second ->
         AlignmentMatrix.getDirection f t i j = Ok []
         /\ (t <> F -> AlignmentMatrix.getScore f t i j = Ok 0).
Proof.
  destruct (strict_computeAlignmentMatrix_unused scoring gapScore first
              second _ _ eq_refl eq_refl) as (f & Hf & Hws & Hq).
  exists f. split; [done|]. intros t i j Hi Hj.
  rewrite (getDirection_ok f _ _ Hws), (getScore_ok f _ _ Hws) by lia.
  destruct (Hq t i j) as [-> Hs]; [lia | lia |]. split; [done|].
  intros Ht. by rewrite Hs.
Qed.

Section StrictBounds.

Context {S : Type} `{Scoring S}.
Variable scoring : S.
Variable gapScore : Z.

(** Every cell of F is at least the score of gaps only. *)
Lemma strict_cells_at_least_gaps (first second : EncodedSequence)
    (f : AlignmentMatrix) (m n : Z) :
  (forall i j, 1 <= i < m -> 1 <= j < n ->
     strict_rec scoring gapScore first second f i j) ->
  (forall i j, 0 <= i < m -> 0 <= j < n -> i = 0 \/ j = 0 ->
     scoreAt f F i j = (i + j) * gapScore) ->
  forall i j, 0 <= i < m -> 0 <= j < n ->
    (i + j) * gapScore <= scoreAt f F i j.
Proof.
  intros Hrec Hborder.
  apply (cells_ind (fun i j => (i + j) * gapScore <= scoreAt f F i j)).
  - intros i j Hi Hj Hb. rewrite Hborder by done. lia.
  - intros i j Hi Hj _ Hl _. rewrite (Hrec i j Hi Hj).
    unfold max3. nia.
Qed.

(** With a symmetric scoring the matrix of the swapped inputs is the
    transposed matrix. *)
Lemma strict_cells_transposed (first second : EncodedSequence)
    (f f' : AlignmentMatrix) (m n : Z) :
  (forall a b, call scoring a b = call scoring b a) ->
  (forall i j, 1 <= i < m -> 1 <= j < n ->
     strict_rec scoring gapScore first second f i j) ->
  (forall i j, 0 <= i < m -> 0 <= j < n -> i = 0 \/ j = 0 ->
     scoreAt f F i j = (i + j) * gapScore) ->
  (forall j i, 1 <= j < n -> 1 <= i < m ->
     strict_rec scoring gapScore second first f' j i) ->
  (forall j i, 0 <= j < n -> 0 <= i < m -> j = 0 \/ i = 0 ->
     scoreAt f' F j i = (j + i) * gapScore) ->
  forall i j, 0 <= i < m -> 0 <= j < n ->
    scoreAt f F i j = scoreAt f' F j i.
Proof.
  intros Hsym Hrec Hborder Hrec' Hborder'.
  apply (cells_ind (fun i j => scoreAt f F i j = scoreAt f' F j i)).
  - intros i j Hi Hj Hb. rewrite Hborder, Hborder' by tauto. ring.
  - intros i j Hi Hj Hd Hl Hu.
    rewrite (Hrec i j Hi Hj), (Hrec' j i Hj Hi), Hd, Hl, Hu.
    rewrite (Hsym (elt first (i - 1))). unfold max3. lia.
Qed.

End StrictBounds.

(** X17: the best score of the linear-gap aligner is at least the score of
    the alignment made of gaps only, [(len(first) + len(second)) *
    gapScore], whatever the scoring. *)
Theorem strict_score_at_least_all_gaps {S : Type} `{Scoring S} (scoring : S)
    (gapScore : Z) (first second : EncodedSequence) :
  exists sc als,
    StrictGlobalSequenceAligner.align scoring gapScore first second
    = Ok (sc, als)
    /\ (Seq.len first + Seq.len second) * gapScore <= sc.
Proof.
  destruct (strict_align_ok scoring gapScore first second)
    as (sc & als & Halign & _).
  exists sc, als. split; [done|].
  unfold StrictGlobalSequenceAligner.align in Halign.
  destruct (strict_computeAlignmentMatrix_ok scoring gapScore first second)
    as (f & Hf & Hws & Hrec & Hborder).
  pose proof (Seq_len_nonneg first) as Hlf.
  pose proof (Seq_len_nonneg second) as Hls.
  rewrite Hf, bind_Ok in Halign.
  unfold StrictGlobalSequenceAligner.bestScore in Halign.
  rewrite (getScore_last f _ _ Hws) in Halign by lia.
  rewrite bind_Ok in Halign.
  apply bind_Ok_inv in Halign as (als' & _ & [= <- _]).
  pose proof (strict_cells_at_least_gaps scoring gapScore first second f
                _ _ Hrec Hborder (Seq.len first) (Seq.len second)) as Hge.
  replace (Seq.len first + 1 - 1) with (Seq.len first) by lia.
  replace (Seq.len second + 1 - 1) with (Seq.len second) by lia.
  apply Hge; lia.
Qed.

(** X18: with a symmetric scoring function the linear-gap aligner gives the
    same best score when the two sequences are swapped. *)
Theorem strict_score_symmetric {S : Type} `{Scoring S} (scoring : S)
    (gapScore : Z) (first second : EncodedSequence) :
  (forall a b, call scoring a b = call scoring b a) ->
  exists sc als als',
    StrictGlobalSequenceAligner.align scoring gapScore first second
    = Ok (sc, als)
    /\ StrictGlobalSequenceAligner.align scoring gapScore second first
       = Ok (sc, als').
Proof.
  intros Hsym.
  destruct (strict_align_ok scoring gapScore first second)
    as (sc & als & Halign & _).
  destruct (strict_align_ok scoring gapScore second first)
    as (sc' & als' & Halign' & _).
  exists sc, als, als'. split; [done|].
  rewrite Halign'. do 2 f_equal.
  unfold StrictGlobalSequenceAligner.align in Halign, Halign'.
  destruct (strict_computeAlignmentMatrix_ok scoring gapScore first second)
    as (f & Hf & Hws & Hrec & Hborder).
  destruct (strict_computeAlignmentMatrix_ok scoring gapScore second first)
    as (f' & Hf' & Hws' & Hrec' & Hborder').
  pose proof (Seq_len_nonneg first) as Hlf.
  pose proof (Seq_len_nonneg second) as Hls.
  rewrite Hf, bind_Ok in Halign. rewrite Hf', bind_Ok in Halign'.
  unfold StrictGlobalSequenceAligner.bestScore in Halign, Halign'.
  rewrite (getScore_last f _ _ Hws) in Halign by lia.
  rewrite (getScore_last f' _ _ Hws') in Halign' by lia.
  rewrite bind_Ok in Halign, Halign'.
  apply bind_Ok_inv in Halign as (x & _ & [= <- _]).
  apply bind_Ok_inv in Halign' as (x' & _ & [= <- _]).
  symmetry.
  apply (strict_cells_transposed scoring gapScore first second f f'
           _ _ Hsym Hrec Hborder Hrec' Hborder'); lia.
Qed.

Lemma strict_score_symmetric_witness :
  (forall a b, call (mkSimpleScoring 2 (-1) 0 0) a b
               = call (mkSimpleScoring 2 (-1) 0 0) b a)
  /\ exists sc als als',
       StrictGlobalSequenceAligner.align (mkSimpleScoring 2 (-1) 0 0) (-2)
         (mkSeq [1; 2; 3] 0) (mkSeq [2; 3] 1) = Ok (sc, als)
       /\ StrictGlobalSequenceAligner.align (mkSimpleScoring 2 (-1) 0 0)
            (-2) (mkSeq [2; 3] 1) (mkSeq [1; 2; 3] 0) = Ok (sc, als').
Proof.
  assert (forall a b, call (mkSimpleScoring 2 (-1) 0 0) a b
                      = call (mkSimpleScoring 2 (-1) 0 0) b a) as Hsym.
  { intros a b. simpl. rewrite (Z.eqb_sym a b). reflexivity. }
  split; [exact Hsym|].
  exact (strict_score_symmetric (mkSimpleScoring 2 (-1) 0 0) (-2)
           (mkSeq [1; 2; 3] 0) (mkSeq [2; 3] 1) Hsym).
Defined.

(** ** Swapping the two sequences *)

Lemma max3_swap (a b c : Z) : max3 a b c = max3 a c b.
Proof. unfold max3. lia. Qed.

Section Transposed.

Context {S : Type} `{Scoring S} `{GapScoring S}.
Variable scoring : S.
Variables first second : EncodedSequence.
Variables f f' : AlignmentMatrix.
Hypothesis Hsym : forall a b, call scoring a b = call scoring b a.

Let m := Seq.len first + 1.
Let n := Seq.len second + 1.

(** With a symmetric scoring the affine global matrix of the swapped
    inputs is the transposed matrix, with IX and IY exchanged. *)
Lemma global_cells_transposed :
  (forall i j, 1 <= i < m -> 1 <= j < n ->
     global_rec scoring first second f i j) ->
  (forall t i j, 0 <= i < m -> 0 <= j < n -> i = 0 \/ j = 0 ->
     scoreAt f t i j = 0 /\ dirAt f t i j = []) ->
  (forall j i, 1 <= j < n -> 1 <= i < m ->
     global_rec scoring second first f' j i) ->
  (forall t j i, 0 <= j < n -> 0 <= i < m -> j = 0 \/ i = 0 ->
     scoreAt f' t j i = 0 /\ dirAt f' t j i = []) ->
  forall i j, 0 <= i < m -> 0 <= j < n ->
    scoreAt f F i j = scoreAt f' F j i
    /\ scoreAt f IX i j = scoreAt f' IY j i
    /\ scoreAt f IY i j = scoreAt f' IX j i.
Proof.
  intros Hrec Hborder Hrec' Hborder'.
  apply (cells_ind (fun i j =>
           scoreAt f F i j = scoreAt f' F j i
           /\ scoreAt f IX i j = scoreAt f' IY j i
           /\ scoreAt f IY i j = scoreAt f' IX j i)).
  - intros i j Hi Hj Hb.
    rewrite !(proj1 (Hborder _ i j Hi Hj Hb)).
    rewrite !(proj1 (Hborder' _ j i Hj Hi ltac:(tauto))). done.
  - intros i j Hi Hj (Hd1 & Hd2 & Hd3) (Hl1 & Hl2 & Hl3) (Hu1 & Hu2 & Hu3).
    destruct (Hrec i j Hi Hj) as (HF & _ & HIX & _ & HIY & _).
    destruct (Hrec' j i Hj Hi) as (HF' & _ & HIX' & _ & HIY' & _).
    cbv zeta in HF, HIX, HIY, HF', HIX', HIY'.
    fold m in HIX, HIY, HIX', HIY'. fold n in HIX, HIY, HIX', HIY'.
    rewrite HF, HIX, HIY, HF', HIX', HIY'.
    rewrite Hd1, Hd2, Hd3, Hl1, Hl2, Hl3, Hu1, Hu2, Hu3.
    rewrite (Hsym (elt first (i - 1))).
    repeat split; by rewrite max3_swap.
Qed.

(** The same for the affine local matrix. *)
Lemma local_cells_transposed :
  (forall i j, 1 <= i < m -> 1 <= j < n ->
     local_rec scoring first second f i j) ->
  (forall t i j, 0 <= i < m -> 0 <= j < n -> i = 0 \/ j = 0 ->
     scoreAt f t i j = local_border_score t i j
     /\ dirAt f t i j = local_border_dir t i j) ->
  (forall j i, 1 <= j < n -> 1 <= i < m ->
     local_rec scoring second first f' j i) ->
  (forall t j i, 0 <= j < n -> 0 <= i < m -> j = 0 \/ i = 0 ->
     scoreAt f' t j i = local_border_score t j i
     /\ dirAt f' t j i = local_border_dir t j i) ->
  forall i j, 0 <= i < m -> 0 <= j < n ->
    scoreAt f F i j = scoreAt f' F j i
    /\ scoreAt f IX i j = scoreAt f' IY j i
    /\ scoreAt f IY i j = scoreAt f' IX j i.
Proof.
  intros Hrec Hborder Hrec' Hborder'.
  apply (cells_ind (fun i j =>
           scoreAt f F i j = scoreAt f' F j i
           /\ scoreAt f IX i j = scoreAt f' IY j i
           /\ scoreAt f IY i j = scoreAt f' IX j i)).
  - intros i j Hi Hj Hb.
    rewrite !(proj1 (Hborder _ i j Hi Hj Hb)).
    rewrite !(proj1 (Hborder' _ j i Hj Hi ltac:(tauto))).
    unfold local_border_score.
    destruct (Z.eqb_spec i 0), (Z.eqb_spec j 0); cbn; try done; lia.
  - intros i j Hi Hj (Hd1 & Hd2 & Hd3) (Hl1 & Hl2 & Hl3) (Hu1 & Hu2 & Hu3).
    destruct (Hrec i j Hi Hj) as (HF & _ & HIX & _ & HIY & _).
    destruct (Hrec' j i Hj Hi) as (HF' & _ & HIX' & _ & HIY' & _).
    cbv zeta in HF, HIX, HIY, HF', HIX', HIY'.
    rewrite HF, HIX, HIY, HF', HIX', HIY'.
    rewrite Hd1, Hd2, Hd3, Hl1, Hl2, Hl3, Hu1, Hu2, Hu3.
    rewrite (Hsym (elt first (i - 1))).
    repeat split; by rewrite max3_swap.
Qed.

End Transposed.

(** X19: with a symmetric scoring function the affine global aligner gives
    the same best score when the two sequences are swapped. *)
Theorem global_score_symmetric {S : Type} `{Scoring S} `{GapScoring S}
    (scoring : S) (fastBacktrace : bool) (first second : EncodedSequence) :
  (forall a b, call scoring a b = call scoring b a) ->
  exists sc als als',
    GlobalSequenceAligner.align scoring fastBacktrace first second
    = Ok (sc, als)
    /\ GlobalSequenceAligner.align scoring fastBacktrace second first
       = Ok (sc, als').
Proof.
  intros Hsym.
  destruct (global_align_ok scoring fastBacktrace first second)
    as (sc & als & Halign).
  destruct (global_align_ok scoring fastBacktrace second first)
    as (sc' & als' & Halign').
  exists sc, als, als'. split; [done|].
  rewrite Halign'. do 2 f_equal.
  unfold GlobalSequenceAligner.align in Halign, Halign'.
  destruct (global_computeAlignmentMatrix_ok scoring first second)
    as (f & Hf & Hws & Hrec & Hborder).
  destruct (global_computeAlignmentMatrix_ok scoring second first)
    as (f' & Hf' & Hws' & Hrec' & Hborder').
  pose proof (Seq_len_nonneg first) as Hlf.
  pose proof (Seq_len_nonneg second) as Hls.
  rewrite Hf, bind_Ok in Halign. rewrite Hf', bind_Ok in Halign'.
  rewrite (global_bestScore_ok first second f _ _ Hws eq_refl eq_refl),
    bind_Ok in Halign.
  rewrite (global_bestScore_ok second first f' _ _ Hws' eq_refl eq_refl),
    bind_Ok in Halign'.
  apply bind_Ok_inv in Halign as (x & _ & [= <- _]).
  apply bind_Ok_inv in Halign' as (x' & _ & [= <- _]).
  destruct (global_cells_transposed scoring first second f f' Hsym
              Hrec Hborder Hrec' Hborder'
              (Seq.len first + 1 - 1) (Seq.len second + 1 - 1))
    as (-> & -> & ->); [lia | lia |].
  unfold max3. lia.
Qed.

Lemma global_score_symmetric_witness :
  (forall a b, call (mkSimpleScoring 2 (-1) (-3) (-1)) a b
               = call (mkSimpleScoring 2 (-1) (-3) (-1)) b a)
  /\ exists sc als als',
       GlobalSequenceAligner.align (mkSimpleScoring 2 (-1) (-3) (-1)) false
         (mkSeq [1; 2; 3] 0) (mkSeq [2; 3] 1) = Ok (sc, als)
       /\ GlobalSequenceAligner.align (mkSimpleScoring 2 (-1) (-3) (-1))
            false (mkSeq [2; 3] 1) (mkSeq [1; 2; 3] 0) = Ok (sc, als').
Proof.
  assert (forall a b, call (mkSimpleScoring 2 (-1) (-3) (-1)) a b
                      = call (mkSimpleScoring 2 (-1) (-3) (-1)) b a)
    as Hsym.
  { intros a b. simpl. rewrite (Z.eqb_sym a b). reflexivity. }
  split; [exact Hsym|].
  exact (global_score_symmetric (mkSimpleScoring 2 (-1) (-3) (-1)) false
           (mkSeq [1; 2; 3] 0) (mkSeq [2; 3] 1) Hsym).
Defined.

(** X20: with a symmetric scoring function the affine local aligner gives
    the same best score when the two sequences are swapped. *)
Theorem local_score_symmetric {S : Type} `{Scoring S} `{GapScoring S}
    (scoring : S) (first second : EncodedSequence) :
  (forall a b, call scoring a b = call scoring b a) ->
  exists sc als als',
    LocalSequenceAligner.align scoring None first second = Ok (sc, als)
    /\ LocalSequenceAligner.align scoring None second first
       = Ok (sc, als').
Proof.
  intros Hsym.
  destruct (local_align_ok scoring first second) as (sc & als & Halign).
  destruct (local_align_ok scoring second first) as (sc' & als' & Halign').
  exists sc, als, als'. split; [done|].
  rewrite Halign'. do 2 f_equal.
  unfold LocalSequenceAligner.align in Halign, Halign'.
  destruct (local_computeAlignmentMatrix_ok scoring first second)
    as (f & Hf & Hws & Hrec & Hborder).
  destruct (local_computeAlignmentMatrix_ok scoring second first)
    as (f' & Hf' & Hws' & Hrec' & Hborder').
  pose proof (Seq_len_nonneg first) as Hlf.
  pose proof (Seq_len_nonneg second) as Hls.
  rewrite Hf, bind_Ok in Halign. rewrite Hf', bind_Ok in Halign'.
  unfold LocalSequenceAligner.bestScore in Halign, Halign'.
  destruct (matrix_max_spec f _ _ Hws) as (v & Hmax & Hle & Hat);
    [lia | lia |].
  destruct (matrix_max_spec f' _ _ Hws') as (v' & Hmax' & Hle' & Hat');
    [lia | lia |].
  rewrite Hmax, bind_Ok in Halign. rewrite Hmax', bind_Ok in Halign'.
  apply bind_Ok_inv in Halign as (x & _ & [= <- _]).
  apply bind_Ok_inv in Halign' as (x' & _ & [= <- _]).
  pose proof (local_cells_transposed scoring first second f f' Hsym
                Hrec Hborder Hrec' Hborder') as Htr.
  destruct Hat as (t & i & j & Hi & Hj & Hv).
  destruct Hat' as (t' & j' & i' & Hj' & Hi' & Hv').
  destruct (Htr i j Hi Hj) as (H1 & H2 & H3).
  destruct (Htr i' j' Hi' Hj') as (H1' & H2' & H3').
  assert (v <= v').
  { rewrite <- Hv. destruct t; rewrite ?H1, ?H2, ?H3; by apply Hle'. }
  assert (v' <= v).
  { rewrite <- Hv'. destruct t'; rewrite <- ?H1', <- ?H2', <- ?H3';
      by apply Hle. }
  lia.
Qed.

Lemma local_score_symmetric_witness :
  (forall a b, call (mkSimpleScoring 2 (-1) (-3) (-1)) a b
               = call (mkSimpleScoring 2 (-1) (-3) (-1)) b a)
  /\ exists sc als als',
       LocalSequenceAligner.align (mkSimpleScoring 2 (-1) (-3) (-1)) None
         (mkSeq [1; 2; 3] 0) (mkSeq [2; 3] 1) = Ok (sc, als)
       /\ LocalSequenceAligner.align (mkSimpleScoring 2 (-1) (-3) (-1))
            None (mkSeq [2; 3] 1) (mkSeq [1; 2; 3] 0) = Ok (sc, als').
Proof.
  assert (forall a b, call (mkSimpleScoring 2 (-1) (-3) (-1)) a b
                      = call (mkSimpleScoring 2 (-1) (-3) (-1)) b a)
    as Hsym.
  { intros a b. simpl. rewrite (Z.eqb_sym a b). reflexivity. }
  split; [exact Hsym|].
  exact (local_score_symmetric (mkSimpleScoring 2 (-1) (-3) (-1))
           (mkSeq [1; 2; 3] 0) (mkSeq [2; 3] 1) Hsym).
Defined.

(** ** The columns of the returned alignments *)

Lemma Seq_get_elem (s : EncodedSequence) (k a : Z) :
  Seq.get s k = Ok a -> a ∈ elements s.
Proof.
  unfold Seq.get, py_get. destruct (py_norm _ k) as [i|]; [|done].
  destruct (elements s !! i) as [x|] eqn:Hx; [|done].
  intros [= <-]. by eapply list_elem_of_lookup_2.
Qed.

Section Columns.

Variables first second : EncodedSequence.

Abbreviation paired := (no_double_gap first second).

Lemma paired_nil (al : SequenceAlignment) : paired al [].
Proof. intros _ _. constructor. Qed.

Lemma paired_first (a b s : Z) (al : SequenceAlignment)
    (cols : list column) :
  a ∈ elements first ->
  paired (SequenceAlignment.push al a b s) cols ->
  paired al ((a, b, s) :: cols).
Proof.
  intros Ha Hc Hg1 Hg2. constructor; [|by apply Hc].
  left. cbn. intros ->. contradiction.
Qed.

Lemma paired_second (a b s : Z) (al : SequenceAlignment)
    (cols : list column) :
  b ∈ elements second ->
  paired (SequenceAlignment.push al a b s) cols ->
  paired al ((a, b, s) :: cols).
Proof.
  intros Hb Hc Hg1 Hg2. constructor; [|by apply Hc].
  right. cbn. intros ->. contradiction.
Qed.

Lemma global_backtraceFrom_paired (fastBacktrace : bool)
    (f : AlignmentMatrix) (fuel : nat) (i j : Z) (current : MatrixType) :
  descent paired
    (fun st => GlobalSequenceAligner.backtraceFrom fastBacktrace fuel
                 first second f i j st current).
Proof.
  revert i j current. induction fuel as [|fuel IH]; intros i j current.
  { apply descent_raise. }
  cbn [GlobalSequenceAligner.backtraceFrom].
  destruct ((i =? 0) || (j =? 0)).
  { destruct current;
      first [apply descent_finalize, paired_nil | apply descent_skip]. }
  destruct (shape f) as [m n].
  apply descent_bind; intros allDirections _.
  apply descent_bind; intros c _.
  apply descent_bind; intros a Ha. apply Seq_get_elem in Ha.
  apply descent_bind; intros b Hb. apply Seq_get_elem in Hb.
  destruct current.
  - apply descent_foldM; intros dir _.
    apply descent_bind; intros p _.
    eapply descent_with_push; [apply IH|].
    intros al cols. by apply paired_first.
  - destruct (i =? m - 1).
    + apply descent_foldM; intros dir _.
      apply descent_bind; intros y _.
      destruct (c =? y); [apply IH | apply descent_skip].
    + apply descent_foldM; intros dir _.
      apply descent_bind; intros y _.
      apply (descent_with_push_from paired paired gap (fun _ => b));
        [apply IH|].
      intros al cols. by apply paired_second.
  - destruct (j =? n - 1).
    + apply descent_foldM; intros dir _.
      apply descent_bind; intros x _.
      destruct (c =? x); [apply IH | apply descent_skip].
    + apply descent_foldM; intros dir _.
      apply descent_bind; intros x _.
      apply (descent_with_push_from paired paired (fun _ => a) gap);
        [apply IH|].
      intros al cols. by apply paired_first.
Qed.

Lemma local_backtraceFrom_paired (f : AlignmentMatrix) (fuel : nat)
    (i j : Z) (current : MatrixType) :
  descent paired
    (fun st => LocalSequenceAligner.backtraceFrom fuel first second f
                 i j st current).
Proof.
  revert i j current. induction fuel as [|fuel IH]; intros i j current.
  { apply descent_raise. }
  cbn [LocalSequenceAligner.backtraceFrom].
  apply descent_bind; intros c0 _.
  destruct (c0 =? 0); [apply descent_finalize, paired_nil|].
  apply descent_bind; intros directions _.
  apply descent_bind; intros c _.
  apply descent_bind; intros a Ha. apply Seq_get_elem in Ha.
  apply descent_bind; intros b Hb. apply Seq_get_elem in Hb.
  destruct current.
  - apply descent_foldM; intros dir _.
    apply descent_bind; intros p _.
    eapply descent_with_push; [apply IH|].
    intros al cols. by apply paired_first.
  - apply descent_foldM; intros dir _.
    apply descent_bind; intros y _.
    apply (descent_with_push_from paired paired gap (fun _ => b));
      [apply IH|].
    intros al cols. by apply paired_second.
  - apply descent_foldM; intros dir _.
    apply descent_bind; intros x _.
    apply (descent_with_push_from paired paired (fun _ => a) gap);
      [apply IH|].
    intros al cols. by apply paired_first.
Qed.

Lemma strict_backtraceFrom_paired {S : Type} `{Scoring S} (scoring : S)
    (gapScore : Z) (f : AlignmentMatrix) (fuel : nat) (i j : Z) :
  descent paired
    (StrictGlobalSequenceAligner.backtraceFrom scoring gapScore fuel
       first second f i j).
Proof.
  revert i j. induction fuel as [|fuel IH]; intros i j.
  { apply descent_raise. }
  cbn [StrictGlobalSequenceAligner.backtraceFrom].
  destruct ((i =? 0) && (j =? 0)); [apply descent_finalize, paired_nil|].
  apply descent_bind; intros c _.
  apply descent_bind; intros xa Hxa.
  assert (forall a, descent paired
            (StrictGlobalSequenceAligner.second_and_third_block scoring
               gapScore
               (StrictGlobalSequenceAligner.backtraceFrom scoring gapScore
                  fuel first second f) second f i j c a)) as Hrest.
  { intros a. apply second_and_third_block_descent.
    - intros y b _ Hb. apply Seq_get_elem in Hb.
      apply (descent_with_push_from paired paired gap (fun _ => b));
        [apply IH|].
      intros al cols. by apply paired_second.
    - intros a' b p _ _ Hb. apply Seq_get_elem in Hb.
      eapply descent_with_push; [apply IH|].
      intros al cols. by apply paired_second. }
  destruct xa as [[x a]|]; [|apply Hrest].
  destruct (negb (i =? 0)); [|discriminate].
  apply bind_Ok_inv in Hxa as (x' & _ & Hxa).
  apply bind_Ok_inv in Hxa as (a' & Ha & [= <- <-]).
  apply Seq_get_elem in Ha.
  destruct (c =? x' + gapScore); [|apply Hrest].
  apply (descent_with_push_from paired paired (fun _ => a') gap);
    [apply IH|].
  intros al cols. by apply paired_first.
Qed.

(** What the columns say about the positions of the reversed copy. *)
Lemma paired_trace (cols : list column) :
  GAP_CODE ∉ elements first -> GAP_CODE ∉ elements second ->
  paired (emptyAlignment first second) cols ->
  never_two_gaps (SequenceAlignment.reversed
                    (push_all (emptyAlignment first second) cols)).
Proof.
  intros Hg1 Hg2 Hp k a b.
  rewrite first_elements_reversed, second_elements_reversed,
    first_elements_push_all, second_elements_push_all.
  destruct (elements_emptyAlignment first second) as [-> ->].
  rewrite !app_nil_l. intros Ha Hb.
  apply reverse_lookup_Some in Ha as [Ha Hk].
  apply reverse_lookup_Some in Hb as [Hb _].
  rewrite length_map in Ha, Hb, Hk.
  rewrite list_lookup_fmap in Ha, Hb.
  destruct (cols !! (length cols - Datatypes.S k)%nat) as [c|] eqn:Hc;
    [|done].
  cbn in Ha, Hb. injection Ha as <-. injection Hb as <-.
  specialize (Hp Hg1 Hg2).
  destruct (push_all_fields (emptyAlignment first second) cols)
    as (_ & _ & _ & _ & Hgap).
  change (gap (SequenceAlignment.reversed
                 (push_all (emptyAlignment first second) cols)))
    with (gap (push_all (emptyAlignment first second) cols)).
  rewrite Hgap.
  apply (Forall_lookup_1 _ _ _ _ Hp Hc).
Qed.

End Columns.

(** X21: when neither input holds the gap code, no alignment returned by a
    backtrace of the three aligners holds the gap code in both sequences
    at the same position, whatever the matrix. *)
Theorem alignments_never_pair_gaps {S : Type} `{Scoring S} (scoring : S)
    (fastBacktrace : bool) (gapScore : Z) (minScore : option Z)
    (first second : EncodedSequence) (f : AlignmentMatrix) :
  GAP_CODE ∉ elements first -> GAP_CODE ∉ elements second ->
  (forall als,
     GlobalSequenceAligner.backtrace fastBacktrace first second f = Ok als ->
     Forall never_two_gaps als)
  /\ (forall als,
        LocalSequenceAligner.backtrace minScore first second f = Ok als ->
        Forall never_two_gaps als)
  /\ (forall als,
        StrictGlobalSequenceAligner.backtrace scoring gapScore first second f
        = Ok als ->
        Forall never_two_gaps als).
Proof.
  intros Hg1 Hg2. split; [|split]; intros als Hr.
  - unfold GlobalSequenceAligner.backtrace in Hr.
    destruct (shape f) as [m n].
    apply bind_Ok_inv in Hr as (types & _ & Hr).
    apply bind_Ok_inv in Hr as (st & Hst & [= <-]).
    eapply descent_run in Hst as (new & _ & -> & Hall).
    2:{ apply (descent_foldM (no_double_gap first second)). intros t _.
        apply global_backtraceFrom_paired. }
    cbn. eapply Forall_impl; [exact Hall|].
    intros x (cols & -> & Hp). by apply paired_trace.
  - unfold LocalSequenceAligner.backtrace in Hr.
    destruct (shape f) as [m n].
    apply bind_Ok_inv in Hr as (thr & _ & Hr).
    apply bind_Ok_inv in Hr as (st & Hst & [= <-]).
    eapply descent_run in Hst as (new & _ & -> & Hall).
    2:{ apply (descent_foldM (no_double_gap first second)). intros i _.
        apply (descent_foldM (no_double_gap first second)). intros j _.
        apply descent_bind. intros v _.
        destruct (thr <=? v); [|apply descent_skip].
        apply local_backtraceFrom_paired. }
    cbn. eapply Forall_impl; [exact Hall|].
    intros x (cols & -> & Hp). by apply paired_trace.
  - unfold StrictGlobalSequenceAligner.backtrace in Hr.
    destruct (shape f) as [m n].
    apply bind_Ok_inv in Hr as (st & Hst & [= <-]).
    eapply descent_run in Hst as (new & _ & -> & Hall).
    2:{ apply strict_backtraceFrom_paired. }
    cbn. eapply Forall_impl; [exact Hall|].
    intros x (cols & -> & Hp). by apply paired_trace.
Qed.

Lemma alignments_never_pair_gaps_witness :
  (GAP_CODE ∉ elements (mkSeq [1; 2] 0))
  /\ (GAP_CODE ∉ elements (mkSeq [2] 1))
  /\ exists f als,
       StrictGlobalSequenceAligner.computeAlignmentMatrix
         (mkSimpleScoring 1 0 0 0) (-1) (mkSeq [1; 2] 0) (mkSeq [2] 1)
       = Ok f
       /\ StrictGlobalSequenceAligner.backtrace (mkSimpleScoring 1 0 0 0)
            (-1) (mkSeq [1; 2] 0) (mkSeq [2] 1) f = Ok als
       /\ Forall never_two_gaps als.
Proof.
  assert (GAP_CODE ∉ elements (mkSeq [1; 2] 0)) as Hg1
    by (apply (bool_decide_unpack _); vm_compute; exact I).
  assert (GAP_CODE ∉ elements (mkSeq [2] 1)) as Hg2
    by (apply (bool_decide_unpack _); vm_compute; exact I).
  split; [exact Hg1|]. split; [exact Hg2|].
  do 2 eexists.
  split; [vm_compute; reflexivity|].
  match goal with
  | |- ?R = Ok ?a /\ _ =>
      assert (R = Ok a) as Hr by (vm_compute; reflexivity)
  end.
  split; [exact Hr|].
  exact (proj2 (proj2 (alignments_never_pair_gaps (mkSimpleScoring 1 0 0 0)
                         false (-1) None (mkSeq [1; 2] 0) (mkSeq [2] 1)
                         _ Hg1 Hg2)) _ Hr).
Defined.

(** ** The counters of a linear-gap alignment *)

Lemma columns_eq (l l' : list column) :
  map col_first l = map col_first l' ->
  map col_second l = map col_second l' ->
  map col_score l = map col_score l' ->
  l = l'.
Proof.
  revert l'. induction l as [|[[a b] s] l IH]; intros [|[[a' b'] s'] l'];
    cbn; intros H1 H2 H3; try discriminate; [done|].
  injection H1 as -> H1. injection H2 as -> H2. injection H3 as -> H3.
  f_equal. by apply IH.
Qed.

(** The columns can be read off the reversed copy. *)
Lemma reversed_push_all_inj (al : SequenceAlignment)
    (cols cols' : list column) :
  SequenceAlignment.reversed (push_all al cols)
  = SequenceAlignment.reversed (push_all al cols') ->
  cols = cols'.
Proof.
  intros Heq.
  pose proof (f_equal first_elements Heq) as H1.
  pose proof (f_equal second_elements Heq) as H2.
  pose proof (f_equal scores Heq) as H3.
  rewrite !first_elements_reversed, !first_elements_push_all in H1.
  rewrite !second_elements_reversed, !second_elements_push_all in H2.
  change (scores (push_all al cols) = scores (push_all al cols')) in H3.
  destruct (push_all_fields al cols) as (_ & _ & Hs & _).
  destruct (push_all_fields al cols') as (_ & _ & Hs' & _).
  rewrite Hs, Hs' in H3.
  apply (inj reverse), app_inv_head in H1.
  apply (inj reverse), app_inv_head in H2.
  apply app_inv_head in H3.
  by apply columns_eq.
Qed.

Lemma descent_and (P Q : SequenceAlignment -> list column -> Prop)
    (d : bt_state -> result bt_state) :
  descent P d -> descent Q d ->
  descent (fun al cols => P al cols /\ Q al cols) d.
Proof.
  intros [Happ HP] [_ HQ]. split; [done|].
  intros al new al' Hd.
  destruct (HP al new al' Hd) as [-> HallP].
  destruct (HQ al new al Hd) as [_ HallQ].
  split; [done|].
  assert (Forall (fun x =>
            (exists cols,
               x = SequenceAlignment.reversed (push_all al cols)
               /\ P al cols)
            /\ (exists cols,
                  x = SequenceAlignment.reversed (push_all al cols)
                  /\ Q al cols)) new) as Hall
    by (by apply Forall_and).
  eapply Forall_impl; [exact Hall|].
  intros x [(cols & -> & Hp) (cols' & Heq & Hq)].
  apply reversed_push_all_inj in Heq as <-. eauto.
Qed.

(** The two counters that [push] keeps, against the elements that are
    not gaps. *)
Lemma counters_of_columns (g : Z) (cols : list column)
    (al : SequenceAlignment) :
  gap al = g ->
  Forall (fun c => col_first c <> g \/ col_second c <> g) cols ->
  Z.of_nat (length (remove_gaps g (map col_first cols)))
  + Z.of_nat (length (remove_gaps g (map col_second cols)))
  = (gapCount (push_all al cols) - gapCount al)
    + 2 * (preservedCount (push_all al cols) - preservedCount al)
  /\ preservedCount (push_all al cols) - preservedCount al
     <= Z.of_nat (length (remove_gaps g (map col_first cols)))
  /\ preservedCount (push_all al cols) - preservedCount al
     <= Z.of_nat (length (remove_gaps g (map col_second cols))).
Proof.
  revert al. induction cols as [|[[a b] s] cols IH]; intros al Hg Hall.
  { cbn. lia. }
  apply Forall_cons in Hall as [Hc Hall].
  rewrite push_all_cons. cbn [map col_first col_second col_score fst snd]
    in *.
  destruct (IH (SequenceAlignment.push al a b s) Hg Hall)
    as (H1 & H2 & H3).
  rewrite !remove_gaps_cons.
  cbn [SequenceAlignment.push gapCount preservedCount] in H1, H2, H3.
  rewrite Hg in H1, H2, H3.
  destruct (Z.eqb_spec a g), (Z.eqb_spec b g);
    cbn [negb orb length] in *; lia.
Qed.

(** X22: when neither input holds the gap code, every alignment that the
    linear-gap aligner returns has consistent counters: its gap columns
    plus twice its preserved columns count the elements of the two
    inputs, and its length is at least the length of each input and at
    most their sum. *)
Theorem strict_alignment_counters {S : Type} `{Scoring S} (scoring : S)
    (gapScore : Z) (first second : EncodedSequence) :
  GAP_CODE ∉ elements first -> GAP_CODE ∉ elements second ->
  exists sc als,
    StrictGlobalSequenceAligner.align scoring gapScore first second
    = Ok (sc, als)
    /\ Forall (fun al =>
                 gapCount al + 2 * preservedCount al
                 = Seq.len first + Seq.len second
                 /\ exists k,
                      SequenceAlignment.len al = Ok k
                      /\ k = gapCount al + preservedCount al
                      /\ Seq.len first <= k /\ Seq.len second <= k
                      /\ k <= Seq.len first + Seq.len second) als.
Proof.
  intros Hg1 Hg2.
  destruct (strict_align_ok scoring gapScore first second)
    as (sc & als & Halign & _).
  exists sc, als. split; [done|].
  unfold StrictGlobalSequenceAligner.align in Halign.
  destruct (strict_computeAlignmentMatrix_ok scoring gapScore first second)
    as (f & Hf & Hws & _).
  pose proof (Seq_len_nonneg first) as Hlf.
  pose proof (Seq_len_nonneg second) as Hls.
  rewrite Hf, bind_Ok in Halign.
  apply bind_Ok_inv in Halign as (sc' & _ & Halign).
  apply bind_Ok_inv in Halign as (als' & Hals & [= _ <-]).
  unfold StrictGlobalSequenceAligner.backtrace in Hals.
  pose proof Hws as [Hshape _]. rewrite Hshape in Hals.
  apply bind_Ok_inv in Hals as (st & Hst & [= <-]).
  eapply descent_run in Hst as (new & _ & -> & Hall).
  2:{ apply descent_and.
      - apply (strict_backtraceFrom_descent scoring gapScore first second f);
          lia.
      - apply strict_backtraceFrom_paired. }
  cbn [fst]. rewrite app_nil_l.
  eapply Forall_impl; [exact Hall|].
  intros x (cols & -> & Hcov & Hpair).
  destruct (Hcov Hg1 Hg2) as [Hc1 Hc2]. specialize (Hpair Hg1 Hg2).
  cbn [gap emptyAlignment SequenceAlignment.init] in Hc1, Hc2, Hpair.
  destruct (counters_of_columns GAP_CODE cols
              (emptyAlignment first second) eq_refl Hpair)
    as (Hsum & Hp1 & Hp2).
  rewrite Hc1, Hc2 in Hsum. rewrite Hc1 in Hp1. rewrite Hc2 in Hp2.
  rewrite !length_reverse, !length_take in Hsum.
  rewrite length_reverse, length_take in Hp1, Hp2.
  unfold Seq.len in *.
  pose proof (balanced_reversed _ _
                (balanced_push_all 0 _ cols
                   (balanced_empty first second))) as Hbal.
  pose proof (balanced_len _ _ Hbal) as Hlen.
  destruct Hbal as (_ & _ & _ & Hk & Hgc & Hpc & _).
  change (gapCount (emptyAlignment first second)) with 0 in *.
  change (preservedCount (emptyAlignment first second)) with 0 in *.
  change (gapCount (SequenceAlignment.reversed ?y)) with (gapCount y) in *.
  change (preservedCount (SequenceAlignment.reversed ?y))
    with (preservedCount y) in *.
  split; [lia|].
  eexists. split; [exact Hlen|]. lia.
Qed.

Lemma strict_alignment_counters_witness :
  (GAP_CODE ∉ elements (mkSeq [1; 2] 0))
  /\ (GAP_CODE ∉ elements (mkSeq [2] 1))
  /\ exists sc als,
       StrictGlobalSequenceAligner.align (mkSimpleScoring 1 0 0 0) (-1)
         (mkSeq [1; 2] 0) (mkSeq [2] 1) = Ok (sc, als)
       /\ Forall (fun al =>
                    gapCount al + 2 * preservedCount al
                    = Seq.len (mkSeq [1; 2] 0) + Seq.len (mkSeq [2] 1)
                    /\ exists k,
                         SequenceAlignment.len al = Ok k
                         /\ k = gapCount al + preservedCount al
                         /\ Seq.len (mkSeq [1; 2] 0) <= k
                         /\ Seq.len (mkSeq [2] 1) <= k
                         /\ k <= Seq.len (mkSeq [1; 2] 0)
                                 + Seq.len (mkSeq [2] 1)) als.
Proof.
  assert (GAP_CODE ∉ elements (mkSeq [1; 2] 0)) as Hg1
    by (apply (bool_decide_unpack _); vm_compute; exact I).
  assert (GAP_CODE ∉ elements (mkSeq [2] 1)) as Hg2
    by (apply (bool_decide_unpack _); vm_compute; exact I).
  split; [exact Hg1|]. split; [exact Hg2|].
  exact (strict_alignment_counters (mkSimpleScoring 1 0 0 0) (-1)
           (mkSeq [1; 2] 0) (mkSeq [2] 1) Hg1 Hg2).
Defined.

(** ** Free end gaps of the affine global aligner *)

Lemma chain_le (g : Z -> Z) (n : Z) :
  (forall j, 1 <= j < n -> g (j - 1) <= g j) ->
  forall j' j, 0 <= j' <= j -> j < n -> g j' <= g j.
Proof.
  intros Hstep j' j Hj Hn.
  remember (Z.to_nat (j - j')) as d eqn:Hd. revert j Hj Hn Hd.
  induction d as [|d IH]; intros j Hj Hn Hd.
  - assert (j = j') as -> by lia. lia.
  - transitivity (g (j - 1)); [apply IH; lia | apply Hstep; lia].
Qed.

Section GlobalEnds.

Context {S : Type} `{Scoring S} `{GapScoring S}.
Variable scoring : S.
Variables first second : EncodedSequence.
Variable f : AlignmentMatrix.

Let m := Seq.len first + 1.
Let n := Seq.len second + 1.

Hypothesis Hrec : forall i j, 1 <= i < m -> 1 <= j < n ->
  global_rec scoring first second f i j.
Hypothesis Hborder : forall t i j, 0 <= i < m -> 0 <= j < n ->
  i = 0 \/ j = 0 -> scoreAt f t i j = 0 /\ dirAt f t i j = [].

(** The largest of the three scores of a cell. *)
Let best (i j : Z) : Z :=
  max3 (scoreAt f F i j) (scoreAt f IX i j) (scoreAt f IY i j).

Lemma best_ge (t : MatrixType) (i j : Z) : scoreAt f t i j <= best i j.
Proof. unfold best, max3. destruct t; lia. Qed.

Lemma best_border (i j : Z) :
  0 <= i < m -> 0 <= j < n -> i = 0 \/ j = 0 -> best i j = 0.
Proof.
  intros Hi Hj Hb. unfold best.
  by rewrite !(proj1 (Hborder _ i j Hi Hj Hb)).
Qed.

(** Along the last row and down the last column the best score of a
    cell never falls. *)
Lemma last_row_step (j : Z) :
  1 <= j < n -> best (m - 1) (j - 1) <= best (m - 1) j.
Proof.
  intros Hj. pose proof (Seq_len_nonneg first) as Hlf.
  destruct (decide (m - 1 = 0)) as [Hz|Hz].
  - rewrite !best_border; lia.
  - destruct (Hrec (m - 1) j ltac:(lia) Hj) as (_ & _ & HIX & _).
    cbv zeta in HIX. fold m in HIX. rewrite Z.eqb_refl in HIX.
    transitivity (scoreAt f IX (m - 1) j); [|apply best_ge].
    rewrite HIX. unfold best. lia.
Qed.

Lemma last_column_step (i : Z) :
  1 <= i < m -> best (i - 1) (n - 1) <= best i (n - 1).
Proof.
  intros Hi. pose proof (Seq_len_nonneg second) as Hls.
  destruct (decide (n - 1 = 0)) as [Hz|Hz].
  - rewrite !best_border; lia.
  - destruct (Hrec i (n - 1) Hi ltac:(lia)) as (_ & _ & _ & _ & HIY & _).
    cbv zeta in HIY. fold n in HIY. rewrite Z.eqb_refl in HIY.
    transitivity (scoreAt f IY i (n - 1)); [|apply best_ge].
    rewrite HIY. unfold best. lia.
Qed.

Lemma corner_dominates :
  0 <= best (m - 1) (n - 1)
  /\ (forall t j, 0 <= j < n ->
        scoreAt f t (m - 1) j <= best (m - 1) (n - 1))
  /\ (forall t i, 0 <= i < m ->
        scoreAt f t i (n - 1) <= best (m - 1) (n - 1)).
Proof.
  pose proof (Seq_len_nonneg first) as Hlf.
  pose proof (Seq_len_nonneg second) as Hls.
  assert (forall j, 0 <= j < n -> best (m - 1) j <= best (m - 1) (n - 1))
    as Hrow.
  { intros j Hj.
    apply (chain_le (fun j => best (m - 1) j) n last_row_step);
      unfold n in *; lia. }
  assert (forall i, 0 <= i < m -> best i (n - 1) <= best (m - 1) (n - 1))
    as Hcol.
  { intros i Hi.
    apply (chain_le (fun i => best i (n - 1)) m last_column_step);
      unfold m in *; lia. }
  split; [|split].
  - rewrite <- (best_border (m - 1) 0); [apply Hrow | ..];
      unfold m, n in *; lia.
  - intros t j Hj. etransitivity; [apply best_ge | by apply Hrow].
  - intros t i Hi. etransitivity; [apply best_ge | by apply Hcol].
Qed.

End GlobalEnds.

(** X23: the best score of the affine global aligner is never negative,
    and it is at least every score, of the three states, in the last row
    and in the last column of the matrix: gaps after the end of either
    sequence cost nothing. *)
Theorem global_score_dominates_ends {S : Type} `{Scoring S} `{GapScoring S}
    (scoring : S) (fastBacktrace : bool) (first second : EncodedSequence) :
  exists f sc als,
    GlobalSequenceAligner.computeAlignmentMatrix scoring first second = Ok f
    /\ GlobalSequenceAligner.align scoring fastBacktrace first second
       = Ok (sc, als)
    /\ 0 <= sc
    /\ (forall t j s, 0 <= j <= Seq.len second ->
          AlignmentMatrix.getScore f t (Seq.len first) j = Ok s -> s <= sc)
    /\ (forall t i s, 0 <= i <= Seq.len first ->
          AlignmentMatrix.getScore f t i (Seq.len second) = Ok s -> s <= sc).
Proof.
  destruct (global_align_ok scoring fastBacktrace first second)
    as (sc & als & Halign).
  destruct (global_computeAlignmentMatrix_ok scoring first second)
    as (f & Hf & Hws & Hrec & Hborder).
  exists f, sc, als. split; [done|]. split; [done|].
  unfold GlobalSequenceAligner.align in Halign.
  pose proof (Seq_len_nonneg first) as Hlf.
  pose proof (Seq_len_nonneg second) as Hls.
  rewrite Hf, bind_Ok in Halign.
  rewrite (global_bestScore_ok first second f _ _ Hws eq_refl eq_refl),
    bind_Ok in Halign.
  apply bind_Ok_inv in Halign as (x & _ & [= <- _]).
  destruct (corner_dominates scoring first second f Hrec Hborder)
    as (Hnn & Hrow & Hcol).
  split; [exact Hnn|]. split.
  - intros t j s Hj Hs.
    apply (getScore_value f _ _ t _ _ s Hws) in Hs; [|lia..]. subst s.
    replace (Seq.len first) with (Seq.len first + 1 - 1) at 1 by lia.
    apply Hrow. lia.
  - intros t i s Hi Hs.
    apply (getScore_value f _ _ t _ _ s Hws) in Hs; [|lia..]. subst s.
    replace (Seq.len second) with (Seq.len second + 1 - 1) at 1 by lia.
    apply Hcol. lia.
Qed.

(** ** The matrix of the affine local aligner *)

(** X24: in the matrix that the local [computeAlignmentMatrix] returns,
    every score of an inner cell is at least 0, in the three states; the
    first column holds [-sys.maxsize] in F and IX and 0 in IY with the
    direction [IY], the first row holds [-sys.maxsize] in F and IY and 0
    in IX with the direction [IX], and the corner (0, 0) holds 0 in F,
    [-sys.maxsize] in IX and IY and no direction. *)
Theorem local_fill_border_and_floor {S : Type} `{Scoring S} `{GapScoring S}
    (scoring : S) (first second : EncodedSequence) :
  exists f,
    LocalSequenceAligner.computeAlignmentMatrix scoring first second = Ok f
    /\ (forall t i j s, 1 <= i <= Seq.len first -> 1 <= j <= Seq.len second ->
          AlignmentMatrix.getScore f t i j = Ok s -> 0 <= s)
    /\ (forall i, 1 <= i <= Seq.len first ->
          AlignmentMatrix.getScore f F i 0 = Ok (- sys_maxsize)
          /\ AlignmentMatrix.getScore f IX i 0 = Ok (- sys_maxsize)
          /\ AlignmentMatrix.getScore f IY i 0 = Ok 0
          /\ AlignmentMatrix.getDirection f IY i 0 = Ok [IY])
    /\ (forall j, 1 <= j <= Seq.len second ->
          AlignmentMatrix.getScore f F 0 j = Ok (- sys_maxsize)
          /\ AlignmentMatrix.getScore f IY 0 j = Ok (- sys_maxsize)
          /\ AlignmentMatrix.getScore f IX 0 j = Ok 0
          /\ AlignmentMatrix.getDirection f IX 0 j = Ok [IX])
    /\ AlignmentMatrix.getScore f F 0 0 = Ok 0
    /\ AlignmentMatrix.getScore f IX 0 0 = Ok (- sys_maxsize)
    /\ AlignmentMatrix.getScore f IY 0 0 = Ok (- sys_maxsize)
    /\ (forall t, AlignmentMatrix.getDirection f t 0 0 = Ok []).
Proof.
  destruct (local_computeAlignmentMatrix_ok scoring first second)
    as (f & Hf & Hws & Hrec & Hborder).
  pose proof (Seq_len_nonneg first) as Hlf.
  pose proof (Seq_len_nonneg second) as Hls.
  exists f. split; [done|]. split; [|split; [|split]].
  - intros t i j s Hi Hj Hs.
    apply (getScore_value f _ _ t _ _ s Hws) in Hs; [|lia..]. subst s.
    destruct (Hrec i j ltac:(lia) ltac:(lia))
      as (HF & _ & HIX & _ & HIY & _).
    cbv zeta in HF, HIX, HIY.
    destruct t; rewrite ?HF, ?HIX, ?HIY; lia.
  - intros i Hi.
    rewrite !(getScore_ok f _ _ Hws), (getDirection_ok f _ _ Hws) by lia.
    rewrite !(proj1 (Hborder _ i 0 ltac:(lia) ltac:(lia) ltac:(lia))).
    rewrite (proj2 (Hborder IY i 0 ltac:(lia) ltac:(lia) ltac:(lia))).
    unfold local_border_score, local_border_dir.
    destruct (Z.eqb_spec i 0); [lia|]. done.
  - intros j Hj.
    rewrite !(getScore_ok f _ _ Hws), (getDirection_ok f _ _ Hws) by lia.
    rewrite !(proj1 (Hborder _ 0 j ltac:(lia) ltac:(lia) ltac:(lia))).
    rewrite (proj2 (Hborder IX 0 j ltac:(lia) ltac:(lia) ltac:(lia))).
    unfold local_border_score, local_border_dir.
    destruct (Z.eqb_spec j 0); [lia|]. done.
  - rewrite !(getScore_ok f _ _ Hws) by lia.
    rewrite !(proj1 (Hborder _ 0 0 ltac:(lia) ltac:(lia) ltac:(lia))).
    repeat (split; [done|]). intros t.
    rewrite (getDirection_ok f _ _ Hws) by lia.
    by rewrite (proj2 (Hborder t 0 0 ltac:(lia) ltac:(lia) ltac:(lia))).
Qed.

(** ** Descents and the traces they report *)

Lemma collect_acc {X : Type} (body : X -> result (list trace)) (l : list X)
    (acc : list trace) :
  foldM (fun acc x => ts ← body x; Ok (acc ++ ts)) l acc
  = (r ← collect body l; Ok (acc ++ r)).
Proof.
  unfold collect. revert acc. induction l as [|x l IH]; intros acc; cbn.
  { by rewrite app_nil_r. }
  destruct (body x) as [ts|e]; cbn; [|done].
  rewrite (IH (acc ++ ts)), (IH ts).
  destruct (foldM _ l []) as [r|e]; cbn; [|done].
  by rewrite app_assoc.
Qed.

Lemma collect_cons {X : Type} (body : X -> result (list trace)) (x : X)
    (l : list X) :
  collect body (x :: l)
  = (ts ← body x; r ← collect body l; Ok (ts ++ r)).
Proof.
  unfold collect at 1. cbn. destruct (body x) as [ts|e]; cbn; [|done].
  apply collect_acc.
Qed.

Section Reports.

Implicit Types (keep : trace -> bool) (d : bt_state -> result bt_state)
               (T : Z -> result (list trace)).

Lemma reports_ext keep d d' T T' :
  (forall st, d st = d' st) -> (forall g, T g = T' g) ->
  reports keep d T -> reports keep d' T'.
Proof. intros Hd HT Hr st. rewrite <- Hd, <- HT. apply Hr. Qed.

Lemma reports_finalize keep (c : cell_state) :
  keep (stop_at c) = true ->
  reports keep (fun st => Ok (finalize st)) (fun _ => Ok [stop_at c]).
Proof. intros Hk st. cbn. by rewrite Hk. Qed.

Lemma reports_unreported keep (c : cell_state) :
  keep (stop_at c) = false ->
  reports keep (fun st => Ok st) (fun _ => Ok [stop_at c]).
Proof.
  intros Hk [als al]. cbn. rewrite Hk. cbn. by rewrite app_nil_r.
Qed.

Lemma reports_nothing keep :
  reports keep (fun st => Ok st) (fun _ => Ok []).
Proof. intros [als al]. cbn. by rewrite app_nil_r. Qed.

Lemma reports_raise keep (e : exn) :
  reports keep (fun _ => Raise e) (fun _ => Raise e).
Proof. by intros st. Qed.

(** [x = <read>; <descent x>] *)
Lemma reports_bind {X : Type} keep (m : result X)
    (k : X -> bt_state -> result bt_state)
    (K : X -> Z -> result (list trace)) :
  (forall x, m = Ok x -> reports keep (k x) (K x)) ->
  reports keep (fun st => x ← m; k x st) (fun g => x ← m; K x g).
Proof.
  intros Hk. destruct m as [x|e]; cbn; [by apply Hk | by intros st].
Qed.

(** [alignment.push(a, b, s); <descent>; alignment.pop()] *)
Lemma reports_with_push keep (here : cell_state) (a b s : Z) d T :
  (forall t, keep (move_with here (a, b, s) t) = keep t) ->
  reports keep d T ->
  reports keep (with_push a b s d)
    (fun g => ts ← T g; Ok (map (move_with here (a, b, s)) ts)).
Proof.
  intros Hkeep Hd [als al]. unfold with_push. cbn [fst snd].
  rewrite Hd. cbn [fst snd].
  change (gap (SequenceAlignment.push al a b s)) with (gap al).
  destruct (T (gap al)) as [ts|e]; cbn [mbind result_bind]; [|done].
  cbn [fst snd]. rewrite pop_push. cbn [mbind result_bind]. do 3 f_equal.
  induction ts as [|t ts IH]; [done|]. cbn [map].
  rewrite !filter_cons, Hkeep.
  destruct (keep t);
    [rewrite !decide_True by exact I | rewrite !decide_False by exact id];
    [|done].
  cbn [map]. by rewrite IH.
Qed.

(** The same, when a pushed element is the gap code of the
    accumulator. *)
Lemma reports_with_push_from keep (here : cell_state)
    (a b : Z -> Z) (s : Z) d T :
  (forall g t, keep (move_with here (a g, b g, s) t) = keep t) ->
  reports keep d T ->
  reports keep
    (fun st => with_push (a (gap (snd st))) (b (gap (snd st))) s d st)
    (fun g => ts ← T g; Ok (map (move_with here (a g, b g, s)) ts)).
Proof.
  intros Hkeep Hd st.
  apply (reports_with_push keep here (a (gap (snd st)))
           (b (gap (snd st))) s d T (Hkeep _) Hd st).
Qed.

(** A move that pushes nothing. *)
Lemma reports_free keep (here : cell_state) d T :
  (forall t, keep (move_free here t) = keep t) ->
  reports keep d T ->
  reports keep d (fun g => ts ← T g; Ok (map (move_free here) ts)).
Proof.
  intros Hkeep Hd st. rewrite Hd.
  destruct (T (gap (snd st))) as [ts|e]; cbn [mbind result_bind]; [|done].
  do 3 f_equal.
  induction ts as [|t ts IH]; [done|]. cbn [map].
  rewrite !filter_cons, Hkeep.
  destruct (keep t);
    [rewrite !decide_True by exact I | rewrite !decide_False by exact id];
    [|done].
  cbn [map]. by rewrite IH.
Qed.

(** [for x in l: <descent x>] *)
Lemma reports_foldM {X : Type} keep (l : list X)
    (body : bt_state -> X -> result bt_state)
    (K : X -> Z -> result (list trace)) :
  (forall x, x ∈ l -> reports keep (fun st => body st x) (K x)) ->
  reports keep (foldM body l) (fun g => collect (fun x => K x g) l).
Proof.
  induction l as [|x l IH]; intros Hbody st.
  - destruct st as [als al]. cbn. by rewrite app_nil_r.
  - cbn [foldM]. rewrite collect_cons.
    rewrite (Hbody x) by left.
    destruct (K x (gap (snd st))) as [ts|e]; cbn [mbind result_bind];
      [|done].
    rewrite IH by (intros y Hy; apply Hbody; by right).
    cbn [fst snd].
    destruct (collect _ l) as [r|e]; cbn [mbind result_bind]; [|done].
    by rewrite filter_app, map_app, app_assoc.
Qed.

End Reports.

Lemma collect_Forall {X : Type} (P : trace -> Prop)
    (body : X -> result (list trace)) (l : list X) (ts : list trace) :
  (forall x ts', x ∈ l -> body x = Ok ts' -> Forall P ts') ->
  collect body l = Ok ts -> Forall P ts.
Proof.
  revert ts. induction l as [|x l IH]; intros ts Hbody Hts.
  - injection Hts as <-. constructor.
  - rewrite collect_cons in Hts.
    apply bind_Ok_inv in Hts as (ts1 & H1 & Hts).
    apply bind_Ok_inv in Hts as (r & Hr & [= <-]).
    apply Forall_app. split.
    + by apply (Hbody x); [left|].
    + apply IH; [|done]. intros y ts' Hy. apply Hbody. by right.
Qed.

(** ** The traces of the affine global backtrace *)

Section GlobalTraces.

Variable fastBacktrace : bool.
Variables first second : EncodedSequence.
Variable f : AlignmentMatrix.

(** The backtrace appends the alignments of the traces that end in
    state F, and of no other. *)
Lemma global_backtraceFrom_reports (fuel : nat) (i j : Z)
    (current : MatrixType) :
  reports (ends_in F)
    (fun st => GlobalSequenceAligner.backtraceFrom fastBacktrace fuel
                 first second f i j st current)
    (fun g => global_traces fastBacktrace g fuel first second f i j
                current).
Proof.
  revert i j current. induction fuel as [|fuel IH]; intros i j current.
  { apply reports_raise. }
  cbn [GlobalSequenceAligner.backtraceFrom global_traces].
  destruct ((i =? 0) || (j =? 0)).
  { destruct current;
      first [by apply reports_finalize | by apply reports_unreported]. }
  destruct (shape f) as [m n].
  apply reports_bind; intros allDirections _.
  apply reports_bind; intros c _.
  apply reports_bind; intros a _.
  apply reports_bind; intros b _.
  cbv zeta.
  destruct current.
  - apply (reports_foldM _ _ _
             (fun dir g =>
                p ← AlignmentMatrix.getScore f dir (i - 1) (j - 1);
                ts ← global_traces fastBacktrace g fuel first second f
                       (i - 1) (j - 1) dir;
                Ok (map (move_with (i, j, F) (a, b, c - p)) ts))).
    intros dir _. apply reports_bind; intros p _.
    apply reports_with_push; [done | apply IH].
  - destruct (i =? m - 1).
    + apply (reports_foldM _ _ _
               (fun dir g =>
                  y ← AlignmentMatrix.getScore f dir i (j - 1);
                  if c =? y then
                    ts ← global_traces fastBacktrace g fuel first second
                           f i (j - 1) dir;
                    Ok (map (move_free (i, j, IX)) ts)
                  else Ok [])).
      intros dir _. apply reports_bind; intros y _.
      destruct (c =? y); [|apply reports_nothing].
      apply reports_free; [done | apply IH].
    + apply (reports_foldM _ _ _
               (fun dir g =>
                  y ← AlignmentMatrix.getScore f dir i (j - 1);
                  ts ← global_traces fastBacktrace g fuel first second f
                         i (j - 1) dir;
                  Ok (map (move_with (i, j, IX) (g, b, c - y)) ts))).
      intros dir _. apply reports_bind; intros y _.
      apply (reports_with_push_from _ (i, j, IX)
               (fun g => g) (fun _ => b)); [done | apply IH].
  - destruct (j =? n - 1).
    + apply (reports_foldM _ _ _
               (fun dir g =>
                  x ← AlignmentMatrix.getScore f dir (i - 1) j;
                  if c =? x then
                    ts ← global_traces fastBacktrace g fuel first second
                           f (i - 1) j dir;
                    Ok (map (move_free (i, j, IY)) ts)
                  else Ok [])).
      intros dir _. apply reports_bind; intros x _.
      destruct (c =? x); [|apply reports_nothing].
      apply reports_free; [done | apply IH].
    + apply (reports_foldM _ _ _
               (fun dir g =>
                  x ← AlignmentMatrix.getScore f dir (i - 1) j;
                  ts ← global_traces fastBacktrace g fuel first second f
                         (i - 1) j dir;
                  Ok (map (move_with (i, j, IY) (a, g, c - x)) ts))).
      intros dir _. apply reports_bind; intros x _.
      apply (reports_with_push_from _ (i, j, IY)
               (fun _ => a) (fun g => g)); [done | apply IH].
Qed.

Lemma global_traces_ok (g : Z) (fuel : nat) (i j : Z)
    (current : MatrixType) (ts : list trace) :
  global_traces fastBacktrace g fuel first second f i j current = Ok ts ->
  Forall (global_trace_ok (i, j, current)) ts.
Proof.
  revert i j current ts.
  induction fuel as [|fuel IH]; intros i j current ts Hts; [done|].
  cbn [global_traces] in Hts.
  destruct (Z.eqb_spec i 0) as [Hi|Hi];
    [|destruct (Z.eqb_spec j 0) as [Hj|Hj]]; cbn [orb] in Hts.
  - injection Hts as <-. apply Forall_singleton.
    split; [done|]. split; [constructor | by left].
  - injection Hts as <-. apply Forall_singleton.
    split; [done|]. split; [constructor | by right].
  - assert (~ on_border (i, j, current)) as Hnb
      by (unfold on_border; cbn; lia).
    assert (forall col next t,
              global_trace_ok next t ->
              global_trace_ok (i, j, current)
                (move_with (i, j, current) col t)) as Hwith.
    { intros col next t (Hs & Hpass & Hend).
      split; [done|]. split; [by constructor | done]. }
    assert (forall next t,
              global_trace_ok next t ->
              global_trace_ok (i, j, current)
                (move_free (i, j, current) t)) as Hfree.
    { intros next t (Hs & Hpass & Hend).
      split; [done|]. split; [by constructor | done]. }
    destruct (shape f) as [m n].
    apply bind_Ok_inv in Hts as (allDirections & _ & Hts).
    apply bind_Ok_inv in Hts as (c & _ & Hts).
    apply bind_Ok_inv in Hts as (a & _ & Hts).
    apply bind_Ok_inv in Hts as (b & _ & Hts).
    cbv zeta in Hts.
    destruct current;
      [| destruct (i =? m - 1) | destruct (j =? n - 1)];
      (eapply collect_Forall; [|exact Hts]);
      intros dir ts' _ Hb;
      apply bind_Ok_inv in Hb as (v & _ & Hb);
      try (destruct (c =? v); [|injection Hb as <-; constructor]);
      apply bind_Ok_inv in Hb as (ts1 & H1 & [= <-]);
      apply IH in H1; apply Forall_fmap;
      (eapply Forall_impl; [exact H1|]); intros t Ht; cbn;
      first [by eapply Hfree | by eapply Hwith].
Qed.

End GlobalTraces.

(** C3, amended: the affine global backtrace stops at the first cell with
    i = 0 or j = 0, not only at (0, 0): there it makes no recursive call
    and reads nothing from the matrix, and it appends the reversed
    accumulator if and only if the state is Match, leaving the result
    list as it is for GapInFirst and GapInSecond.  From any cell, in any
    state and on any matrix, a descent appends exactly the alignments of
    the traces from that cell that end in state Match, in the order of
    the traces, and nothing for a trace that ends in GapInFirst or
    GapInSecond; every trace passes only cells with i <> 0 and j <> 0
    and ends at a cell with i = 0 or j = 0.  On a matrix of the shape of
    the inputs the traces from every cell are found within the recursion
    budget that [backtrace] gives. *)
Theorem global_backtraceFrom_terminal (fastBacktrace : bool)
    (first second : EncodedSequence) :
  (forall f fuel i j st current,
     i = 0 \/ j = 0 ->
     GlobalSequenceAligner.backtraceFrom fastBacktrace (Datatypes.S fuel)
       first second f i j st current
     = Ok (match current with F => finalize st | _ => st end)
     /\ (GlobalSequenceAligner.backtraceFrom fastBacktrace (Datatypes.S fuel)
           first second f i j st current = Ok (finalize st)
         <-> current = F))
  /\ (forall f fuel i j current als al,
        GlobalSequenceAligner.backtraceFrom fastBacktrace fuel first second
          f i j (als, al) current
        = (ts ← global_traces fastBacktrace (gap al) fuel first second f
                  i j current;
           Ok (als ++ map (reported al) (filter (ends_in F) ts), al)))
  /\ (forall f g fuel i j current ts,
        global_traces fastBacktrace g fuel first second f i j current
        = Ok ts ->
        Forall (global_trace_ok (i, j, current)) ts)
  /\ (forall f g i j current,
        well_shaped f (Seq.len first + 1) (Seq.len second + 1) ->
        0 <= i <= Seq.len first -> 0 <= j <= Seq.len second ->
        exists ts,
          global_traces fastBacktrace g (depth i j) first second f
            i j current = Ok ts).
Proof.
  split; [|split; [|split]].
  - intros f fuel i j st current Hb.
    assert ((i =? 0) || (j =? 0) = true) as Hcond.
    { destruct Hb as [-> | ->]; [done|]. apply orb_true_r. }
    cbn [GlobalSequenceAligner.backtraceFrom]. rewrite Hcond.
    split; [by destruct current|].
    pose proof (finalize_changes st) as Hne.
    destruct current; split; intros Heq; congruence.
  - intros f fuel i j current als al.
    apply (global_backtraceFrom_reports fastBacktrace first second f fuel
             i j current (als, al)).
  - intros f g fuel i j current ts. apply global_traces_ok.
  - intros f g i j current Hws Hi Hj.
    destruct (global_backtraceFrom_total fastBacktrace first second f
                _ _ Hws eq_refl eq_refl (depth i j) i j current
                ltac:(lia) ltac:(lia) ltac:(unfold depth; lia)
                ([], mkAlignment (Seq.empty 0) (Seq.empty 0) g [] 0 0 0 0 0))
      as [r Hr].
    rewrite (global_backtraceFrom_reports fastBacktrace first second f)
      in Hr.
    cbn [snd gap] in Hr.
    apply bind_Ok_inv in Hr as (ts & Hts & _). eauto.
Qed.

Lemma global_backtraceFrom_terminal_witness :
  exists f ts,
    GlobalSequenceAligner.computeAlignmentMatrix
      (mkSimpleScoring 2 (-1) (-2) (-1)) (mkSeq [1] 0) (mkSeq [1] 1) = Ok f
    /\ global_traces false GAP_CODE 3 (mkSeq [1] 0) (mkSeq [1] 1) f 1 1 F
       = Ok ts
    /\ map t_end ts = [(0, 0, F); (0, 0, IX); (0, 0, IY)]
    /\ map t_cols ts = [[(1, 1, 2)]; [(1, 1, 2)]; [(1, 1, 2)]]
    /\ GlobalSequenceAligner.backtraceFrom false 3 (mkSeq [1] 0)
         (mkSeq [1] 1) f 1 1
         ([], emptyAlignment (mkSeq [1] 0) (mkSeq [1] 1)) F
       = Ok ([reported (emptyAlignment (mkSeq [1] 0) (mkSeq [1] 1))
                (mkTrace [(1, 1, F)] (0, 0, F) [(1, 1, 2)])],
             emptyAlignment (mkSeq [1] 0) (mkSeq [1] 1)).
Proof.
  do 2 eexists.
  split; [vm_compute; reflexivity|].
  match goal with
  | |- ?T = Ok ?a /\ _ =>
      assert (T = Ok a) as Hts by (vm_compute; reflexivity)
  end.
  split; [exact Hts|]. split; [reflexivity|]. split; [reflexivity|].
  rewrite (proj1 (proj2 (global_backtraceFrom_terminal false (mkSeq [1] 0)
                           (mkSeq [1] 1)))).
  change (gap (emptyAlignment (mkSeq [1] 0) (mkSeq [1] 1))) with GAP_CODE.
  rewrite Hts. reflexivity.
Defined.

(** ** The traces of the affine local backtrace *)

Lemma filter_all (ts : list trace) :
  filter (fun _ : trace => true) ts = ts.
Proof.
  induction ts as [|t ts IH]; [done|].
  rewrite filter_cons, decide_True by exact I. by rewrite IH.
Qed.

Section LocalTraces.

Variables first second : EncodedSequence.
Variable f : AlignmentMatrix.

(** The backtrace appends the alignment of every trace. *)
Lemma local_backtraceFrom_reports (fuel : nat) (i j : Z)
    (current : MatrixType) :
  reports (fun _ => true)
    (fun st => LocalSequenceAligner.backtraceFrom fuel first second f
                 i j st current)
    (fun g => local_traces g fuel first second f i j current).
Proof.
  revert i j current. induction fuel as [|fuel IH]; intros i j current.
  { apply reports_raise. }
  cbn [LocalSequenceAligner.backtraceFrom local_traces].
  apply reports_bind; intros c0 _.
  destruct (c0 =? 0); [by apply reports_finalize|].
  apply reports_bind; intros directions _.
  apply reports_bind; intros c _.
  apply reports_bind; intros a _.
  apply reports_bind; intros b _.
  cbv zeta.
  destruct current.
  - apply (reports_foldM _ _ _
             (fun dir g =>
                p ← AlignmentMatrix.getScore f dir (i - 1) (j - 1);
                ts ← local_traces g fuel first second f
                       (i - 1) (j - 1) dir;
                Ok (map (move_with (i, j, F) (a, b, c - p)) ts))).
    intros dir _. apply reports_bind; intros p _.
    apply reports_with_push; [done | apply IH].
  - apply (reports_foldM _ _ _
             (fun dir g =>
                y ← AlignmentMatrix.getScore f dir i (j - 1);
                ts ← local_traces g fuel first second f i (j - 1) dir;
                Ok (map (move_with (i, j, IX) (g, b, c - y)) ts))).
    intros dir _. apply reports_bind; intros y _.
    apply (reports_with_push_from _ (i, j, IX)
             (fun g => g) (fun _ => b)); [done | apply IH].
  - apply (reports_foldM _ _ _
             (fun dir g =>
                x ← AlignmentMatrix.getScore f dir (i - 1) j;
                ts ← local_traces g fuel first second f (i - 1) j dir;
                Ok (map (move_with (i, j, IY) (a, g, c - x)) ts))).
    intros dir _. apply reports_bind; intros x _.
    apply (reports_with_push_from _ (i, j, IY)
             (fun _ => a) (fun g => g)); [done | apply IH].
Qed.

Lemma local_traces_ok (g : Z) (fuel : nat) (i j : Z)
    (current : MatrixType) (ts : list trace) :
  local_traces g fuel first second f i j current = Ok ts ->
  Forall (local_trace_ok f (i, j, current)) ts.
Proof.
  revert i j current ts.
  induction fuel as [|fuel IH]; intros i j current ts Hts; [done|].
  cbn [local_traces] in Hts.
  apply bind_Ok_inv in Hts as (c0 & Hc0 & Hts).
  destruct (Z.eqb_spec c0 0) as [->|Hne].
  { injection Hts as <-. apply Forall_singleton.
    split; [done|]. split; [constructor|]. by split. }
  assert (forall col next t,
            local_trace_ok f next t ->
            local_trace_ok f (i, j, current)
              (move_with (i, j, current) col t)) as Hwith.
  { intros col next t (Hs & Hpass & Hend & Hlen).
    split; [done|]. split; [|split; [done|]].
    - constructor; [|done]. exists c0. by split.
    - cbn. by rewrite Hlen. }
  apply bind_Ok_inv in Hts as (directions & _ & Hts).
  apply bind_Ok_inv in Hts as (c & _ & Hts).
  apply bind_Ok_inv in Hts as (a & _ & Hts).
  apply bind_Ok_inv in Hts as (b & _ & Hts).
  cbv zeta in Hts.
  destruct current;
    (eapply collect_Forall; [|exact Hts]);
    intros dir ts' _ Hb;
    apply bind_Ok_inv in Hb as (v & _ & Hb);
    apply bind_Ok_inv in Hb as (ts1 & H1 & [= <-]);
    apply IH in H1; apply Forall_fmap;
    (eapply Forall_impl; [exact H1|]); intros t Ht; cbn;
    by eapply Hwith.
Qed.

End LocalTraces.

(** C8: on a matrix store of shape (m, n), the affine local backtrace
    takes as threshold the caller's minimum score, or else the maximum
    over the whole grid and the three states; it starts a descent at every
    cell whose Match score is at or above the threshold, row by row, and
    returns what these descents find, in this order; a call of the
    descent appends the reversed accumulator, and stops, exactly when the
    score of its cell is 0; from any cell, in any state, a descent appends
    exactly the alignments of the traces from that cell, in the order of
    the traces, where every trace passes only cells whose score is not 0,
    pushes one column at each of them, and ends at a cell whose score is
    0; and when the threshold is above every Match score the backtrace
    returns the empty list, raising nothing.  On the matrix of the fill
    the traces from every cell whose Match score is not negative are
    found within the recursion budget that [backtrace] gives. *)
Theorem local_backtrace_threshold {S : Type} `{Scoring S} `{GapScoring S}
    (scoring : S) (minScore : option Z)
    (first second : EncodedSequence) (f : AlignmentMatrix) (m n : Z) :
  well_shaped f m n -> 1 <= m -> 1 <= n ->
  (exists thr,
     LocalSequenceAligner.threshold minScore f = Ok thr
     /\ match minScore with
        | Some s => thr = s
        | None =>
            (forall t i j, 0 <= i < m -> 0 <= j < n ->
               exists v, AlignmentMatrix.getScore f t i j = Ok v /\ v <= thr)
            /\ (exists t i j, 0 <= i < m /\ 0 <= j < n
                  /\ AlignmentMatrix.getScore f t i j = Ok thr)
        end)
  /\ (forall thr als,
        LocalSequenceAligner.threshold minScore f = Ok thr ->
        LocalSequenceAligner.backtrace minScore first second f = Ok als ->
        exists parts,
          als = concat parts
          /\ Forall2 (fun c part =>
                        LocalSequenceAligner.backtraceFrom
                          (depth (fst c) (snd c)) first second f
                          (fst c) (snd c)
                          ([], emptyAlignment first second) F
                        = Ok (part, emptyAlignment first second)
                        /\ exists ts,
                             local_traces GAP_CODE (depth (fst c) (snd c))
                               first second f (fst c) (snd c) F = Ok ts
                             /\ part
                                = map (reported
                                         (emptyAlignment first second)) ts)
                     (filter (fun c => thr <= scoreAt f F (fst c) (snd c))
                             (cells m n))
                     parts)
  /\ (forall fuel i j current c als al,
        AlignmentMatrix.getScore f current i j = Ok c ->
        (LocalSequenceAligner.backtraceFrom (Datatypes.S fuel) first second
           f i j (als, al) current
         = Ok (als ++ [SequenceAlignment.reversed al], al)
         <-> c = 0))
  /\ (forall fuel i j current als al,
        LocalSequenceAligner.backtraceFrom fuel first second f i j
          (als, al) current
        = (ts ← local_traces (gap al) fuel first second f i j current;
           Ok (als ++ map (reported al) ts, al)))
  /\ (forall g fuel i j current ts,
        local_traces g fuel first second f i j current = Ok ts ->
        Forall (local_trace_ok f (i, j, current)) ts)
  /\ (forall thr,
        LocalSequenceAligner.threshold minScore f = Ok thr ->
        (forall i j v, 0 <= i < m -> 0 <= j < n ->
           AlignmentMatrix.getScore f F i j = Ok v -> v < thr) ->
        LocalSequenceAligner.backtrace minScore first second f = Ok [])
  /\ (exists f',
        LocalSequenceAligner.computeAlignmentMatrix scoring first second
        = Ok f'
        /\ forall g i j v,
             0 <= i <= Seq.len first -> 0 <= j <= Seq.len second ->
             AlignmentMatrix.getScore f' F i j = Ok v -> 0 <= v ->
             exists ts,
               local_traces g (depth i j) first second f' i j F = Ok ts).
Proof.
  intros Hws Hm Hn.
  assert (forall fuel i j current als al,
            LocalSequenceAligner.backtraceFrom fuel first second f i j
              (als, al) current
            = (ts ← local_traces (gap al) fuel first second f i j current;
               Ok (als ++ map (reported al) ts, al))) as Hrep.
  { intros fuel i j current als al.
    rewrite (local_backtraceFrom_reports first second f fuel i j current
               (als, al)).
    cbn [fst snd]. destruct (local_traces _ _ _ _ _ _ _ _) as [ts|e];
      cbn [mbind result_bind]; [|done].
    by rewrite filter_all. }
  split; [|split; [|split; [|split; [|split; [|split]]]]].
  - unfold LocalSequenceAligner.threshold, LocalSequenceAligner.bestScore.
    destruct minScore as [s|]; [eauto|].
    destruct (matrix_max_spec f m n Hws Hm Hn)
      as (v & -> & Hle & (t & i & j & Hi & Hj & Hv)).
    exists v. split; [done|]. split.
    + intros t' i' j' Hi' Hj'. exists (scoreAt f t' i' j').
      rewrite (getScore_ok f m n Hws) by lia. split; [done|]. by apply Hle.
    + exists t, i, j. rewrite (getScore_ok f m n Hws) by lia.
      by rewrite Hv.
  - intros thr als Hthr Hr.
    rewrite (local_backtrace_unfold first second f m n Hws thr minScore Hthr)
      in Hr.
    apply bind_Ok_inv in Hr as (st & Hst & [= <-]).
    apply (local_starts first second f m n Hws thr) in Hst
      as (parts & -> & Hparts).
    + exists parts. split; [done|].
      eapply Forall2_impl; [exact Hparts|].
      intros c part Hc. cbn beta in Hc. split; [done|].
      rewrite Hrep in Hc.
      change (gap (emptyAlignment first second)) with GAP_CODE in Hc.
      apply bind_Ok_inv in Hc as (ts & Hts & [= <-]). eauto.
    + intros [i j] Hc. by apply elem_of_cells.
  - intros fuel i j current c als al Hc. split.
    + intros Hr. destruct (decide (c = 0)) as [|Hc0]; [done|]. exfalso.
      destruct (descent_run some_columns
                  (fun st => LocalSequenceAligner.backtraceFrom
                               (Datatypes.S fuel) first second f i j st
                               current)
                  als al _
                  (local_backtraceFrom_nonzero first second f fuel i j c
                     current Hc Hc0) Hr)
        as (new & _ & Heq & Hall).
      injection Heq as Heq. apply app_inv_head in Heq. subst new.
      apply Forall_singleton in Hall as (cols & Hrev & Hcols).
      apply (f_equal (fun x => length (first_elements x))) in Hrev.
      rewrite reversed_push_all_length in Hrev.
      rewrite first_elements_reversed, length_reverse in Hrev.
      destruct cols; [done|]. cbn in Hrev. lia.
    + intros ->. cbn [LocalSequenceAligner.backtraceFrom].
      rewrite Hc. done.
  - exact Hrep.
  - intros g fuel i j current ts. apply local_traces_ok.
  - intros thr Hthr Hlow.
    rewrite (local_backtrace_unfold first second f m n Hws thr minScore Hthr).
    rewrite (local_no_start first second f m n Hws thr); [done | |].
    + intros [i j] Hc. by apply elem_of_cells.
    + intros i j Hi Hj. apply (Hlow i j); [done | done |].
      by apply (getScore_ok f m n Hws).
  - destruct (local_computeAlignmentMatrix_ok scoring first second)
      as (f' & Hf' & Hws' & _ & Hborder).
    exists f'. split; [done|]. intros g i j v Hi Hj Hv Hv0.
    pose proof (getScore_value f' _ _ F i j v Hws' ltac:(lia) ltac:(lia) Hv)
      as Hval.
    assert ((2 <= Seq.len first + 1 /\ 2 <= Seq.len second + 1)
            \/ scoreAt f' F i j = 0) as Hne.
    { destruct (decide (i = 0 \/ j = 0)) as [Hb|Hnb]; [|left; lia].
      right.
      rewrite (proj1 (Hborder F i j ltac:(lia) ltac:(lia) Hb)) in *.
      subst v. unfold local_border_score, sys_maxsize in *.
      destruct (Z.eqb_spec i 0), (Z.eqb_spec j 0); cbn in *; lia. }
    destruct (local_backtraceFrom_total first second f' _ _ Hws' eq_refl
                eq_refl Hborder (depth i j) i j F
                ltac:(lia) ltac:(lia) ltac:(unfold depth; lia) Hne
                ([], mkAlignment (Seq.empty 0) (Seq.empty 0) g [] 0 0 0 0 0))
      as [r Hr].
    rewrite (local_backtraceFrom_reports first second f') in Hr.
    cbn [snd gap] in Hr.
    apply bind_Ok_inv in Hr as (ts & Hts & _). eauto.
Qed.

Lemma local_backtrace_threshold_witness :
  exists f als ts,
    LocalSequenceAligner.computeAlignmentMatrix
      (mkSimpleScoring 2 (-1) (-2) (-1)) (mkSeq [1; 2] 0) (mkSeq [1; 2] 1)
    = Ok f
    /\ well_shaped f 3 3 /\ 1 <= 3
    /\ LocalSequenceAligner.threshold None f = Ok 4
    /\ LocalSequenceAligner.backtrace None (mkSeq [1; 2] 0) (mkSeq [1; 2] 1)
         f = Ok als
    /\ local_traces GAP_CODE (depth 2 2) (mkSeq [1; 2] 0) (mkSeq [1; 2] 1)
         f 2 2 F = Ok ts
    /\ map t_passed ts = [[(2, 2, F); (1, 1, F)]]
    /\ map t_end ts = [(0, 0, F)]
    /\ map t_cols ts = [[(2, 2, 2); (1, 1, 2)]]
    /\ als = map (reported (emptyAlignment (mkSeq [1; 2] 0)
                              (mkSeq [1; 2] 1))) ts
    /\ Forall (local_trace_ok f (2, 2, F)) ts.
Proof.
  do 3 eexists.
  split; [vm_compute; reflexivity|].
  match goal with
  | |- well_shaped ?f 3 3 /\ _ =>
      assert (well_shaped f 3 3) as Hws
        by (split; [reflexivity|]; intros []; split; split;
            first [reflexivity | repeat constructor])
  end.
  assert (1 <= 3) as H3 by lia.
  split; [exact Hws|]. split; [exact H3|].
  split; [vm_compute; reflexivity|].
  split; [vm_compute; reflexivity|].
  match goal with
  | |- ?T = Ok ?a /\ _ =>
      assert (T = Ok a) as Hts by (vm_compute; reflexivity)
  end.
  split; [exact Hts|].
  split; [reflexivity|]. split; [reflexivity|]. split; [reflexivity|].
  split; [reflexivity|].
  destruct (local_backtrace_threshold (mkSimpleScoring 2 (-1) (-2) (-1))
              None (mkSeq [1; 2] 0) (mkSeq [1; 2] 1) _ 3 3 Hws H3 H3)
    as (_ & _ & _ & _ & Hok & _).
  exact (Hok _ _ _ _ _ _ Hts).
Defined.

(** ** The parts of the inputs that the affine backtraces align *)

Lemma slice_empty (l : list Z) (i : Z) : slice l i i = [].
Proof.
  unfold slice. apply drop_ge. rewrite length_take. lia.
Qed.

Lemma slice_snoc (l : list Z) (i0 i a : Z) :
  0 <= i0 <= i - 1 -> l !! Z.to_nat (i - 1) = Some a ->
  reverse (slice l i0 i) = a :: reverse (slice l i0 (i - 1)).
Proof.
  intros Hi Ha. unfold slice.
  apply lookup_lt_Some in Ha as Hlt.
  replace (Z.to_nat i) with (Datatypes.S (Z.to_nat (i - 1))) by lia.
  rewrite (take_S_r _ _ _ Ha).
  rewrite drop_app_le by (rewrite length_take; lia).
  by rewrite reverse_snoc.
Qed.

Section Parts.

Variables first second : EncodedSequence.

Lemma part_nil (bd fi fj : bool) (i j : Z) (al : SequenceAlignment) :
  0 <= i -> 0 <= j -> (bd = true -> i = 0 \/ j = 0) ->
  part_of bd fi fj first second i j al [].
Proof.
  intros Hi Hj Hbd _ _. exists i, i, j, j.
  rewrite !slice_empty. repeat split; try done; try lia; try (intros _; by left).
Qed.

Lemma part_diagonal (bd fi fj : bool) (i j a b s : Z)
    (al : SequenceAlignment) (cols : list column) :
  0 < i -> 0 < j ->
  Seq.get first (i - 1) = Ok a -> Seq.get second (j - 1) = Ok b ->
  part_of bd false false first second (i - 1) (j - 1)
    (SequenceAlignment.push al a b s) cols ->
  part_of bd fi fj first second i j al ((a, b, s) :: cols).
Proof.
  intros Hi Hj Ha Hb Hp Hg1 Hg2.
  apply py_get_nonneg_inv in Ha; [|lia].
  apply py_get_nonneg_inv in Hb; [|lia].
  destruct (Hp Hg1 Hg2)
    as (i0 & i1 & j0 & j1 & Hbi & Hbj & Hbd & Hfi & Hfj & _ & H1 & H2).
  cbn [gap SequenceAlignment.push] in *.
  specialize (Hfi eq_refl). specialize (Hfj eq_refl). subst i1 j1.
  exists i0, i, j0, j.
  cbn [map col_first col_second fst snd].
  rewrite (remove_gaps_keep _ _ (elements first)), H1;
    [| by eapply list_elem_of_lookup_2 | done].
  rewrite (remove_gaps_keep _ _ (elements second)), H2;
    [| by eapply list_elem_of_lookup_2 | done].
  rewrite (slice_snoc _ i0 i a), (slice_snoc _ j0 j b) by (done || lia).
  repeat split; try done; try lia; try (intros _; by left).
Qed.

Lemma part_gap_in_first (bd fi fj : bool) (i j b s : Z)
    (al : SequenceAlignment) (cols : list column) :
  0 < j -> Seq.get second (j - 1) = Ok b ->
  part_of bd false false first second i (j - 1)
    (SequenceAlignment.push al (gap al) b s) cols ->
  part_of bd fi fj first second i j al ((gap al, b, s) :: cols).
Proof.
  intros Hj Hb Hp Hg1 Hg2.
  apply py_get_nonneg_inv in Hb; [|lia].
  destruct (Hp Hg1 Hg2)
    as (i0 & i1 & j0 & j1 & Hbi & Hbj & Hbd & Hfi & Hfj & _ & H1 & H2).
  cbn [gap SequenceAlignment.push] in *.
  specialize (Hfi eq_refl). specialize (Hfj eq_refl). subst i1 j1.
  exists i0, i, j0, j.
  cbn [map col_first col_second fst snd].
  rewrite remove_gaps_drop, H1.
  rewrite (remove_gaps_keep _ _ (elements second)), H2;
    [| by eapply list_elem_of_lookup_2 | done].
  rewrite (slice_snoc _ j0 j b) by (done || lia).
  repeat split; try done; try lia; try (intros _; by left).
Qed.

Lemma part_gap_in_second (bd fi fj : bool) (i j a s : Z)
    (al : SequenceAlignment) (cols : list column) :
  0 < i -> Seq.get first (i - 1) = Ok a ->
  part_of bd false false first second (i - 1) j
    (SequenceAlignment.push al a (gap al) s) cols ->
  part_of bd fi fj first second i j al ((a, gap al, s) :: cols).
Proof.
  intros Hi Ha Hp Hg1 Hg2.
  apply py_get_nonneg_inv in Ha; [|lia].
  destruct (Hp Hg1 Hg2)
    as (i0 & i1 & j0 & j1 & Hbi & Hbj & Hbd & Hfi & Hfj & _ & H1 & H2).
  cbn [gap SequenceAlignment.push] in *.
  specialize (Hfi eq_refl). specialize (Hfj eq_refl). subst i1 j1.
  exists i0, i, j0, j.
  cbn [map col_first col_second fst snd].
  rewrite remove_gaps_drop, H2.
  rewrite (remove_gaps_keep _ _ (elements first)), H1;
    [| by eapply list_elem_of_lookup_2 | done].
  rewrite (slice_snoc _ i0 i a) by (done || lia).
  repeat split; try done; try lia; try (intros _; by left).
Qed.

(** A free move along the last row leaves the end of [second] out; a
    free move down the last column, the end of [first]. *)
Lemma part_free_row (bd fi : bool) (i j : Z) (al : SequenceAlignment)
    (cols : list column) :
  part_of bd false true first second i (j - 1) al cols ->
  part_of bd fi true first second i j al cols.
Proof.
  intros Hp Hg1 Hg2.
  destruct (Hp Hg1 Hg2)
    as (i0 & i1 & j0 & j1 & Hbi & Hbj & Hbd & Hfi & _ & _ & H1 & H2).
  specialize (Hfi eq_refl). subst i1.
  exists i0, i, j0, j1. repeat split; try done; try lia; try (intros _; by left).
Qed.

Lemma part_free_column (bd fj : bool) (i j : Z) (al : SequenceAlignment)
    (cols : list column) :
  part_of bd true false first second (i - 1) j al cols ->
  part_of bd true fj first second i j al cols.
Proof.
  intros Hp Hg1 Hg2.
  destruct (Hp Hg1 Hg2)
    as (i0 & i1 & j0 & j1 & Hbi & Hbj & Hbd & _ & Hfj & _ & H1 & H2).
  specialize (Hfj eq_refl). subst j1.
  exists i0, i1, j0, j. repeat split; try done; try lia; try (intros _; by right).
Qed.

(** The affine global descent, on any matrix. *)
Lemma global_backtraceFrom_part (fastBacktrace : bool)
    (f : AlignmentMatrix) (m n : Z) (fuel : nat) (i j : Z)
    (current : MatrixType) :
  shape f = (m, n) -> 0 <= i <= m - 1 -> 0 <= j <= n - 1 ->
  descent (part_of true (j =? n - 1) (i =? m - 1) first second i j)
    (fun st => GlobalSequenceAligner.backtraceFrom fastBacktrace fuel
                 first second f i j st current).
Proof.
  intros Hshape. revert i j current.
  induction fuel as [|fuel IH]; intros i j current Hi Hj.
  { apply descent_raise. }
  cbn [GlobalSequenceAligner.backtraceFrom].
  destruct (Z.eqb_spec i 0) as [Hi0|Hi0];
    [|destruct (Z.eqb_spec j 0) as [Hj0|Hj0]]; cbn [orb].
  { destruct current; first [apply descent_finalize | apply descent_skip].
    intros al. apply part_nil; lia. }
  { destruct current; first [apply descent_finalize | apply descent_skip].
    intros al. apply part_nil; lia. }
  rewrite Hshape.
  apply descent_bind; intros allDirections _.
  apply descent_bind; intros c _.
  apply descent_bind; intros a Ha.
  apply descent_bind; intros b Hb.
  assert (forall i', i' < m - 1 -> (i' =? m - 1) = false) as Hrow
    by (intros; apply Z.eqb_neq; lia).
  assert (forall j', j' < n - 1 -> (j' =? n - 1) = false) as Hcol
    by (intros; apply Z.eqb_neq; lia).
  destruct current.
  - apply descent_foldM; intros dir _.
    apply descent_bind; intros p _.
    eapply descent_with_push.
    + pose proof (IH (i - 1) (j - 1) dir ltac:(lia) ltac:(lia)) as Hd.
      rewrite Hrow, Hcol in Hd by lia. exact Hd.
    + intros al cols. apply part_diagonal; (done || lia).
  - destruct (Z.eqb_spec i (m - 1)) as [Him|Him].
    + apply descent_foldM; intros dir _.
      apply descent_bind; intros y _.
      destruct (c =? y); [|apply descent_skip].
      pose proof (IH i (j - 1) dir ltac:(lia) ltac:(lia)) as Hd.
      rewrite Hcol in Hd by lia.
      assert ((i =? m - 1) = true) as Ht by (apply Z.eqb_eq; lia).
      rewrite Ht in Hd.
      eapply descent_weaken; [|exact Hd].
      intros al cols. apply part_free_row.
    + apply descent_foldM; intros dir _.
      apply descent_bind; intros y _.
      apply (descent_with_push_from _
               (part_of true false false first second i (j - 1))
               gap (fun _ => b)).
      * pose proof (IH i (j - 1) dir ltac:(lia) ltac:(lia)) as Hd.
        rewrite Hrow, Hcol in Hd by lia. exact Hd.
      * intros al cols. apply part_gap_in_first; (done || lia).
  - destruct (Z.eqb_spec j (n - 1)) as [Hjn|Hjn].
    + apply descent_foldM; intros dir _.
      apply descent_bind; intros x _.
      destruct (c =? x); [|apply descent_skip].
      pose proof (IH (i - 1) j dir ltac:(lia) ltac:(lia)) as Hd.
      rewrite Hrow in Hd by lia.
      assert ((j =? n - 1) = true) as Ht by (apply Z.eqb_eq; lia).
      rewrite Ht in Hd.
      eapply descent_weaken; [|exact Hd].
      intros al cols. apply part_free_column.
    + apply descent_foldM; intros dir _.
      apply descent_bind; intros x _.
      apply (descent_with_push_from _
               (part_of true false false first second (i - 1) j)
               (fun _ => a) gap).
      * pose proof (IH (i - 1) j dir ltac:(lia) ltac:(lia)) as Hd.
        rewrite Hrow, Hcol in Hd by lia. exact Hd.
      * intros al cols. apply part_gap_in_second; (done || lia).
Qed.

End Parts.

Section LocalParts.

Variables first second : EncodedSequence.
Variable f : AlignmentMatrix.
Variables m n : Z.
Hypothesis Hws : well_shaped f m n.
Hypothesis Hborder : forall t i j, 0 <= i < m -> 0 <= j < n ->
  i = 0 \/ j = 0 ->
  scoreAt f t i j = local_border_score t i j
  /\ dirAt f t i j = local_border_dir t i j.

(** The affine local descent, on a matrix with the border of the fill:
    on the first row and the first column it stops or finds no
    direction. *)
Lemma local_backtraceFrom_part (fuel : nat) (i j : Z)
    (current : MatrixType) :
  0 <= i < m -> 0 <= j < n ->
  descent (part_of false false false first second i j)
    (fun st => LocalSequenceAligner.backtraceFrom fuel first second f
                 i j st current).
Proof.
  revert i j current.
  induction fuel as [|fuel IH]; intros i j current Hi Hj.
  { apply descent_raise. }
  cbn [LocalSequenceAligner.backtraceFrom].
  apply descent_bind; intros c0 Hc0.
  apply (getScore_value f m n) in Hc0; [|done..].
  destruct (Z.eqb_spec c0 0) as [Hz|Hnz].
  { apply descent_finalize. intros al. apply part_nil; (done || lia). }
  apply descent_bind; intros directions Hd.
  rewrite (getDirection_ok f m n Hws) in Hd by done.
  injection Hd as <-.
  apply descent_bind; intros c _.
  apply descent_bind; intros a Ha.
  apply descent_bind; intros b Hb.
  destruct (decide (i = 0 \/ j = 0)) as [Hb0|Hin].
  { destruct (Hborder current i j Hi Hj Hb0) as [Hs Hdir].
    rewrite Hdir, border_dir_nil by congruence.
    destruct current; apply descent_foldM; intros dir Hdir';
      by apply elem_of_nil in Hdir'. }
  destruct current.
  - apply descent_foldM; intros dir _.
    apply descent_bind; intros p _.
    eapply descent_with_push; [apply IH; lia|].
    intros al cols. apply part_diagonal; (done || lia).
  - apply descent_foldM; intros dir _.
    apply descent_bind; intros y _.
    apply (descent_with_push_from _
             (part_of false false false first second i (j - 1))
             gap (fun _ => b)); [apply IH; lia|].
    intros al cols. apply part_gap_in_first; (done || lia).
  - apply descent_foldM; intros dir _.
    apply descent_bind; intros x _.
    apply (descent_with_push_from _
             (part_of false false false first second (i - 1) j)
             (fun _ => a) gap); [apply IH; lia|].
    intros al cols. apply part_gap_in_second; (done || lia).
Qed.

End LocalParts.

(** What the columns say about the reversed copy. *)
Lemma part_aligns (bd : bool) (first second : EncodedSequence)
    (cols : list column) :
  GAP_CODE ∉ elements first -> GAP_CODE ∉ elements second ->
  part_of bd true true first second (Seq.len first) (Seq.len second)
    (emptyAlignment first second) cols ->
  aligns_parts bd first second
    (SequenceAlignment.reversed
       (push_all (emptyAlignment first second) cols)).
Proof.
  intros Hg1 Hg2 Hp.
  destruct (Hp Hg1 Hg2)
    as (i0 & i1 & j0 & j1 & Hbi & Hbj & Hbd & _ & _ & Hend & H1 & H2).
  cbn [gap emptyAlignment SequenceAlignment.init] in H1, H2.
  exists i0, i1, j0, j1. split; [done|]. split; [done|]. split; [auto|].
  rewrite first_elements_reversed, second_elements_reversed,
    first_elements_push_all, second_elements_push_all.
  destruct (elements_emptyAlignment first second) as [-> ->].
  rewrite !app_nil_l, !remove_gaps_reverse, H1, H2, !reverse_involutive.
  done.
Qed.

Lemma part_of_within (bd fi fj : bool) (first second : EncodedSequence)
    (i j i' j' : Z) (al : SequenceAlignment) (cols : list column) :
  i <= i' -> j <= j' -> (bd = true -> i' = i /\ j' = j) ->
  part_of bd fi fj first second i j al cols ->
  part_of bd true true first second i' j' al cols.
Proof.
  intros Hi Hj Hsame Hp Hg1 Hg2.
  destruct (Hp Hg1 Hg2)
    as (i0 & i1 & j0 & j1 & Hbi & Hbj & Hbd & _ & _ & Hend & H1 & H2).
  exists i0, i1, j0, j1. repeat split; try done; try lia.
  intros Hb. destruct (Hsame Hb) as [-> ->]. auto.
Qed.

(** C1, amended: for every alignment returned by a backtrace engine
    (affine global, affine local, linear global), whatever the matrix,
    the per-position scores sum to the recorded total score.  For the
    linear-gap global engine, on a matrix of the shape of the inputs and
    inputs that hold no GAP, removing GAP from the first (second) output
    sequence gives the first (second) input sequence.  For the two
    affine engines, on inputs that hold no GAP, removing GAP from the
    first (second) output sequence gives a contiguous part
    [first[i0:i1]] ([second[j0:j1]]) of the first (second) input
    sequence, in order: for the global engine on any matrix of the shape
    of the inputs, where moreover the parts start at the beginning of one
    input at least and reach the end of one input at least; for the
    local engine on the matrix of the fill.  And the three aligners do
    return alignments on every input. *)
Theorem backtrace_roundtrip {S : Type} `{Scoring S} `{GapScoring S}
    (scoring : S) (fastBacktrace : bool) (gapScore : Z)
    (minScore : option Z) (first second : EncodedSequence) :
  (forall f als,
     GlobalSequenceAligner.backtrace fastBacktrace first second f = Ok als ->
     Forall (fun al => sum_scores (scores al) = score al) als)
  /\ (forall f als,
        LocalSequenceAligner.backtrace minScore first second f = Ok als ->
        Forall (fun al => sum_scores (scores al) = score al) als)
  /\ (forall f als,
        StrictGlobalSequenceAligner.backtrace scoring gapScore first second f
        = Ok als ->
        Forall (fun al => sum_scores (scores al) = score al) als
        /\ (shape f = (Seq.len first + 1, Seq.len second + 1) ->
            GAP_CODE ∉ elements first -> GAP_CODE ∉ elements second ->
            Forall (fun al =>
                      remove_gaps GAP_CODE (first_elements al)
                      = elements first
                      /\ remove_gaps GAP_CODE (second_elements al)
                         = elements second) als))
  /\ (forall f als,
        shape f = (Seq.len first + 1, Seq.len second + 1) ->
        GAP_CODE ∉ elements first -> GAP_CODE ∉ elements second ->
        GlobalSequenceAligner.backtrace fastBacktrace first second f
        = Ok als ->
        Forall (aligns_parts true first second) als)
  /\ (forall f als,
        LocalSequenceAligner.computeAlignmentMatrix scoring first second
        = Ok f ->
        GAP_CODE ∉ elements first -> GAP_CODE ∉ elements second ->
        LocalSequenceAligner.backtrace minScore first second f = Ok als ->
        Forall (aligns_parts false first second) als)
  /\ (exists sc als,
        GlobalSequenceAligner.align scoring fastBacktrace first second
        = Ok (sc, als))
  /\ (exists sc als,
        StrictGlobalSequenceAligner.align scoring gapScore first second
        = Ok (sc, als))
  /\ (exists sc als,
        LocalSequenceAligner.align scoring None first second = Ok (sc, als)).
Proof.
  pose proof (Seq_len_nonneg first) as Hlf.
  pose proof (Seq_len_nonneg second) as Hls.
  split; [|split; [|split; [|split; [|split; [|split; [|split]]]]]].
  - intros f als Hr. eapply traces_sum, global_backtrace_traces, Hr.
  - intros f als Hr. eapply traces_sum, local_backtrace_traces, Hr.
  - intros f als Hr. split.
    + unfold StrictGlobalSequenceAligner.backtrace in Hr.
      destruct (shape f) as [m n].
      apply bind_Ok_inv in Hr as (st & Hst & [= <-]).
      eapply descent_run in Hst as (new & _ & -> & Hall);
        [|apply strict_backtraceFrom_descent_any].
      cbn. apply (traces_sum first second).
      eapply Forall_impl; [exact Hall|]. intros x (cols & -> & _). eauto.
    + intros Hshape Hg1 Hg2.
      assert (0 <= fst (shape f) - 1) as H1 by (rewrite Hshape; cbn; lia).
      assert (0 <= snd (shape f) - 1) as H2 by (rewrite Hshape; cbn; lia).
      pose proof (strict_backtrace_traces scoring gapScore first second f
                    als H1 H2 Hr) as Htr.
      rewrite Hshape in Htr. cbn [fst snd] in Htr.
      replace (Seq.len first + 1 - 1) with (Seq.len first) in Htr by lia.
      replace (Seq.len second + 1 - 1) with (Seq.len second) in Htr by lia.
      eapply Forall_impl; [exact Htr|]. intros x (cols & -> & Hc).
      by apply covers_all.
  - intros f als Hshape Hg1 Hg2 Hr.
    unfold GlobalSequenceAligner.backtrace in Hr. rewrite Hshape in Hr.
    apply bind_Ok_inv in Hr as (types & _ & Hr).
    apply bind_Ok_inv in Hr as (st & Hst & [= <-]).
    replace (Seq.len first + 1 - 1) with (Seq.len first) in Hst by lia.
    replace (Seq.len second + 1 - 1) with (Seq.len second) in Hst by lia.
    eapply descent_run in Hst as (new & _ & -> & Hall).
    2:{ apply (descent_foldM
                 (part_of true true true first second (Seq.len first)
                    (Seq.len second))).
        intros t _. eapply descent_weaken.
        2:{ apply (global_backtraceFrom_part first second fastBacktrace f
                     _ _ _ _ _ t Hshape); lia. }
        intros al cols. apply part_of_within; lia. }
    cbn. eapply Forall_impl; [exact Hall|].
    intros x (cols & -> & Hp). by apply part_aligns.
  - intros f als Hf Hg1 Hg2 Hr.
    destruct (local_computeAlignmentMatrix_ok scoring first second)
      as (f' & Hf' & Hws & _ & Hborder).
    rewrite Hf in Hf'. injection Hf' as <-.
    unfold LocalSequenceAligner.backtrace in Hr.
    pose proof Hws as [Hshape _]. rewrite Hshape in Hr.
    apply bind_Ok_inv in Hr as (thr & _ & Hr).
    apply bind_Ok_inv in Hr as (st & Hst & [= <-]).
    eapply descent_run in Hst as (new & _ & -> & Hall).
    2:{ apply (descent_foldM
                 (part_of false true true first second (Seq.len first)
                    (Seq.len second))).
        intros i Hi.
        apply (descent_foldM
                 (part_of false true true first second (Seq.len first)
                    (Seq.len second))).
        intros j Hj. apply elem_of_range in Hi, Hj.
        apply descent_bind. intros v _.
        destruct (thr <=? v); [|apply descent_skip].
        eapply descent_weaken.
        2:{ apply (local_backtraceFrom_part first second f _ _ Hws Hborder);
              lia. }
        intros al cols. apply part_of_within; (done || lia). }
    cbn. eapply Forall_impl; [exact Hall|].
    intros x (cols & -> & Hp). by apply part_aligns.
  - apply global_align_ok.
  - destruct (strict_align_ok scoring gapScore first second)
      as (sc & als & Hr & _). eauto.
  - apply local_align_ok.
Qed.

Lemma backtrace_roundtrip_witness :
  (exists f als,
     StrictGlobalSequenceAligner.computeAlignmentMatrix
       (mkSimpleScoring 1 0 0 0) (-1) (mkSeq [1] 0) (mkSeq [1; 1] 1) = Ok f
     /\ StrictGlobalSequenceAligner.backtrace (mkSimpleScoring 1 0 0 0) (-1)
          (mkSeq [1] 0) (mkSeq [1; 1] 1) f = Ok als
     /\ shape f = (Seq.len (mkSeq [1] 0) + 1, Seq.len (mkSeq [1; 1] 1) + 1)
     /\ (GAP_CODE ∉ elements (mkSeq [1] 0))
     /\ (GAP_CODE ∉ elements (mkSeq [1; 1] 1))
     /\ Forall (fun al => sum_scores (scores al) = score al) als
     /\ Forall (fun al =>
                  remove_gaps GAP_CODE (first_elements al)
                  = elements (mkSeq [1] 0)
                  /\ remove_gaps GAP_CODE (second_elements al)
                     = elements (mkSeq [1; 1] 1)) als)
  /\ (exists f al,
        GlobalSequenceAligner.computeAlignmentMatrix
          (mkSimpleScoring 2 (-1) (-2) (-1)) (mkSeq [1; 2; 3] 0)
          (mkSeq [2; 3; 4] 1) = Ok f
        /\ GlobalSequenceAligner.backtrace false (mkSeq [1; 2; 3] 0)
             (mkSeq [2; 3; 4] 1) f = Ok [al]
        /\ shape f = (Seq.len (mkSeq [1; 2; 3] 0) + 1,
                      Seq.len (mkSeq [2; 3; 4] 1) + 1)
        /\ (GAP_CODE ∉ elements (mkSeq [1; 2; 3] 0))
        /\ (GAP_CODE ∉ elements (mkSeq [2; 3; 4] 1))
        /\ first_elements al = [2; 3] /\ second_elements al = [2; 3]
        /\ Forall (aligns_parts true (mkSeq [1; 2; 3] 0)
                     (mkSeq [2; 3; 4] 1)) [al]).
Proof.
  split.
  - do 2 eexists.
    split; [vm_compute; reflexivity|].
    match goal with
    | |- ?R = Ok ?a /\ ?Sh /\ ?G1 /\ ?G2 /\ _ =>
        assert (R = Ok a) as Hr by (vm_compute; reflexivity);
        assert Sh as Hshape by reflexivity;
        assert G1 as Hg1
          by (apply (bool_decide_unpack _); vm_compute; exact I);
        assert G2 as Hg2
          by (apply (bool_decide_unpack _); vm_compute; exact I)
    end.
    destruct (backtrace_roundtrip (mkSimpleScoring 1 0 0 0) false (-1) None
                (mkSeq [1] 0) (mkSeq [1; 1] 1)) as (_ & _ & Hstrict & _).
    destruct (Hstrict _ _ Hr) as [Hsum Hgaps].
    split; [exact Hr|]. split; [exact Hshape|]. split; [exact Hg1|].
    split; [exact Hg2|]. split; [exact Hsum|]. exact (Hgaps Hshape Hg1 Hg2).
  - do 2 eexists.
    split; [vm_compute; reflexivity|].
    match goal with
    | |- ?R = Ok ?a /\ ?Sh /\ ?G1 /\ ?G2 /\ _ =>
        assert (R = Ok a) as Hr by (vm_compute; reflexivity);
        assert Sh as Hshape by reflexivity;
        assert G1 as Hg1
          by (apply (bool_decide_unpack _); vm_compute; exact I);
        assert G2 as Hg2
          by (apply (bool_decide_unpack _); vm_compute; exact I)
    end.
    destruct (backtrace_roundtrip (mkSimpleScoring 2 (-1) (-2) (-1)) false
                0 None (mkSeq [1; 2; 3] 0) (mkSeq [2; 3; 4] 1))
      as (_ & _ & _ & Hglobal & _).
    split; [exact Hr|]. split; [exact Hshape|]. split; [exact Hg1|].
    split; [exact Hg2|]. split; [reflexivity|]. split; [reflexivity|].
    exact (Hglobal _ _ Hshape Hg1 Hg2 Hr).
Defined.

(** C1 as stated fails for the two affine engines.  Aligning the empty
    sequence with [1] in affine global mode returns one alignment, and
    its second output sequence without GAP is empty, not [1].  Aligning
    [1; 2] with [2] in affine local mode returns one alignment, and its
    first output sequence without GAP is [2], not [1; 2]. *)
Lemma affine_roundtrip_loses_elements :
  (exists sc al,
     GlobalSequenceAligner.align (mkSimpleScoring 2 (-1) (-2) (-1)) false
       (mkSeq [] 0) (mkSeq [1] 1) = Ok (sc, [al])
     /\ remove_gaps GAP_CODE (second_elements al)
        <> elements (mkSeq [1] 1))
  /\ (exists sc al,
        LocalSequenceAligner.align (mkSimpleScoring 2 (-1) (-2) (-1)) None
          (mkSeq [1; 2] 0) (mkSeq [2] 1) = Ok (sc, [al])
        /\ remove_gaps GAP_CODE (first_elements al)
           <> elements (mkSeq [1; 2] 0)).
Proof.
  split; do 2 eexists; (split; [vm_compute; reflexivity|]); done.
Qed.
